(** * Compute-pipeline construction and execution: a verified model

    Shallow embedding of the pipeline partitioner, the context
    namespacing of self-contained units, the precision downgrade, the
    squish/unsquish reinterpretation, the autograd boundary checks, the
    sharding pre-checks and the residual markers, followed by the
    properties proved about them. *)

From stdpp Require Import gmap strings list fin_maps functions pretty.

Set Warnings "-clear-no-such-hyp".

(** ** Python exceptions and fallible results *)

Inductive PyError :=
| IndexError
| ValueError (msg : string)
| AssertionError
| RuntimeError (msg : string)
| NotImplementedError
| ZeroDivisionError.

Inductive Outcome (A : Type) :=
| Ok (a : A)
| Raise (e : PyError).
Arguments Ok {A} a.
Arguments Raise {A} e.

Definition obind {A B} (m : Outcome A) (k : A → Outcome B) : Outcome B :=
  match m with
  | Ok a => k a
  | Raise e => Raise e
  end.

Notation "x ←! m ; k" := (obind m (λ x, k))
  (at level 20, m at level 100, k at level 200, only parsing, right associativity).

(** ** compute_pipeline.py: the partitioner *)

Module Partition.
Section split.
Context {O : Type} `{Countable O}.

(** An entry of a fused operation list: an elementary operation, or a
    [FusedOp] with its [ops] attribute. *)
Inductive Item :=
| Plain (o : O)
| Fused (ops : list O).

#[global] Instance Item_eq_dec : EqDecision Item.
Proof. solve_decision. Defined.

(** [fwd.ops if isinstance(fwd, FusedOp) else [fwd]] *)
Definition members (it : Item) : list O :=
  match it with
  | Plain o => [o]
  | Fused ops => ops
  end.

Record SelfContainedOp := { fwds : list Item; bwds : list Item }.

(** The body of [for op in ops]: an operation found in the pending set
    of the opposite direction is matched and removed from it, any other
    one becomes pending on this side. *)
Definition match_step (st : gset O * gset O) (op : O) : gset O * gset O :=
  if decide (op ∈ st.1) then (st.1 ∖ {[op]}, st.2) else (st.1, st.2 ∪ {[op]}).

Definition match_members (ops : list O) (pending other : gset O) : gset O * gset O :=
  foldl match_step (pending, other) ops.

(** One inner [while] loop: as long as [pending] is not empty, pop the
    head of [queue], record it in [used] and match its members. The two
    inner loops of the source are this loop with the roles of the two
    directions exchanged. *)
Fixpoint drain (queue : list Item) (pending other : gset O) (used : list Item)
  : Outcome (list Item * gset O * gset O * list Item) :=
  if decide (pending = ∅) then Ok (queue, pending, other, used)
  else match queue with
       | [] => Raise IndexError
       | it :: queue' =>
           let st := match_members (members it) pending other in
           drain queue' st.1 st.2 (used ++ [it])
       end.

(** [while unmatched_fwd_ops: bwd = bwds.pop(0) ...] *)
Definition match_backwards (bwds : list Item) (unmatched_fwd unmatched_bwd : gset O)
    (used_backwards : list Item) :=
  drain bwds unmatched_fwd unmatched_bwd used_backwards.

(** [while unmatched_bwd_ops: fwd = fwds.pop(0) ...] *)
Definition match_forwards (fwds : list Item) (unmatched_bwd unmatched_fwd : gset O)
    (used_forwards : list Item) :=
  drain fwds unmatched_bwd unmatched_fwd used_forwards.

(** [while unmatched_fwd_ops or unmatched_bwd_ops]; [None] stands for
    an exhausted iteration budget. *)
Fixpoint close_unit (fuel : nat) (fwds bwds : list Item)
    (unmatched_fwd unmatched_bwd : gset O) (used_forwards used_backwards : list Item)
  : option (Outcome (list Item * list Item * list Item * list Item)) :=
  if decide (unmatched_fwd = ∅ ∧ unmatched_bwd = ∅)
  then Some (Ok (fwds, bwds, used_forwards, used_backwards))
  else match fuel with
       | 0 => None
       | S fuel' =>
           match match_backwards bwds unmatched_fwd unmatched_bwd used_backwards with
           | Raise e => Some (Raise e)
           | Ok (bwds', uf, ub, used_b) =>
               match match_forwards fwds ub uf used_forwards with
               | Raise e => Some (Raise e)
               | Ok (fwds', ub', uf', used_f) =>
                   close_unit fuel' fwds' bwds' uf' ub' used_f used_b
               end
           end
       end.

(** [while fwds or bwds] *)
Fixpoint split_loop (fuel : nat) (fwds bwds : list Item) (functions : list SelfContainedOp)
  : option (Outcome (list SelfContainedOp)) :=
  match fwds, bwds with
  | [], [] => Some (Ok functions)
  | _, _ =>
      match fuel with
      | 0 => None
      | S fuel' =>
          match fwds with
          | [] => Some (Raise IndexError)
          | fwd :: fwds' =>
              match close_unit (S (length fwds' + length bwds)) fwds' bwds
                      (list_to_set (members fwd)) ∅ [fwd] [] with
              | None => None
              | Some (Raise e) => Some (Raise e)
              | Some (Ok (fwds'', bwds'', used_f, used_b)) =>
                  split_loop fuel' fwds'' bwds''
                    (functions ++ [{| fwds := used_f; bwds := used_b |}])
              end
          end
      end
  end.

Definition split_into_self_contained (fwds bwds : list Item)
  : option (Outcome (list SelfContainedOp)) :=
  split_loop (S (length fwds)) fwds bwds [].

(** Elementary operations of a list of items, in order. *)
Definition flat (q : list Item) : list O := concat (members <$> q).

Definition ops_of (q : list Item) : gset O := list_to_set (flat q).

Definition unit_fwd_ops (u : SelfContainedOp) : gset O := ops_of (fwds u).
Definition unit_bwd_ops (u : SelfContainedOp) : gset O := ops_of (bwds u).
Definition unit_ops (u : SelfContainedOp) : gset O := unit_fwd_ops u ∪ unit_bwd_ops u.

(** The two lists group the same elementary operations: each operation
    occurs once on either side and no group is empty. *)
Definition matching_lists (fwds bwds : list Item) : Prop :=
  NoDup (flat fwds) ∧ NoDup (flat bwds) ∧ ops_of fwds = ops_of bwds ∧
  Forall (λ it, members it ≠ []) (fwds ++ bwds).

(** Loop invariant of a unit under construction, for the operations [F]
    and [B] of the items used so far: a pending operation was seen on its
    own side, and every operation that is not pending was seen on both. *)
Definition balanced (F B unmatched_fwd unmatched_bwd : gset O) : Prop :=
  unmatched_fwd ⊆ F ∧ unmatched_bwd ⊆ B ∧
  F ∖ unmatched_fwd ⊆ B ∧ B ∖ unmatched_bwd ⊆ F.

(** Loop invariant on the queues for matching lists: a pending operation
    is still to come on the other side. *)
Definition in_step (fwds bwds : list Item) (unmatched_fwd unmatched_bwd : gset O) : Prop :=
  NoDup (flat fwds) ∧ NoDup (flat bwds) ∧
  unmatched_fwd ## unmatched_bwd ∧
  unmatched_fwd ## ops_of fwds ∧ unmatched_bwd ## ops_of bwds ∧
  unmatched_fwd ∪ ops_of fwds = unmatched_bwd ∪ ops_of bwds.

(** No elementary operation belongs to two different units. *)
Definition pairwise_disjoint (units : list SelfContainedOp) : Prop :=
  ∀ i j u v, units !! i = Some u → units !! j = Some v → i ≠ j →
             unit_ops u ## unit_ops v.

End split.
Arguments Item O : clear implicits.
Arguments SelfContainedOp O : clear implicits.
End Partition.

(** ** compute_pipeline.py: naming, precision downgrade, construction *)

Module Pipeline.
Import Partition.

(** Modelled from the spec: the [DType] enumeration of the native
    binding is not among the sources; it has the members the sources
    name ([BFloat16], [Float8E4M3], [Float8E5M2]) and the remaining
    storage types of the numeric backend. *)
Inductive DType :=
| Byte | Int32 | Int64 | Float32 | Float16 | BFloat16 | Float8E4M3 | Float8E5M2.

(** Modelled from the spec: [is_fp8] of the [nvte] package is not among
    the sources; a type is low-precision when it is one of the two 8-bit
    floating types. *)
Definition is_fp8 (d : DType) : bool :=
  match d with
  | Float8E4M3 | Float8E5M2 => true
  | _ => false
  end.

(** What [getattr] can return: a [DType] member or any other object,
    kept by its [repr]. *)
Inductive AttrVal :=
| DTypeVal (d : DType)
| OtherVal (repr : string).

(** An operation object: its class name, the [name] attribute written
    by [name_ops], and the remaining attributes that [dir] lists. *)
Record Op := {
  class_name : string;
  name : string;
  attrs : gmap string AttrVal
}.

Definition DType_to_nat (d : DType) : nat :=
  match d with
  | Byte => 0 | Int32 => 1 | Int64 => 2 | Float32 => 3
  | Float16 => 4 | BFloat16 => 5 | Float8E4M3 => 6 | Float8E5M2 => 7
  end.

Definition DType_of_nat (n : nat) : DType :=
  match n with
  | 0 => Byte | 1 => Int32 | 2 => Int64 | 3 => Float32
  | 4 => Float16 | 5 => BFloat16 | 6 => Float8E4M3 | _ => Float8E5M2
  end.

#[global] Instance DType_eq_dec : EqDecision DType.
Proof. solve_decision. Defined.
#[global] Instance DType_countable : Countable DType.
Proof. apply (inj_countable' DType_to_nat DType_of_nat). by intros []. Defined.

#[global] Instance AttrVal_eq_dec : EqDecision AttrVal.
Proof. solve_decision. Defined.
#[global] Instance AttrVal_countable : Countable AttrVal.
Proof.
  apply (inj_countable'
           (λ v, match v with DTypeVal d => inl d | OtherVal r => inr r end)
           (λ s, match s with inl d => DTypeVal d | inr r => OtherVal r end)).
  by intros [].
Defined.

#[global] Instance Op_eq_dec : EqDecision Op.
Proof. solve_decision. Defined.
#[global] Instance Op_countable : Countable Op.
Proof.
  apply (inj_countable'
           (λ o, (class_name o, name o, attrs o))
           (λ t, {| class_name := t.1.1; name := t.1.2; attrs := t.2 |})).
  by intros [].
Defined.

(** [s.startswith(p)] *)
Definition startswith (s p : string) : bool := String.prefix p s.

(** [s[n:]] *)
Fixpoint slice_from (n : nat) (s : string) : string :=
  match n, s with
  | 0, _ => s
  | S n', String _ s' => slice_from n' s'
  | S _, EmptyString => EmptyString
  end.

(** [s.endswith(sfx)] *)
Definition endswith (s sfx : string) : bool :=
  startswith (String.rev s) (String.rev sfx).

(** [dir(op)] *)
Definition dir (op : Op) : list string := (map_to_list (attrs op)).*1.

(** [setattr(op, attr, v)] on a plain attribute, which is what the
    attributes of the record are; a read-only property is not one of
    them. *)
Definition setattr (op : Op) (attr : string) (v : AttrVal) : Op :=
  {| class_name := class_name op; name := name op; attrs := <[attr := v]> (attrs op) |}.

(** The value an attribute holds once it has been visited. *)
Definition downgraded (v : AttrVal) : AttrVal :=
  match v with
  | DTypeVal d => if is_fp8 d then DTypeVal BFloat16 else v
  | OtherVal _ => v
  end.

(** The body of [for dtype_attribute in dtype_attributes]. *)
Definition downgrade_attr (op : Op) (dtype_attribute : string) : Op :=
  match attrs op !! dtype_attribute with
  | Some (DTypeVal d) =>
      if is_fp8 d then setattr op dtype_attribute (DTypeVal BFloat16) else op
  | _ => op
  end.

Definition dtype_attributes (op : Op) : list string :=
  filter (λ attr, endswith attr "_dtype" = true) (dir op).

Definition force_use_bf16_op (op : Op) : Op :=
  foldl downgrade_attr op (dtype_attributes op).

(** The operations are updated in place by the source; here the
    updated list is returned. *)
Definition force_use_bf16 (ops : list Op) : list Op := force_use_bf16_op <$> ops.

(** [f"{i}({op.__class__.__name__})"] *)
Definition op_name_at (i : nat) (cls : string) : string :=
  pretty i +:+ "(" +:+ cls +:+ ")".

(** The characters that the decimal rendering of an index is made of. *)
Definition is_digit (c : Stdlib.Strings.Ascii.ascii) : bool :=
  match Ascii.is_nat c with
  | Some _ => true
  | None => false
  end.

Fixpoint all_digits (s : string) : bool :=
  match s with
  | EmptyString => true
  | String c s' => is_digit c && all_digits s'
  end.

(** The source writes each name into the operation object; here the
    list of the named operations is returned. This describes a list
    whose entries are distinct objects; a list that holds one object at
    several positions is the subject of [Naming.name_ops_in_place]. *)
Definition name_ops (ops : list Op) : list Op :=
  imap (λ i op, {| class_name := class_name op;
                   name := op_name_at i (class_name op);
                   attrs := attrs op |}) ops.

Record Environment := { fp8_enabled : bool; world_size : Z }.

Inductive Mode := Inference | Forward | Backward.

Record ComputePipeline := {
  _inf : list (Item Op);
  functions : list (SelfContainedOp Op);
  forward : list (Item Op);
  backward : list (Item Op)
}.

(** The list handed to the fusion engine: a copy of the caller's list,
    named, downgraded when low precision is off; a world size above one
    reaches [model_parallel_transform], which raises. *)
Definition prepare_ops (ops : list Op) (env : Environment) : Outcome (list Op) :=
  let ops := name_ops ops in
  let ops := if fp8_enabled env then ops else force_use_bf16 ops in
  if bool_decide (1 < world_size env)%Z then Raise NotImplementedError else Ok ops.

Section construction.
(** The fusion engine is not among the sources: it is a parameter. *)
Variable get_fused_op_list : list Op → Mode → list (Item Op).

(** [ComputePipeline.__init__] *)
Definition init (ops : list Op) (env : Environment) : option (Outcome ComputePipeline) :=
  match prepare_ops ops env with
  | Raise e => Some (Raise e)
  | Ok ops =>
      let inf := get_fused_op_list ops Inference in
      match split_into_self_contained
              (get_fused_op_list ops Forward) (get_fused_op_list ops Backward) with
      | None => None
      | Some (Raise e) => Some (Raise e)
      | Some (Ok fs) =>
          Some (Ok {| _inf := inf;
                      functions := fs;
                      forward := concat (fwds <$> fs);
                      backward := concat (bwds <$> fs) |})
      end
  end.
End construction.
End Pipeline.

(** ** compute_pipeline.py: [SelfContainedOp.forward] and [backward] *)

Module Unit.
Import Partition Pipeline.
Section unit.
(** Tensors and the operations' own [forward] and [backward] belong to
    the numeric backend: they are parameters. *)
Context {T : Type}.
Variable op_forward : Item Op → T → T * gmap string T.
Variable op_backward : Item Op → gmap string T → T → T * list T.

(** [{op_name + name: tensor for name, tensor in ctx.items()}] *)
Definition prefix_ctx (op_name : string) (ctx : gmap string T) : gmap string T :=
  kmap (String.app op_name) ctx.

(** [{name[len(op_name):]: tensor for name, tensor in ctx.items()
      if name.startswith(op_name)}]; the kept keys share the prefix, so
    no two of them are sliced to the same key. *)
Definition strip_ctx (op_name : string) (ctx : gmap string T) : gmap string T :=
  list_to_map
    (omap (λ kv, if startswith kv.1 op_name
                 then Some (slice_from (String.length op_name) kv.1, kv.2)
                 else None)
          (map_to_list ctx)).

(** The context one forward member contributes to the unit context. *)
Definition exported_ctx (op : Item Op) (ctx : gmap string T) : gmap string T :=
  match op with
  | Plain o => prefix_ctx (name o) ctx
  | Fused _ => ctx
  end.

(** The body of [for op in self.fwds]; [full_ctx |= ctx] lets the new
    entries win. *)
Definition forward_step (st : T * gmap string T) (op : Item Op) : T * gmap string T :=
  let r := op_forward op st.1 in
  (r.1, exported_ctx op r.2 ∪ st.2).

Definition forward (u : SelfContainedOp Op) (x : T) : T * gmap string T :=
  foldl forward_step (x, ∅) (fwds u).

(** The context each forward member saved, in the order of the calls. *)
Fixpoint saved_ctxs (ops : list (Item Op)) (x : T) : list (gmap string T) :=
  match ops with
  | [] => []
  | op :: ops' => let r := op_forward op x in r.2 :: saved_ctxs ops' r.1
  end.

(** The non-fused members of a list carry the names written by
    [name_ops], and no member occurs twice. *)
Definition named_members (ops : list (Item Op)) : Prop :=
  NoDup ops ∧ ∃ ops0, ∀ o, Plain o ∈ ops → o ∈ name_ops ops0.

(** No fused member of the list saves a key that starts with
    [op_name]. *)
Definition fused_keys_apart (ops : list (Item Op)) (x : T) (op_name : string) : Prop :=
  ∀ j fused ctx key,
    ops !! j = Some (Fused fused) → saved_ctxs ops x !! j = Some ctx →
    is_Some (ctx !! key) → startswith key op_name = false.

(** The body of the first loop of [backward]. *)
Definition backward_ctx (ctx : gmap string T) (op : Item Op) : gmap string T :=
  match op with
  | Fused _ => ctx
  | Plain o => strip_ctx (name o) ctx
  end.

Definition backward_ctxs (u : SelfContainedOp Op) (ctx : gmap string T)
  : list (gmap string T) :=
  backward_ctx ctx <$> bwds u.

(** The body of the second loop; [full_grads += grads] appends. *)
Definition backward_step (st : T * list T) (p : Item Op * gmap string T) : T * list T :=
  let r := op_backward p.1 p.2 st.1 in
  (r.1, st.2 ++ r.2).

(** [for op, ctx in list(zip(self.bwds, ctxs))[::-1]] *)
Definition backward (u : SelfContainedOp Op) (ctx : gmap string T) (dy : T) : T * list T :=
  foldl backward_step (dy, []) (reverse (zip (bwds u) (backward_ctxs u ctx))).

End unit.
End Unit.

(** ** compute_pipeline_function.py: squish and unsquish *)

Module Squish.

(** Element types of the host tensor library that can reach the
    reinterpretation, with their sizes in bytes. *)
Inductive TorchDType :=
| uint8 | int8 | int32 | int64 | float16 | bfloat16 | float32 | float64.

#[global] Instance TorchDType_eq_dec : EqDecision TorchDType.
Proof. solve_decision. Defined.

Definition element_size (d : TorchDType) : nat :=
  match d with
  | uint8 | int8 => 1
  | float16 | bfloat16 => 2
  | int32 | float32 => 4
  | int64 | float64 => 8
  end.

(** A host tensor without storage offset whose last dimension is stored
    with stride 1: the declared element type, the sizes of its
    dimensions, the strides (in elements) of the dimensions before the
    last one, and the bytes of its storage. *)
Record TorchTensor := {
  dtype : TorchDType;
  shape : list nat;
  outer_stride : list nat;
  storage : list Byte.byte
}.

(** The strides that the host library gives to the dimensions before the
    last one of a tensor it allocates: the stride of a dimension is the
    stride of the next one times the size of the next one, a size of 0
    counting as 1. *)
Fixpoint contiguous_outer_stride (shape : list nat) : list nat :=
  match shape with
  | [] => []
  | _ :: rest =>
      match rest with
      | [] => []
      | _ :: _ => foldr (λ n acc, Nat.max n 1 * acc) 1 rest :: contiguous_outer_stride rest
      end
  end.

(** [t.numel()] *)
Definition numel (t : TorchTensor) : nat := foldr Nat.mul 1 (shape t).

(** The outer dimensions and the last one; [None] for no dimension. *)
Fixpoint unsnoc (l : list nat) : option (list nat * nat) :=
  match l with
  | [] => None
  | n :: l' =>
      match unsnoc l' with
      | None => Some ([], n)
      | Some (outer, m) => Some (n :: outer, m)
      end
  end.

(** [t.view(dtype)] of the host tensor library on such a tensor: the
    storage is shared, and the last dimension and the strides of the
    other dimensions are rescaled by the ratio of the element sizes. For
    a larger element type both the last dimension and every stride
    before the last must be multiples of the ratio; a tensor without
    dimensions, a last dimension or a stride that the ratio does not
    divide, is refused with a [RuntimeError]. *)
Definition view (t : TorchTensor) (d : TorchDType) : Outcome TorchTensor :=
  let old := element_size (dtype t) in
  let new := element_size d in
  if decide (old = new)
  then Ok {| dtype := d; shape := shape t; outer_stride := outer_stride t;
             storage := storage t |}
  else match unsnoc (shape t) with
       | None => Raise (RuntimeError "self.dim() cannot be 0 to view with a different element size")
       | Some (outer, n) =>
           if decide (old < new)
           then if decide (n `mod` (new `div` old) = 0)
                then if decide (Forall (λ s, s `mod` (new `div` old) = 0) (outer_stride t))
                     then Ok {| dtype := d; shape := outer ++ [n `div` (new `div` old)];
                                outer_stride := (λ s, s `div` (new `div` old)) <$> outer_stride t;
                                storage := storage t |}
                     else Raise (RuntimeError "self.stride(i) must be divisible by the element size ratio")
                else Raise (RuntimeError "self.size(-1) must be divisible by the element size ratio")
           else Ok {| dtype := d; shape := outer ++ [n * (old `div` new)];
                      outer_stride := (λ s, s * (old `div` new)) <$> outer_stride t;
                      storage := storage t |}
       end.

(** [d[k]] on a dict written as its list of items. *)
Fixpoint dict_get (d : list (TorchDType * TorchDType)) (k : TorchDType)
  : option TorchDType :=
  match d with
  | [] => None
  | (k', v) :: d' => if decide (k' = k) then Some v else dict_get d' k
  end.

Definition SQUISH_TABLE : list (TorchDType * TorchDType) :=
  [(int8, float16); (bfloat16, float32); (float32, float64)].

(** [{v: k for k, v in SQUISH_TABLE.items()}] *)
Definition UNSQUISH_TABLE : list (TorchDType * TorchDType) :=
  (λ kv, (kv.2, kv.1)) <$> SQUISH_TABLE.

(** Both functions assign [t.data]; here the updated tensor is returned. *)
Definition _unsquish (t : TorchTensor) : Outcome TorchTensor :=
  match dict_get UNSQUISH_TABLE (dtype t) with
  | None => Raise AssertionError
  | Some d => view t d
  end.

Definition _squish (t : TorchTensor) : Outcome TorchTensor :=
  match dict_get SQUISH_TABLE (dtype t) with
  | Some d => view t d
  | None => Raise (RuntimeError "Invalid dtype of gradient for FP8 tensor.")
  end.

End Squish.

(** ** compute_pipeline_function.py: the backward of the autograd boundary *)

Module Boundary.
Import Partition Pipeline Squish.

(** The backend tensor: storage plus scaling metadata. *)
Record NvteTensor := {
  te_dtype : DType;
  data : TorchTensor;
  amax : TorchTensor;
  scale : TorchTensor;
  scale_inv : TorchTensor
}.

(** [nvte.is_fp8(t)] on a tensor looks at its type. *)
Definition is_fp8_tensor (t : NvteTensor) : bool := is_fp8 (te_dtype t).

(** [torch.Tensor().cuda()] *)
Definition empty_tensor : TorchTensor :=
  {| dtype := float32; shape := [0]; outer_stride := []; storage := [] |}.

(** What [forward] stored on the autograd context. A relay
    ([BackwardComm]) is named by its slot in the per-call store of
    relays. *)
Record FunctionCtx := {
  nvte_ctx : gmap string NvteTensor;
  nvte_op : SelfContainedOp Op;
  nvte_preceding_backward_comm : nat;
  nvte_upcoming_backward_comm : option nat;
  nvte_unsquish_incoming_dgrad : bool;
  nvte_squish_outgoing_dgrad : bool
}.

(** [apply]: the unit at position [i] creates relay [i] as its
    [next_upcoming_backward] and receives the relay of the unit before
    it, or [None] at position 0, as its [upcoming_backward]. *)
Definition upcoming_backward_at (i : nat) : option nat :=
  match i with
  | 0 => None
  | S j => Some j
  end.

Section backward.
(** The dtype conversion and the members' own [backward] are not among
    the sources: they are parameters. *)
Variable torch_to_te_dtype : TorchDType → DType.
Variable op_backward :
  Item Op → gmap string NvteTensor → NvteTensor → NvteTensor * list NvteTensor.

Definition make_nvte_tensor (t : TorchTensor) : NvteTensor :=
  {| te_dtype := torch_to_te_dtype (dtype t); data := t;
     amax := empty_tensor; scale := empty_tensor; scale_inv := empty_tensor |}.

(** The gradient the unit really consumes: the relayed low-precision
    gradient when the following unit left one, else the gradient given by
    the host, unsquished when the forward output had been squished. *)
Definition incoming_grad (comms : gmap nat NvteTensor) (ctx : FunctionCtx)
    (grad_output : TorchTensor) : Outcome NvteTensor :=
  match comms !! nvte_preceding_backward_comm ctx with
  | None =>
      g ←! (if nvte_unsquish_incoming_dgrad ctx then _unsquish grad_output
            else Ok grad_output);
      Ok (make_nvte_tensor g)
  | Some g => Ok g
  end.

(** [ComputePipelineFunction.backward]: the relays after the call and the
    gradients returned to the host. *)
Definition backward (comms : gmap nat NvteTensor) (ctx : FunctionCtx)
    (grad_output : TorchTensor)
  : Outcome (gmap nat NvteTensor * list (option TorchTensor)) :=
  nvte_grad ←! incoming_grad comms ctx grad_output;
  let r := Unit.backward op_backward (nvte_op ctx) (nvte_ctx ctx) nvte_grad in
  let data_grad := r.1 in
  let param_grads := r.2 in
  comms' ←! match nvte_upcoming_backward_comm ctx with
            | None =>
                if is_fp8_tensor data_grad then Raise AssertionError else Ok comms
            | Some slot => Ok (<[slot := data_grad]> comms)
            end;
  if forallb (λ g, negb (is_fp8_tensor g)) param_grads
  then
    exposed_dgrad ←! (if nvte_squish_outgoing_dgrad ctx then _squish (data data_grad)
                      else Ok (data data_grad));
    Ok (comms', Some exposed_dgrad :: ((λ g, Some (data g)) <$> param_grads)
                ++ [None; None; None])
  else Raise AssertionError.

End backward.
End Boundary.

(** ** sequential_new/common_back/ops.py: shape binding of sharded operations *)

Module Ops.

(** Modelled from the spec: the enumeration of the ways a tensor is
    distributed is not among the sources; its members are those that
    [ParallelismClass] names (replicated, row-split, column-split,
    partial-sum). *)
Inductive PType := NA | NRS | NCS | PA.

#[global] Instance PType_eq_dec : EqDecision PType.
Proof. solve_decision. Defined.

Definition Parallelism : Type := PType * PType.

Module ParallelismClass.
Definition NORMAL : Parallelism := (NA, NA).
Definition ROWP : Parallelism := (NRS, NRS).
Definition COLP : Parallelism := (NCS, NCS).
Definition CGEMM : Parallelism := (NA, NCS).
Definition RGEMM : Parallelism := (NCS, PA).
Definition S : Parallelism := (NA, NRS).
Definition RS : Parallelism := (PA, NRS).
Definition AG : Parallelism := (NRS, NA).
Definition AR : Parallelism := (PA, NA).
End ParallelismClass.

(** A private field that starts as [Unset()]. *)
Inductive Setting (A : Type) :=
| Unset
| Value (a : A).
Arguments Unset {A}.
Arguments Value {A} a.

(** The private fields of [Op] read while the shape is bound; the group
    size is [None] for an environment without distributed group. *)
Record OpFields := {
  __dist_group_size : Setting (option Z);
  __parallellism : Setting Parallelism;
  __input_shape : Setting (list Z)
}.

(** The property [dist_group_size]. *)
Definition dist_group_size (self : OpFields) : Outcome Z :=
  match __dist_group_size self with
  | Unset => Raise AssertionError
  | Value None =>
      Raise (ValueError "Operation is not distributed, but distributed group size is requested")
  | Value (Some n) => Ok n
  end.

(** The property [parallellism]. *)
Definition parallellism (self : OpFields) : Outcome Parallelism :=
  match __parallellism self with
  | Unset => Raise AssertionError
  | Value p => Ok p
  end.

(** [a % b] and [a // b] on Python integers: the remainder has the sign
    of the divisor and the quotient is rounded down, as [Z.modulo] and
    [Z.div] do; a zero divisor raises. *)
Definition py_mod (a b : Z) : Outcome Z :=
  if decide (b = 0)%Z then Raise ZeroDivisionError else Ok (a `mod` b)%Z.

Definition py_floordiv (a b : Z) : Outcome Z :=
  if decide (b = 0)%Z then Raise ZeroDivisionError else Ok (a `div` b)%Z.

Definition with_input_shape (self : OpFields) (input_shape : list Z) : OpFields :=
  {| __dist_group_size := __dist_group_size self;
     __parallellism := __parallellism self;
     __input_shape := Value input_shape |}.

Module Gemm.
Import ParallelismClass.

Record t := {
  fields : OpFields;
  in_features : Z;
  out_features : Z
}.

Definition _pre_describe_tensors (self : t) : Outcome t :=
  p ←! parallellism (fields self);
  if bool_decide (p ∈ [NORMAL; RGEMM; CGEMM])
  then
    workers ←! (if bool_decide (p ∈ [RGEMM; CGEMM])
                then dist_group_size (fields self) else Ok 1%Z);
    if decide (p = RGEMM)
    then
      r ←! py_mod (in_features self) workers;
      if decide (r ≠ 0)%Z
      then Raise (ValueError
             "Number of input features must be divisible by the distributed group size")
      else
        q ←! py_floordiv (in_features self) workers;
        Ok {| fields := fields self; in_features := q;
              out_features := out_features self |}
    else if decide (p = CGEMM)
    then
      r ←! py_mod (out_features self) workers;
      if decide (r ≠ 0)%Z
      then Raise (ValueError
             "Number of output features must be divisible by the distributed group size")
      else
        q ←! py_floordiv (out_features self) workers;
        Ok {| fields := fields self; in_features := in_features self;
              out_features := q |}
    else Ok self
  else Raise AssertionError.

(** [Op.set_input_shape] on a [Gemm]. *)
Definition set_input_shape (self : t) (input_shape : list Z) : Outcome t :=
  _pre_describe_tensors
    {| fields := with_input_shape (fields self) input_shape;
       in_features := in_features self; out_features := out_features self |}.

(** The shape that [describe_params] declares for ["weight"]. *)
Definition describe_params (self : t) : list (string * list Z) :=
  [("weight", [in_features self; out_features self])].

End Gemm.

Module Bias.
Import ParallelismClass.

Record t := {
  fields : OpFields;
  features : Z
}.

Definition _pre_describe_tensors (self : t) : Outcome t :=
  p ←! parallellism (fields self);
  if bool_decide (p ∈ [NORMAL; ROWP; COLP])
  then
    workers ←! (if decide (p = COLP) then dist_group_size (fields self) else Ok 1%Z);
    r ←! py_mod (features self) workers;
    if decide (r ≠ 0)%Z
    then Raise (ValueError
           "Number of features must be divisible by the distributed group size")
    else
      q ←! py_floordiv (features self) workers;
      Ok {| fields := fields self; features := q |}
  else Raise AssertionError.

(** [Op.set_input_shape] on a [Bias]. *)
Definition set_input_shape (self : t) (input_shape : list Z) : Outcome t :=
  _pre_describe_tensors
    {| fields := with_input_shape (fields self) input_shape;
       features := features self |}.

(** The shape that [describe_params] declares for ["bias"]. *)
Definition describe_params (self : t) : list (string * list Z) :=
  [("bias", [features self])].

End Bias.
End Ops.

(** ** sequential_new/common_back/ops.py: the residual markers *)

Module Residual.

(** Pre-allocated tensors are buffers named by a number; a store gives the
    contents of every buffer. *)
Section buffers.
Context {V : Type}.

(** The sum of two tensor contents, as the numeric backend computes it. *)
Variable plus : V → V → V.

(** Modelled from the spec: [copy] of the numeric backend
    ([generic_tensor]) is not among the sources; it writes its input into
    a pre-allocated output buffer. *)
Definition copy (x out : nat) (σ : nat → V) : nat → V := <[out := σ x]> σ.

(** Modelled from the spec: [add] of the numeric backend
    ([generic_tensor]) is not among the sources; it writes the sum of its
    two inputs into a pre-allocated output buffer. *)
Definition add (x y out : nat) (σ : nat → V) : nat → V :=
  <[out := plus (σ x) (σ y)]> σ.

(** A suspended [training] generator: the tensor it yielded, the store at
    the suspension, and the rest of the body, to be run on the gradient
    it is resumed with and the store of that moment. *)
Definition Suspended : Type := nat * (nat → V) * (nat → (nat → V) → nat * (nat → V)).

(** [ResidualBegin]: [end_bwd_residue] is [self.end.bwd_residue], [None]
    while [self.end] is [None]. *)
Record ResidualBegin := {
  end_bwd_residue : option nat;
  fwd_residue : nat
}.

(** [ResidualEnd]: [begin] is the marker that opened the block. *)
Record ResidualEnd := {
  begin : ResidualBegin;
  bwd_residue : nat
}.

Definition ResidualBegin_training (self : ResidualBegin) (x : nat) (σ : nat → V)
  : Outcome Suspended :=
  match end_bwd_residue self with
  | None => Raise AssertionError
  | Some residue =>
      Ok (x, copy x (fwd_residue self) σ,
          λ grad σ', (residue, add residue grad residue σ'))
  end.

Definition ResidualBegin_inference (self : ResidualBegin) (x : nat) (σ : nat → V)
  : nat * (nat → V) :=
  (x, copy x (fwd_residue self) σ).

Definition ResidualEnd_training (self : ResidualEnd) (x : nat) (σ : nat → V)
  : Suspended :=
  (fwd_residue (begin self),
   add (fwd_residue (begin self)) x (fwd_residue (begin self)) σ,
   λ grad σ', (grad, copy grad (bwd_residue self) σ')).

Definition ResidualEnd_inference (self : ResidualEnd) (x : nat) (σ : nat → V)
  : nat * (nat → V) :=
  (fwd_residue (begin self),
   add (fwd_residue (begin self)) x (fwd_residue (begin self)) σ).

End buffers.
End Residual.

(** ** compute_pipeline.py: the inference path and the forward of the
       training path *)

Module Runs.
Import Partition Pipeline.

Section runs.
Context {T : Type}.
(** The members' own [inference] and [forward] belong to the numeric
    backend: they are parameters. *)
Variable op_inference : Item Op → T → T.
Variable op_forward : Item Op → T → T * gmap string T.

(** [ComputePipeline.run_inference] *)
Definition run_inference (p : ComputePipeline) (x : T) : T :=
  foldl (λ x op, op_inference op x) x (_inf p).

(** The training path, forward only: the units of [functions] are run
    in order, each by [SelfContainedOp.forward] on the output of the one
    before. *)
Definition run_forward (p : ComputePipeline) (x : T) : T :=
  foldl (λ x u, (Unit.forward op_forward u x).1) x (functions p).

(** Modelled from the spec: the fusion engine is not among the sources.
    It replaces contiguous runs of operations by fused operations and
    lets the others pass, without reordering: the members of the items
    it returns are, in order, the operations it was given. *)
Definition fusion_keeps_members
    (get_fused_op_list : list Op → Mode → list (Item Op)) : Prop :=
  ∀ ops mode, flat (get_fused_op_list ops mode) = ops.

(** Modelled from the spec: a fused operation is not among the sources.
    It keeps the external tensor contract of the run it replaces: its
    output is that of its members called one after the other. *)
Definition fused_as_members (run : Item Op → T → T) : Prop :=
  ∀ ms x, run (Fused ms) x = foldl (λ x o, run (Plain o) x) x ms.

(** Modelled from the spec: the bodies of the operations are not among
    the sources. With low precision disabled, the forward of an
    elementary operation computes the primary output that its inference
    computes. *)
Definition same_numerics : Prop :=
  ∀ o x, (op_forward (Plain o) x).1 = op_inference (Plain o) x.

End runs.
End Runs.

(** ** sequential_new/common_back/ops.py: [Gemm] on its buffers *)

Module GemmRun.
Import Residual.

Section buffers.
Context {V DT : Type} `{EqDecision DT}.

(** The product and the transposition of tensor contents, as the numeric
    backend computes them. *)
Variable matmul : V → V → V.
Variable transposed : V → V.

(** Modelled from the spec: [gemm] of the numeric backend
    ([generic_tensor]) is not among the sources; it writes the product of
    its two inputs into a pre-allocated output buffer. *)
Definition gemm (a b out : nat) (σ : nat → V) : nat → V :=
  <[out := matmul (σ a) (σ b)]> σ.

(** Modelled from the spec: [transpose] of the numeric backend
    ([generic_tensor]) is not among the sources; it writes the
    transposition of its input into a pre-allocated output buffer. *)
Definition transpose (x out : nat) (σ : nat → V) : nat → V :=
  <[out := transposed (σ x)]> σ.

(** A [Gemm] whose types and input shape have been set and whose
    tensors have been allocated. *)
Record Gemm := {
  input_type : DT;
  output_type : DT;
  input_shape : list Z;
  out_features : Z;
  weight : nat;
  weight_grad : nat;
  weight_t : nat;
  x_t : nat;
  act : nat
}.

(** [self.input_shape[:-1] + (self.out_features,)] *)
Definition _act_shape (self : Gemm) : list Z :=
  take (length (input_shape self) - 1) (input_shape self) ++ [out_features self].

Definition training (self : Gemm) (x : nat) (σ : nat → V) : Suspended (V := V) :=
  (act self,
   gemm x (weight self) (act self) (transpose (weight self) (weight_t self) σ),
   λ grad τ,
     (x, gemm grad (x_t self) (weight_grad self) (gemm grad (weight_t self) x τ))).

Definition inference (self : Gemm) (x : nat) (σ : nat → V) : nat * (nat → V) :=
  if decide (output_type self ≠ input_type self ∨ input_shape self ≠ _act_shape self)
  then (act self, gemm x (weight self) (act self) σ)
  else (x, gemm x (weight self) x σ).

End buffers.
Arguments Gemm DT : clear implicits.
End GemmRun.

(** ** Sample inputs *)

Module Samples.
Import Partition Pipeline Squish Boundary Ops Residual.

(** The units of [[1]; [2, 3]; [4]] forward against [[1, 2]; [3]; [4]]
    backward. *)
Definition sample_units : list (SelfContainedOp nat) :=
  [ {| fwds := [Plain 1; Fused [2; 3]]; bwds := [Fused [1; 2]; Plain 3] |};
    {| fwds := [Plain 4]; bwds := [Plain 4] |} ].

Definition layer_norm : Op :=
  {| class_name := "LayerNorm"; name := "";
     attrs := {[ "x_dtype" := DTypeVal Float8E4M3; "eps" := OtherVal "1e-5" ]} |}.

Definition gemm : Op :=
  {| class_name := "Gemm"; name := "";
     attrs := {[ "input_type" := DTypeVal Float8E4M3;
                 "param_dtype" := DTypeVal Float8E5M2;
                 "out_features" := OtherVal "4" ]} |}.

(** The two operations as [name_ops] leaves them. *)
Definition layer_norm0 : Op :=
  {| class_name := "LayerNorm"; name := "0(LayerNorm)"; attrs := attrs layer_norm |}.

Definition gemm1 : Op :=
  {| class_name := "Gemm"; name := "1(Gemm)"; attrs := attrs gemm |}.

Definition bf16_env : Environment := {| fp8_enabled := false; world_size := 1 |}.

(** A fusion engine that fuses nothing. *)
Definition no_fusion (ops : list Op) (mode : Mode) : list (Item Op) := Plain <$> ops.

Definition sample_unit : SelfContainedOp Op :=
  {| fwds := [Plain layer_norm0; Plain gemm1]; bwds := [Plain layer_norm0; Plain gemm1] |}.

(** Every member saves its input under the same key ["x"]. *)
Definition save_input (op : Item Op) (x : nat) : nat * gmap string nat :=
  (x + 1, {[ "x" := x ]}).

(** Every item adds one to its input for each of its members, in
    inference and in forward, where it also saves its input. *)
Definition count_inference (op : Item Op) (x : nat) : nat := x + length (members op).

Definition count_forward (op : Item Op) (x : nat) : nat * gmap string nat :=
  (x + length (members op), {[ "x" := x ]}).

(** The pipeline of [layer_norm] and [gemm], built without fusion and
    with low precision disabled. *)
Definition sample_pipeline : ComputePipeline :=
  {| Pipeline._inf := Plain <$> force_use_bf16 [layer_norm0; gemm1];
     Pipeline.functions :=
       (λ o, {| fwds := [Plain o]; bwds := [Plain o] |})
         <$> force_use_bf16 [layer_norm0; gemm1];
     Pipeline.forward := Plain <$> force_use_bf16 [layer_norm0; gemm1];
     Pipeline.backward := Plain <$> force_use_bf16 [layer_norm0; gemm1] |}.

(** A [Gemm] of equal input and output shape and type, which works in
    place at inference: its weight is buffer 1. *)
Definition square_gemm : GemmRun.Gemm string :=
  {| GemmRun.input_type := "BF16"; GemmRun.output_type := "BF16";
     GemmRun.input_shape := [2; 4]%Z; GemmRun.out_features := 4%Z;
     GemmRun.weight := 1; GemmRun.weight_grad := 4; GemmRun.weight_t := 5;
     GemmRun.x_t := 6; GemmRun.act := 7 |}.

(** Every member doubles the gradient and reports, as its parameter
    gradient, the input that its context holds under ["x"]. *)
Definition replay_input (op : Item Op) (ctx : gmap string nat) (dy : nat) : nat * list nat :=
  (2 * dy, [default 0 (ctx !! "x")]).

(** Every member doubles the gradient and reports the one it received. *)
Definition double_grad (op : Item Op) (ctx : gmap string nat) (dy : nat) : nat * list nat :=
  (2 * dy, [dy]).


(** Two rows of no element, as the host library allocates them. *)
Definition empty_rows_int8 : TorchTensor :=
  {| dtype := int8; shape := [2; 0]; outer_stride := contiguous_outer_stride [2; 0];
     storage := [] |}.

Definition even_int8 : TorchTensor :=
  {| dtype := int8; shape := [1; 4]; outer_stride := contiguous_outer_stride [1; 4];
     storage := [Byte.x01; Byte.x02; Byte.x03; Byte.x04] |}.

Definition grad32 : TorchTensor :=
  {| dtype := float32; shape := [1]; outer_stride := [];
     storage := [Byte.x00; Byte.x00; Byte.x80; Byte.x3f] |}.

Definition te_dtype_of (d : TorchDType) : DType :=
  match d with
  | uint8 => Byte
  | int8 => Float8E4M3
  | int32 => Int32
  | int64 => Int64
  | float16 => Float16
  | bfloat16 => BFloat16
  | float32 | float64 => Float32
  end.

Definition as_fp8 (t : NvteTensor) : NvteTensor :=
  {| te_dtype := Float8E4M3; data := data t; amax := amax t;
     scale := scale t; scale_inv := scale_inv t |}.

(** A member whose parameter gradient is low-precision. *)
Definition fp8_param_grad (op : Item Op) (ctx : gmap string NvteTensor) (dy : NvteTensor)
  : NvteTensor * list NvteTensor :=
  (dy, [as_fp8 dy]).

Definition last_backward_ctx : FunctionCtx :=
  {| nvte_ctx := ∅;
     nvte_op := {| fwds := [Plain gemm1]; bwds := [Plain gemm1] |};
     nvte_preceding_backward_comm := 0;
     nvte_upcoming_backward_comm := None;
     nvte_unsquish_incoming_dgrad := false;
     nvte_squish_outgoing_dgrad := false |}.

Definition row_parallel_fields : OpFields :=
  {| __dist_group_size := Value (Some 4%Z);
     __parallellism := Value ParallelismClass.RGEMM;
     __input_shape := Unset |}.

Definition residual_begin : ResidualBegin :=
  {| end_bwd_residue := Some 1; fwd_residue := 0 |}.

Definition residual_end : ResidualEnd :=
  {| begin := residual_begin; bwd_residue := 1 |}.

(** Buffer 1 ([bwd_residue]) holds 5, buffer 2 (the input) holds 2 and
    buffer 3 (the incoming gradient) holds 7. *)
Definition residual_store (l : nat) : Z :=
  match l with
  | 1 => 5%Z
  | 2 => 2%Z
  | 3 => 7%Z
  | _ => 0%Z
  end.

End Samples.

(** ** compute_pipeline.py: how the partitioner builds its units *)

Module PartitionRuns.
Import Partition.
Section runs.
Context {O : Type} `{Countable O}.

(** The unit of an item that is grouped alike forward and backward. *)
Definition singleton_unit (it : Item O) : SelfContainedOp O :=
  {| fwds := [it]; bwds := [it] |}.

(** The passes of the outer loop that lead from the two queues to the
    units: each pass pops one forward item and closes one unit. *)
Inductive passes : list (Item O) → list (Item O) → list (SelfContainedOp O) → Prop :=
| passes_done : passes [] [] []
| passes_unit fuel fwd fwds bwds fwds' bwds' used_f used_b units :
    close_unit fuel fwds bwds (list_to_set (members fwd)) ∅ [fwd] []
    = Some (Ok (fwds', bwds', used_f, used_b)) →
    passes fwds' bwds' units →
    passes (fwd :: fwds) bwds ({| fwds := used_f; bwds := used_b |} :: units).

(** A unit that cannot be cut: no proper pair of leading forward and
    backward items of it spans the same operations on both sides. *)
Definition minimal_unit (u : SelfContainedOp O) : Prop :=
  ∀ pf pb, pf `prefix_of` fwds u → pb `prefix_of` bwds u → pf ≠ [] →
           ops_of pf = ops_of pb → pf = fwds u ∧ pb = bwds u.

End runs.
End PartitionRuns.

(** ** compute_pipeline.py: [name_ops] on shared objects *)

Module Naming.
Import Pipeline.

(** The source writes the name into the operation object itself, and a
    list may hold the same object at several positions. Here an object is
    named by its address and the heap, a map from addresses, gives the state
    of every object. *)

(** [setattr(op, "name", nm)] on the state of one object. *)
Definition set_name (nm : string) (op : Op) : Op :=
  {| class_name := class_name op; name := nm; attrs := attrs op |}.

(** The body of the loop, for a position of the list and the address
    found there; every address of a list is that of an object of the
    heap. *)
Definition name_op_at (h : gmap nat Op) (p : nat * nat) : gmap nat Op :=
  alter (λ op, set_name (op_name_at p.1 (class_name op)) op) p.2 h.

(** [enumerate(ops)] *)
Definition enumerate (ops : list nat) : list (nat * nat) := imap pair ops.

(** [name_ops], in place. *)
Definition name_ops_in_place (ops : list nat) (h : gmap nat Op) : gmap nat Op :=
  foldl name_op_at h (enumerate ops).

(** [force_use_bf16], in place: the loop visits the objects of the list
    one after the other, an object that the list holds twice being
    visited twice. *)
Definition force_use_bf16_in_place (ops : list nat) (h : gmap nat Op) : gmap nat Op :=
  foldl (λ h a, alter force_use_bf16_op a h) h ops.

(** The first steps of [ComputePipeline.__init__] on the objects of the
    copied list. *)
Definition prepare_in_place (ops : list nat) (env : Environment) (h : gmap nat Op)
  : Outcome (gmap nat Op) :=
  let h := name_ops_in_place ops h in
  let h := if fp8_enabled env then h else force_use_bf16_in_place ops h in
  if bool_decide (1 < world_size env)%Z then Raise NotImplementedError else Ok h.

End Naming.

(** ** compute_pipeline_function.py: the forward of the autograd boundary *)

Module Exposure.
Import Partition Pipeline Squish Boundary.

(** [ForwardArgs], what [apply] leaves in the module-level [_args] for
    the next call of [forward]. A relay is named by its slot, as in
    [FunctionCtx]; the two providers of scaling metadata only reach the
    execution state of the backend and are left out. *)
Record ForwardArgs := {
  is_exposed_x_squished_now : bool;
  upcoming_backward : option nat;
  next_upcoming_backward : nat;
  op : SelfContainedOp Op
}.

(** [get_exposed_y]: a clone of [exposed_x], for its history, whose data
    is the data of [nvte_y]; the decorator that registers the function
    with the host library is left out. *)
Definition get_exposed_y (exposed_x : TorchTensor) (nvte_y : NvteTensor) : TorchTensor :=
  data nvte_y.

(** [tensor_mess[-4:]] *)
Definition last_four (tensor_mess : list TorchTensor) : list TorchTensor :=
  drop (length tensor_mess - 4) tensor_mess.

(** [apply]: [x.dtype != nvte_x.data.dtype], the flag
    [is_exposed_x_squished_now] of every unit after the first. *)
Definition squished_now (x nvte_x_data : TorchTensor) : bool :=
  bool_decide (dtype x ≠ dtype nvte_x_data).

(** [apply], the branch for position 0: nothing was squished and no
    unit comes before; [fresh] is the slot of the relay that
    [ForwardArgs.__init__] creates. *)
Definition first_unit_args (contained_op : SelfContainedOp Op) (fresh : nat) : ForwardArgs :=
  {| is_exposed_x_squished_now := false;
     upcoming_backward := None;
     next_upcoming_backward := fresh;
     op := contained_op |}.

(** [apply], the branch for the later positions: [x] and [nvte_x_data]
    are the first two tensors that the call for the unit before
    returned, [_args] is what was left for that call. *)
Definition next_unit_args (_args : ForwardArgs) (x nvte_x_data : TorchTensor)
    (contained_op : SelfContainedOp Op) (fresh : nat) : ForwardArgs :=
  {| is_exposed_x_squished_now := squished_now x nvte_x_data;
     upcoming_backward := Some (next_upcoming_backward _args);
     next_upcoming_backward := fresh;
     op := contained_op |}.

Section forward.
(** The constructor of the backend tensor, called on the last four
    tensors, and the members' own [forward] are not among the sources:
    they are parameters. *)
Variable nvte_Tensor : list TorchTensor → Outcome NvteTensor.
Variable op_forward : Item Op → NvteTensor → NvteTensor * gmap string NvteTensor.

(** [ComputePipelineFunction.forward]: the attributes set on the
    autograd context and the five tensors returned. *)
Definition forward (_args : ForwardArgs) (exposed_x : TorchTensor)
    (tensor_mess : list TorchTensor)
  : Outcome (FunctionCtx *
             (TorchTensor * TorchTensor * TorchTensor * TorchTensor * TorchTensor)) :=
  nvte_x ←! nvte_Tensor (last_four tensor_mess);
  let r := Unit.forward op_forward (op _args) nvte_x in
  let nvte_y := r.1 in
  let to_save := r.2 in
  let exposed_y := get_exposed_y exposed_x nvte_y in
  y ←! (if decide (dtype exposed_y = int8)
        then (y ←! _squish exposed_y; Ok (y, true))
        else Ok (exposed_y, false));
  Ok ({| nvte_ctx := to_save;
         nvte_op := op _args;
         nvte_preceding_backward_comm := next_upcoming_backward _args;
         nvte_upcoming_backward_comm := upcoming_backward _args;
         nvte_unsquish_incoming_dgrad := y.2;
         nvte_squish_outgoing_dgrad := is_exposed_x_squished_now _args |},
      (y.1, data nvte_y, amax nvte_y, scale nvte_y, scale_inv nvte_y)).

End forward.
End Exposure.

(** ** sequential_new/common_back/ops.py: shapes of the communication
       operations and of [Transpose] *)

Module Shapes.
Import Ops.

(** The property [input_shape]. *)
Definition input_shape (self : OpFields) : Outcome (list Z) :=
  match __input_shape self with
  | Unset => Raise AssertionError
  | Value s => Ok s
  end.

(** [shape[:-2]] on a tuple: everything but the last two entries, the
    empty tuple when there are fewer. *)
Definition but_last_two (shape : list Z) : list Z := take (length shape - 2) shape.

(** [shape[-k]] for [k] at least 1. *)
Definition item_from_end (shape : list Z) (k : nat) : Outcome Z :=
  if decide (k ≤ length shape)
  then match shape !! (length shape - k) with
       | Some v => Ok v
       | None => Raise IndexError
       end
  else Raise IndexError.

Definition row_split_shape (shape : list Z) (workers : Z) : Outcome (list Z) :=
  if decide (2 ≤ length shape)
  then
    rows ←! item_from_end shape 2;
    r ←! py_mod rows workers;
    if decide (r = 0)%Z
    then
      rows ←! item_from_end shape 2;
      q ←! py_floordiv rows workers;
      cols ←! item_from_end shape 1;
      Ok (but_last_two shape ++ [q; cols])
    else Raise AssertionError
  else Raise AssertionError.

Definition row_merge_shape (shape : list Z) (workers : Z) : Outcome (list Z) :=
  if decide (2 ≤ length shape)
  then
    rows ←! item_from_end shape 2;
    cols ←! item_from_end shape 1;
    Ok (but_last_two shape ++ [(rows * workers)%Z; cols])
  else Raise AssertionError.

(** [Scatter.describe_activation_shape] and
    [ReduceScatter.describe_activation_shape], which have the same body. *)
Definition scatter_activation_shape (self : OpFields) : Outcome (list Z) :=
  shape ←! input_shape self;
  workers ←! dist_group_size self;
  row_split_shape shape workers.

(** [AllGather.describe_activation_shape] *)
Definition gather_activation_shape (self : OpFields) : Outcome (list Z) :=
  shape ←! input_shape self;
  workers ←! dist_group_size self;
  row_merge_shape shape workers.

Module Transpose.
Section transpose.
(** The element types belong to an enumeration that is not among the
    sources: the type of its members is a parameter. *)
Context {DT : Type}.

(** [__output_type] is [None] while it is still to be inferred. *)
Record t := {
  fields : OpFields;
  __output_type : option DT
}.

(** The property [output_type]. *)
Definition output_type (self : t) : Outcome DT :=
  match __output_type self with
  | None => Raise AssertionError
  | Some d => Ok d
  end.

(** [self.input_shape[:-2] + (self.input_shape[-1], self.input_shape[-2])] *)
Definition _act_shape (self : t) : Outcome (list Z) :=
  s ←! input_shape (fields self);
  last ←! item_from_end s 1;
  before ←! item_from_end s 2;
  Ok (but_last_two s ++ [last; before]).

Definition describe_activation_shape (self : t) : Outcome (list Z) := _act_shape self.

(** A [TensorDescriptor] is kept as its shape and its element type;
    its constructor argument is [None] here. *)
Definition describe_supplementary_tensors_training (self : t)
  : Outcome (list (string * (list Z * DT))) :=
  s ←! input_shape (fields self);
  a ←! _act_shape self;
  if decide (s ≠ a)
  then
    a' ←! _act_shape self;
    d ←! output_type self;
    Ok [("act", (a', d))]
  else Ok [].

(** [Op.set_input_shape] on a [Transpose], whose [_pre_describe_tensors]
    does nothing. *)
Definition set_input_shape (self : t) (shape : list Z) : t :=
  {| fields := with_input_shape (fields self) shape;
     __output_type := __output_type self |}.

End transpose.
Arguments t DT : clear implicits.
End Transpose.

End Shapes.

(** ** sequential_new/pytorch_front/residual.py: a residual block *)

Module ResidualBlock.
Import Residual.

Section block.
Context {V : Type}.
Variable plus : V → V → V.

(** [Residual.expand_for_sequential]: the two markers refer to each
    other ([end.begin] is [begin], and [begin.end] is set to [end]);
    [fwd] and [bwd] are the buffers allocated for [fwd_residue] and
    [bwd_residue]. *)
Definition expand_markers (fwd bwd : nat) : ResidualBegin * ResidualEnd :=
  let begin := {| end_bwd_residue := Some bwd; fwd_residue := fwd |} in
  (begin, {| begin := begin; bwd_residue := bwd |}).

(** The operations that [expand] returns for the wrapped modules are
    not among the sources: taken together they are any operation, given
    by its [inference] and by its [training] protocol. *)
Variable inner_inference : nat → (nat → V) → nat * (nat → V).
Variable inner_training : nat → (nat → V) → Suspended (V := V).

(** Modelled from the spec: the loop that runs an expanded list is not
    among the sources. For inference each operation of
    [[begin, *inner, end]] receives the tensor returned by the one
    before it. *)
Definition block_inference (markers : ResidualBegin * ResidualEnd) (x : nat) (σ : nat → V)
  : nat * (nat → V) :=
  let r1 := ResidualBegin_inference markers.1 x σ in
  let r2 := inner_inference r1.1 r1.2 in
  ResidualEnd_inference plus markers.2 r2.1 r2.2.

(** Modelled from the spec: for training the generators of
    [[begin, *inner, end]] are advanced in that order, each on the tensor
    yielded by the one before it, and resumed in the opposite order, each
    with the gradient yielded by the one after it. *)
Definition block_training (markers : ResidualBegin * ResidualEnd) (x : nat) (σ : nat → V)
  : Outcome (Suspended (V := V)) :=
  b ←! ResidualBegin_training plus markers.1 x σ;
  let i := inner_training b.1.1 b.1.2 in
  let e := ResidualEnd_training plus markers.2 i.1.1 i.1.2 in
  Ok (e.1.1, e.1.2,
      λ grad τ,
        let ge := e.2 grad τ in
        let gi := i.2 ge.1 ge.2 in
        b.2 gi.1 gi.2).

End block.
End ResidualBlock.

(** ** Further sample inputs *)

Module MoreSamples.
Import Partition PartitionRuns Pipeline Naming Squish Boundary Exposure Ops Shapes.
Import Residual ResidualBlock Samples.

(** A list used on both sides: an elementary operation and a fused pair. *)
Definition same_grouping : list (Item nat) := [Plain 1; Fused [2; 3]].

(** One object, at address 7, and two objects, at addresses 3 and 5. *)
Definition one_object : gmap nat Op := {[ 7 := layer_norm ]}.
Definition two_objects : gmap nat Op := {[ 3 := layer_norm; 5 := gemm ]}.

Definition bf16_layer_norm : Op :=
  {| class_name := "LayerNorm"; name := "";
     attrs := {[ "x_dtype" := DTypeVal BFloat16 ]} |}.

Definition fp8_env : Environment := {| fp8_enabled := true; world_size := 1 |}.

(** A constructor of backend tensors that takes its four tensors as
    they are. *)
Definition four_tensors (l : list TorchTensor) : Outcome NvteTensor :=
  match l with
  | [d; a; s; si] =>
      Ok {| te_dtype := te_dtype_of (dtype d); data := d;
            amax := a; scale := s; scale_inv := si |}
  | _ => Raise (RuntimeError "four tensors expected")
  end.

(** Members that return their input and save nothing. *)
Definition pass_through (op : Item Op) (x : NvteTensor)
  : NvteTensor * gmap string NvteTensor :=
  (x, ∅).

(** Members that return the gradient they receive, also as their one
    parameter gradient. *)
Definition plain_grads (op : Item Op) (ctx : gmap string NvteTensor) (dy : NvteTensor)
  : NvteTensor * list NvteTensor :=
  (dy, [dy]).

Definition first_args : ForwardArgs :=
  {| is_exposed_x_squished_now := false;
     upcoming_backward := None;
     next_upcoming_backward := 0;
     op := {| fwds := [Plain gemm1]; bwds := [Plain gemm1] |} |}.

(** A gradient with the dtype and shape of the squished [even_int8]. *)
Definition half_grad : TorchTensor :=
  {| dtype := float16; shape := [1; 2]; outer_stride := contiguous_outer_stride [1; 2];
     storage := [Byte.x00; Byte.x3c; Byte.x00; Byte.x40] |}.

(** [half_grad] unsquished. *)
Definition raw_grad : TorchTensor :=
  {| dtype := int8; shape := [1; 4]; outer_stride := contiguous_outer_stride [1; 4];
     storage := storage half_grad |}.

(** The context of a unit that is followed by another one and preceded
    by the unit of [last_backward_ctx]. *)
Definition later_ctx : FunctionCtx :=
  {| nvte_ctx := ∅;
     nvte_op := {| fwds := [Plain gemm1]; bwds := [Plain gemm1] |};
     nvte_preceding_backward_comm := 1;
     nvte_upcoming_backward_comm := Some 0;
     nvte_unsquish_incoming_dgrad := false;
     nvte_squish_outgoing_dgrad := false |}.

(** What [forward] exposes for the raw output [even_int8], and the
    contexts of the first unit and of a second one that follow from it. *)
Definition exposed_half : TorchTensor :=
  {| dtype := float16; shape := [1; 2]; outer_stride := contiguous_outer_stride [1; 2];
     storage := storage even_int8 |}.

Definition first_ctx : FunctionCtx :=
  {| nvte_ctx := ∅;
     nvte_op := op first_args;
     nvte_preceding_backward_comm := 0;
     nvte_upcoming_backward_comm := None;
     nvte_unsquish_incoming_dgrad := true;
     nvte_squish_outgoing_dgrad := false |}.

Definition second_ctx : FunctionCtx :=
  {| nvte_ctx := ∅;
     nvte_op := op first_args;
     nvte_preceding_backward_comm := 1;
     nvte_upcoming_backward_comm := Some 0;
     nvte_unsquish_incoming_dgrad := true;
     nvte_squish_outgoing_dgrad := true |}.

(** Members without parameters, which return the gradient they receive. *)
Definition no_param_grads (op : Item Op) (ctx : gmap string NvteTensor) (dy : NvteTensor)
  : NvteTensor * list NvteTensor :=
  (dy, []).

Definition scatter_fields : OpFields :=
  {| __dist_group_size := Value (Some 4%Z);
     __parallellism := Value ParallelismClass.RS;
     __input_shape := Value [2; 8; 3]%Z |}.

Definition gather_fields : OpFields :=
  {| __dist_group_size := Value (Some 4%Z);
     __parallellism := Value ParallelismClass.AG;
     __input_shape := Unset |}.

Definition normal_fields : OpFields :=
  {| __dist_group_size := Unset;
     __parallellism := Value ParallelismClass.NORMAL;
     __input_shape := Unset |}.

Definition transpose_op : Transpose.t string :=
  {| Transpose.fields := with_input_shape normal_fields [5; 2; 3]%Z;
     Transpose.__output_type := Some "FP32" |}.

Definition gemm16 : Gemm.t :=
  {| Gemm.fields := row_parallel_fields; Gemm.in_features := 16; Gemm.out_features := 8 |}.

(** An inner operation that works in place: it adds ten to its input
    buffer, and on the way back doubles the gradient buffer. *)
Definition add_ten (x : nat) (σ : nat → Z) : nat * (nat → Z) :=
  (x, <[x := (σ x + 10)%Z]> σ).

Definition add_ten_training (x : nat) (σ : nat → Z) : Suspended (V := Z) :=
  (x, <[x := (σ x + 10)%Z]> σ, λ grad τ, (grad, <[grad := (2 * τ grad)%Z]> τ)).

End MoreSamples.

(** * Properties *)

(** ** The partitioner *)

Module PartitionProofs.
Import Partition.
Section proofs.
Context {O : Type} `{HO : Countable O}.
Implicit Types (it : Item O) (q qf qb used usedf usedb popped : list (Item O)).
Implicit Types (F B uf ub pending other : gset O).
Implicit Types (u : SelfContainedOp O) (acc units : list (SelfContainedOp O)).

Lemma flat_app q1 q2 : flat (q1 ++ q2) = flat q1 ++ flat q2.
Proof. unfold flat. by rewrite fmap_app, concat_app. Qed.

Lemma flat_cons it q : flat (it :: q) = members it ++ flat q.
Proof. reflexivity. Qed.

Lemma ops_of_app q1 q2 : ops_of (q1 ++ q2) = ops_of q1 ∪ ops_of q2.
Proof. unfold ops_of. by rewrite flat_app, list_to_set_app_L. Qed.

Lemma ops_of_cons it q : ops_of (it :: q) = list_to_set (members it) ∪ ops_of q.
Proof. unfold ops_of. by rewrite flat_cons, list_to_set_app_L. Qed.

Lemma ops_of_nil : ops_of (@nil (Item O)) = ∅.
Proof. reflexivity. Qed.

Lemma ops_of_singleton it : ops_of [it] = list_to_set (members it).
Proof. rewrite ops_of_cons, ops_of_nil. set_solver. Qed.

Lemma match_members_cons op ops pending other :
  match_members (op :: ops) pending other =
  match_members ops (match_step (pending, other) op).1 (match_step (pending, other) op).2.
Proof. unfold match_members. simpl. by destruct (match_step _ _). Qed.

(** *** Each closed unit spans the same operations on both sides *)

Lemma match_step_balanced op F B pending other :
  balanced F B pending other →
  balanced F (B ∪ {[op]})
    (match_step (pending, other) op).1 (match_step (pending, other) op).2.
Proof.
  unfold balanced, match_step. intros (H1 & H2 & H3 & H4). simpl.
  destruct (decide (op ∈ pending)) as [Hin|Hout]; simpl.
  - split_and!.
    + set_solver.
    + set_solver.
    + intros x Hx. destruct (decide (x = op)) as [->|]; set_solver.
    + intros x Hx. destruct (decide (x = op)) as [->|]; set_solver.
  - split_and!.
    + done.
    + set_solver.
    + set_solver.
    + intros x Hx. destruct (decide (x = op)) as [->|]; set_solver.
Qed.

Lemma match_members_balanced ops F B pending other :
  balanced F B pending other →
  balanced F (B ∪ list_to_set ops)
    (match_members ops pending other).1 (match_members ops pending other).2.
Proof.
  revert B pending other. induction ops as [|op ops IH]; intros B pending other Hb.
  - assert (B ∪ list_to_set [] = B) as -> by set_solver. done.
  - rewrite match_members_cons.
    assert (B ∪ list_to_set (op :: ops) = (B ∪ {[op]}) ∪ list_to_set ops) as ->
      by set_solver.
    apply IH. by apply match_step_balanced.
Qed.

Lemma balanced_sym F B uf ub : balanced F B uf ub → balanced B F ub uf.
Proof. unfold balanced. naive_solver. Qed.

(** What a successful inner loop did: it moved a prefix of the queue to
    the used items and emptied its pending set. *)
Lemma drain_ok q pending other used q' pending' other' used' :
  drain q pending other used = Ok (q', pending', other', used') →
  pending' = ∅ ∧ ∃ popped, q = popped ++ q' ∧ used' = used ++ popped ∧
    (pending ≠ ∅ → popped ≠ []) ∧
    ∀ A, balanced A (ops_of used) pending other →
         balanced A (ops_of used') pending' other'.
Proof.
  revert pending other used. induction q as [|it q IH]; intros pending other used; simpl.
  - destruct (decide (pending = ∅)); [|done].
    intros ?; simplify_eq. split; [done|]. exists [].
      split_and!; [done|by rewrite app_nil_r|done|done].
  - destruct (decide (pending = ∅)).
    + intros ?; simplify_eq. split; [done|]. exists [].
      split_and!; [done|by rewrite app_nil_r|done|done].
    + intros Hd. apply IH in Hd as (-> & popped & -> & -> & _ & Hbal).
      split; [done|]. exists (it :: popped). split_and!; [done| |done|].
      * by rewrite <-app_assoc.
      * intros A HA. apply Hbal. rewrite ops_of_app, ops_of_singleton.
        by apply match_members_balanced.
Qed.

Lemma close_unit_ok fuel qf qb uf ub usedf usedb qf' qb' usedf' usedb' :
  close_unit fuel qf qb uf ub usedf usedb = Some (Ok (qf', qb', usedf', usedb')) →
  ∃ pf pb, qf = pf ++ qf' ∧ qb = pb ++ qb' ∧
    usedf' = usedf ++ pf ∧ usedb' = usedb ++ pb ∧
    (balanced (ops_of usedf) (ops_of usedb) uf ub → ops_of usedf' = ops_of usedb').
Proof.
  revert qf qb uf ub usedf usedb.
  induction fuel as [|fuel IH]; intros qf qb uf ub usedf usedb; simpl;
    (destruct (decide (uf = ∅ ∧ ub = ∅)) as [[-> ->]|Hne];
     [ intros ?; simplify_eq; exists [], []; rewrite !app_nil_r;
       split_and!; try done; unfold balanced; set_solver | ]);
    [done|].
  unfold match_backwards, match_forwards.
  destruct (drain qb uf ub usedb) as [[[[qb1 uf1] ub1] usedb1]|] eqn:E1; [|done].
  destruct (drain qf ub1 uf1 usedf) as [[[[qf1 ub2] uf2] usedf1]|] eqn:E2; [|done].
  intros Hrec.
  apply drain_ok in E1 as (-> & pb1 & -> & -> & _ & Hb1).
  apply drain_ok in E2 as (-> & pf1 & -> & -> & _ & Hb2).
  apply IH in Hrec as (pf & pb & -> & -> & -> & -> & Hbal).
  exists (pf1 ++ pf), (pb1 ++ pb). rewrite <-!app_assoc. split_and!; try done.
  intros Hb. rewrite !app_assoc.
  apply Hbal, balanced_sym, Hb2, balanced_sym, Hb1, Hb.
Qed.

Lemma initial_balanced it :
  balanced (ops_of [it]) (ops_of []) (list_to_set (members it)) ∅.
Proof. rewrite ops_of_singleton, ops_of_nil. unfold balanced. set_solver. Qed.

(** What a successful run returns: the units appended to the
    accumulator split both input lists into consecutive groups, and each
    of them spans the same operations forward and backward. *)
Lemma split_loop_ok fuel qf qb acc units :
  split_loop fuel qf qb acc = Some (Ok units) →
  ∃ new, units = acc ++ new ∧
    concat (fwds <$> new) = qf ∧ concat (bwds <$> new) = qb ∧
    Forall (λ u, unit_fwd_ops u = unit_bwd_ops u) new.
Proof.
  revert qf qb acc. induction fuel as [|fuel IH]; intros qf qb acc.
  - destruct qf, qb; simpl; try done.
    intros ?; simplify_eq. exists []. by rewrite app_nil_r.
  - destruct qf as [|fwd qf].
    { destruct qb; simpl; [|done].
      intros ?; simplify_eq. exists []. by rewrite app_nil_r. }
    assert (split_loop (S fuel) (fwd :: qf) qb acc =
            match close_unit (S (length qf + length qb)) qf qb
                    (list_to_set (members fwd)) ∅ [fwd] [] with
            | None => None
            | Some (Raise e) => Some (Raise e)
            | Some (Ok (fwds'', bwds'', used_f, used_b)) =>
                split_loop fuel fwds'' bwds''
                  (acc ++ [{| fwds := used_f; bwds := used_b |}])
            end) as -> by (by destruct qb).
    destruct (close_unit _ _ _ _ _ _ _) as [[[[[qf' qb'] usedf] usedb]|]|] eqn:E; [|done..].
    intros Hrec. apply IH in Hrec as (new & -> & <- & <- & Hall).
    apply close_unit_ok in E as (pf & pb & -> & -> & -> & -> & Hbal).
    exists ({| fwds := [fwd] ++ pf; bwds := [] ++ pb |} :: new).
    split_and!.
    + by rewrite <-app_assoc.
    + done.
    + done.
    + constructor; [|done]. apply Hbal, initial_balanced.
Qed.

(** *** The iteration budget is never exhausted *)

Lemma drain_length q pending other used q' pending' other' used' :
  drain q pending other used = Ok (q', pending', other', used') →
  length q' ≤ length q ∧ (pending ≠ ∅ → length q' < length q).
Proof.
  intros (_ & popped & -> & _ & Hne & _)%drain_ok. rewrite length_app. split; [lia|].
  intros Hp. specialize (Hne Hp). destruct popped; [done|simpl; lia].
Qed.

Lemma close_unit_fuel fuel qf qb uf ub usedf usedb :
  length qf + length qb < fuel →
  close_unit fuel qf qb uf ub usedf usedb ≠ None.
Proof.
  revert qf qb uf ub usedf usedb.
  induction fuel as [|fuel IH]; intros qf qb uf ub usedf usedb Hfuel; [lia|].
  simpl. destruct (decide (uf = ∅ ∧ ub = ∅)) as [|Hne]; [done|].
  unfold match_backwards, match_forwards.
  destruct (drain qb uf ub usedb) as [[[[qb1 uf1] ub1] usedb1]|] eqn:E1; [|done].
  destruct (drain qf ub1 uf1 usedf) as [[[[qf1 ub2] uf2] usedf1]|] eqn:E2; [|done].
  apply IH.
  pose proof (drain_length _ _ _ _ _ _ _ _ E1) as [Hle1 Hlt1].
  pose proof (drain_length _ _ _ _ _ _ _ _ E2) as [Hle2 Hlt2].
  destruct (decide (uf = ∅)) as [->|Huf].
  - assert (ub1 = ub) as ->.
    { destruct qb; simpl in E1; (destruct (decide (∅ = ∅)); [|done]); by simplify_eq. }
    assert (ub ≠ ∅) by naive_solver. specialize (Hlt2 ltac:(done)). lia.
  - specialize (Hlt1 Huf). lia.
Qed.

Lemma split_loop_fuel fuel qf qb acc :
  length qf < fuel → split_loop fuel qf qb acc ≠ None.
Proof.
  revert qf qb acc. induction fuel as [|fuel IH]; intros qf qb acc Hfuel; [lia|].
  destruct qf as [|fwd qf]; [by destruct qb|].
  assert (split_loop (S fuel) (fwd :: qf) qb acc =
          match close_unit (S (length qf + length qb)) qf qb
                  (list_to_set (members fwd)) ∅ [fwd] [] with
          | None => None
          | Some (Raise e) => Some (Raise e)
          | Some (Ok (fwds'', bwds'', used_f, used_b)) =>
              split_loop fuel fwds'' bwds''
                (acc ++ [{| fwds := used_f; bwds := used_b |}])
          end) as -> by (by destruct qb).
  destruct (close_unit _ _ _ _ _ _ _) as [[[[[qf' qb'] usedf] usedb]|]|] eqn:E.
  - apply IH. apply close_unit_ok in E as (pf & pb & -> & _).
    simpl in Hfuel. rewrite length_app in Hfuel. lia.
  - done.
  - exfalso. revert E. apply close_unit_fuel. lia.
Qed.

(** The two nested loops always come to an end: the model never runs out
    of its iteration budget. *)
Lemma split_terminates (fwds bwds : list (Item O)) :
  is_Some (split_into_self_contained fwds bwds).
Proof.
  unfold split_into_self_contained.
  destruct (split_loop _ _ _ _) eqn:E; [by eexists|].
  exfalso. revert E. apply split_loop_fuel. lia.
Qed.

(** *** Matching lists are consumed without a failing pop *)

Lemma in_step_sym qf qb uf ub : in_step qf qb uf ub → in_step qb qf ub uf.
Proof. unfold in_step. intros (?&?&?&?&?&?). split_and!; done. Qed.

(** Set goals over the pending sets are settled one element at a time. *)
Ltac at_point x :=
  repeat match goal with
         | H : _ ## _ |- _ => apply elem_of_disjoint in H; specialize (H x)
         | H : ?X = ?Y :> gset _ |- _ =>
             let H' := fresh in
             pose proof (proj1 (set_eq X Y) H x) as H'; clear H
         end.

Ltac pointwise op :=
  let x := fresh "x" in
  first [ apply elem_of_disjoint; intros x | apply set_eq; intros x ];
  at_point x; destruct (decide (x = op)) as [->|]; set_unfold; naive_solver.

Lemma match_members_in_step ops (R Rf : gset O) uf ub :
  NoDup ops → list_to_set ops ## R →
  uf ## ub → uf ## Rf → ub ## list_to_set ops ∪ R →
  uf ∪ Rf = ub ∪ (list_to_set ops ∪ R) →
  (match_members ops uf ub).1 ## (match_members ops uf ub).2 ∧
  (match_members ops uf ub).1 ## Rf ∧
  (match_members ops uf ub).2 ## R ∧
  (match_members ops uf ub).1 ∪ Rf = (match_members ops uf ub).2 ∪ R.
Proof.
  revert uf ub. induction ops as [|op ops IH]; intros uf ub Hnd Hdis H1 H2 H3 H4.
  - simpl in *. split_and!; [done|done|clear H4; set_solver|].
    rewrite H4. clear. set_solver.
  - rewrite match_members_cons. apply NoDup_cons in Hnd as [Hop Hnd].
    assert (op ∉ R) by (clear H4; set_solver).
    assert (op ∉ (list_to_set ops : gset O)) by (clear -Hop; set_solver).
    unfold match_step; simpl.
    destruct (decide (op ∈ uf)) as [Hin|Hout]; simpl.
    + assert (op ∉ Rf) by (clear H4; set_solver).
      assert (op ∉ ub) by (clear H4; set_solver).
      apply IH; clear IH; [done|pointwise op..].
    + apply IH; clear IH; [done|pointwise op..].
Qed.

Lemma drain_in_step q qa pending other used :
  in_step qa q pending other →
  match drain q pending other used with
  | Ok (q', pending', other', _) => pending' = ∅ ∧ in_step qa q' ∅ other'
  | Raise _ => False
  end.
Proof.
  revert pending other used.
  induction q as [|it q IH]; intros pending other used (Ha & Hq & H1 & H2 & H3 & H4);
    simpl; (destruct (decide (pending = ∅)) as [->|Hne];
            [by split; [|split_and!]|]).
  - rewrite ops_of_nil in *. apply Hne. set_solver.
  - rewrite ops_of_cons in *. rewrite flat_cons in Hq.
    apply NoDup_app in Hq as (Hm & Hdis & Hq).
    destruct (match_members_in_step (members it) (ops_of q) (ops_of qa) pending other)
      as (?&?&?&?); try done.
    { unfold ops_of. set_solver. }
    apply IH. split_and!; done.
Qed.

Lemma close_unit_in_step fuel qf qb uf ub usedf usedb :
  in_step qf qb uf ub →
  match close_unit fuel qf qb uf ub usedf usedb with
  | Some (Ok (qf', qb', _, _)) => in_step qf' qb' ∅ ∅
  | Some (Raise _) => False
  | None => True
  end.
Proof.
  revert qf qb uf ub usedf usedb.
  induction fuel as [|fuel IH]; intros qf qb uf ub usedf usedb Hin; simpl;
    (destruct (decide (uf = ∅ ∧ ub = ∅)) as [[-> ->]|Hne]; [done|]); [done|].
  unfold match_backwards, match_forwards.
  pose proof (drain_in_step qb qf uf ub usedb Hin) as H1.
  destruct (drain qb uf ub usedb) as [[[[qb1 uf1] ub1] usedb1]|]; [|done].
  destruct H1 as [-> H1]. apply in_step_sym in H1.
  pose proof (drain_in_step qf qb1 ub1 ∅ usedf H1) as H2.
  destruct (drain qf ub1 ∅ usedf) as [[[[qf1 ub2] uf2] usedf1]|]; [|done].
  destruct H2 as [-> H2]. apply in_step_sym in H2. by apply IH.
Qed.

Lemma matching_lists_start fwd qf qb :
  matching_lists (fwd :: qf) qb → in_step qf qb (list_to_set (members fwd)) ∅.
Proof.
  intros (Hf & Hb & Heq & _). rewrite flat_cons in Hf. rewrite ops_of_cons in Heq.
  apply NoDup_app in Hf as (_ & Hdis & Hf).
  split_and!; [done|done|set_solver| |set_solver|].
  - unfold ops_of. set_solver.
  - rewrite Heq. set_solver.
Qed.

Lemma matching_lists_rest qf qb pf pb :
  Forall (λ it, members it ≠ []) ((pf ++ qf) ++ (pb ++ qb)) →
  in_step qf qb ∅ ∅ → matching_lists qf qb.
Proof.
  intros Hall (Hf & Hb & _ & _ & _ & Heq).
  split_and!; [done|done|set_solver|].
  apply Forall_app in Hall as [[_ ?]%Forall_app [_ ?]%Forall_app].
  by apply Forall_app.
Qed.

Lemma split_loop_matching fuel qf qb acc :
  matching_lists qf qb →
  match split_loop fuel qf qb acc with
  | Some (Raise _) => False
  | _ => True
  end.
Proof.
  revert qf qb acc. induction fuel as [|fuel IH]; intros qf qb acc Hm.
  { by destruct qf, qb. }
  destruct qf as [|fwd qf].
  { destruct qb as [|bwd qb]; [done|]. exfalso.
    destruct Hm as (_ & _ & Heq & Hne). rewrite ops_of_nil, ops_of_cons in Heq.
    apply Forall_cons in Hne as [Hne _].
    destruct (members bwd) as [|op ops]; [done|]. set_solver. }
  assert (split_loop (S fuel) (fwd :: qf) qb acc =
          match close_unit (S (length qf + length qb)) qf qb
                  (list_to_set (members fwd)) ∅ [fwd] [] with
          | None => None
          | Some (Raise e) => Some (Raise e)
          | Some (Ok (fwds'', bwds'', used_f, used_b)) =>
              split_loop fuel fwds'' bwds''
                (acc ++ [{| fwds := used_f; bwds := used_b |}])
          end) as -> by (by destruct qb).
  pose proof (close_unit_in_step (S (length qf + length qb)) qf qb
                (list_to_set (members fwd)) ∅ [fwd] [] (matching_lists_start _ _ _ Hm)) as Hc.
  destruct (close_unit _ _ _ _ _ _ _) as [[[[[qf' qb'] usedf] usedb]|]|] eqn:E; [|done..].
  apply IH. apply close_unit_ok in E as (pf & pb & -> & -> & _).
  apply (matching_lists_rest _ _ pf pb); [|done].
  destruct Hm as (_ & _ & _ & Hall). by apply Forall_cons in Hall as [_ ?].
Qed.

(** *** Units do not share operations *)

Lemma flat_concat (ls : list (list (Item O))) : flat (concat ls) = concat (flat <$> ls).
Proof. induction ls as [|l ls IH]; [done|]. simpl. by rewrite flat_app, IH. Qed.

Lemma NoDup_concat_disjoint (ls : list (list O)) i j a b x :
  NoDup (concat ls) → ls !! i = Some a → ls !! j = Some b → i ≠ j →
  x ∈ a → x ∈ b → False.
Proof.
  assert (∀ (ls : list (list O)) k c, ls !! k = Some c → x ∈ c → x ∈ concat ls) as Hmem.
  { intros ls' k c Hk Hx. apply list_elem_of_In, in_concat. exists c.
    split; [|by apply list_elem_of_In].
    apply list_elem_of_In. by eapply list_elem_of_lookup_2. }
  revert i j. induction ls as [|l ls IH]; intros i j Hnd Hi Hj Hne Ha Hb; [done|].
  simpl in Hnd. apply NoDup_app in Hnd as (_ & Hdis & Hnd).
  destruct i as [|i], j as [|j]; simplify_eq/=.
  - eapply Hdis; [done|]. by eapply Hmem.
  - eapply Hdis; [done|]. by eapply Hmem.
  - eapply (IH i j); eauto.
Qed.

Lemma units_disjoint (fwds0 : list (Item O)) units :
  NoDup (flat fwds0) → concat (fwds <$> units) = fwds0 →
  Forall (λ u, unit_fwd_ops u = unit_bwd_ops u) units →
  pairwise_disjoint units.
Proof.
  intros Hnd <- Hall i j u v Hi Hj Hne.
  rewrite flat_concat in Hnd.
  assert (unit_ops u = unit_fwd_ops u) as ->.
  { unfold unit_ops. rewrite <-(proj1 (Forall_lookup _ _) Hall i u Hi). set_solver. }
  assert (unit_ops v = unit_fwd_ops v) as ->.
  { unfold unit_ops. rewrite <-(proj1 (Forall_lookup _ _) Hall j v Hj). set_solver. }
  apply elem_of_disjoint. intros x Hx Hy.
  unfold unit_fwd_ops, ops_of in Hx, Hy. rewrite elem_of_list_to_set in Hx, Hy.
  eapply (NoDup_concat_disjoint (flat <$> (fwds <$> units)) i j
            (flat (fwds u)) (flat (fwds v)) x); try done.
  - by rewrite !list_lookup_fmap, Hi.
  - by rewrite !list_lookup_fmap, Hj.
Qed.

(** C1, as the code has it. Whenever [split_into_self_contained]
    returns units: the forward group and the backward group of every
    unit decompose to the same set of elementary operations, and the
    forward (respectively backward) groups of the units, concatenated in
    output order, are the input forward (respectively backward) list, so
    that every input item lies in exactly one unit, at its place. When
    moreover no elementary operation occurs twice on the forward side, no
    operation belongs to two different units. *)
Theorem split_units_self_contained (fwds0 bwds0 : list (Item O)) units :
  split_into_self_contained fwds0 bwds0 = Some (Ok units) →
  Forall (λ u, unit_fwd_ops u = unit_bwd_ops u) units ∧
  concat (fwds <$> units) = fwds0 ∧
  concat (bwds <$> units) = bwds0 ∧
  (NoDup (flat fwds0) → pairwise_disjoint units).
Proof.
  intros Hs. apply split_loop_ok in Hs as (new & -> & Hf & Hb & Hall).
  simpl. split_and!; try done. intros Hnd. by eapply units_disjoint.
Qed.

(** C10, as the code has it. On lists that group the same elementary
    operations, each operation occurring once per side and no fused group
    being empty, the function is total: the loops end and no pop meets an
    empty queue, so a list of units is returned. Without the precondition
    a pop can fail: a forward item with no backward counterpart raises
    [IndexError]. *)
Theorem split_total_on_matching_lists (fwds0 bwds0 : list (Item O)) (o : O) :
  matching_lists fwds0 bwds0 →
  (∃ units, split_into_self_contained fwds0 bwds0 = Some (Ok units)) ∧
  split_into_self_contained [Plain o] [] = Some (Raise IndexError).
Proof.
  intros Hm. split.
  - destruct (split_terminates fwds0 bwds0) as [[units|e] Hr]; [by exists units|].
    pose proof (split_loop_matching (S (length fwds0)) fwds0 bwds0 [] Hm) as Hno.
    unfold split_into_self_contained in Hr. by rewrite Hr in Hno.
  - unfold split_into_self_contained. simpl.
    destruct (decide (({[o]} ∪ ∅ : gset O) = ∅ ∧ (∅ : gset O) = ∅)) as [[He _]|_]; [set_solver|].
    unfold match_backwards. simpl.
    destruct (decide (({[o]} ∪ ∅ : gset O) = ∅)) as [He|_]; [set_solver|done].
Qed.

End proofs.

Import Samples.

Example split_example :
  split_into_self_contained
    [Plain 1; Fused [2; 3]; Plain 4] [Fused [1; 2]; Plain 3; Plain 4]
  = Some (Ok [ {| fwds := [Plain 1; Fused [2; 3]]; bwds := [Fused [1; 2]; Plain 3] |};
               {| fwds := [Plain 4]; bwds := [Plain 4] |} ]).
Proof. vm_compute. reflexivity. Qed.

Example split_unmatched_backward :
  split_into_self_contained [Plain 1] [Plain 1; Plain 2] = Some (Raise IndexError).
Proof. vm_compute. reflexivity. Qed.

(** An operation that occurs twice in the lists ends up in two units. *)
Lemma split_shares_repeated_op :
  ∃ units, split_into_self_contained [Plain 1; Plain 1] [Plain 1; Plain 1] = Some (Ok units) ∧
           ¬ pairwise_disjoint units.
Proof.
  exists [ {| fwds := [Plain 1]; bwds := [Plain 1] |};
           {| fwds := [Plain 1]; bwds := [Plain 1] |} ].
  split; [vm_compute; reflexivity|].
  intros Hd. apply (Hd 0 1 _ _ eq_refl eq_refl ltac:(lia) 1); vm_compute; set_solver.
Qed.

(** Lists that span the same set of operations, every operation being
    present on both sides, on which a pop meets an empty queue: an
    operation repeated on one side only, and an empty fused group. *)
Lemma split_fails_on_equal_sets :
  (ops_of [Plain 1; Plain 1] = ops_of [Plain 1] ∧
   split_into_self_contained [Plain 1; Plain 1] [Plain 1] = Some (Raise IndexError)) ∧
  (ops_of ([] : list (Item nat)) = ops_of [Fused []] ∧
   split_into_self_contained [] [Fused ([] : list nat)] = Some (Raise IndexError)).
Proof.
  split_and!.
  - apply (bool_decide_unpack _). vm_compute. reflexivity.
  - vm_compute. reflexivity.
  - apply (bool_decide_unpack _). vm_compute. reflexivity.
  - vm_compute. reflexivity.
Qed.

Lemma split_units_self_contained_witness :
  Forall (λ u, unit_fwd_ops u = unit_bwd_ops u) sample_units ∧
  concat (fwds <$> sample_units) = [Plain 1; Fused [2; 3]; Plain 4] ∧
  concat (bwds <$> sample_units) = [Fused [1; 2]; Plain 3; Plain 4] ∧
  pairwise_disjoint sample_units.
Proof.
  destruct (split_units_self_contained
              [Plain 1; Fused [2; 3]; Plain 4] [Fused [1; 2]; Plain 3; Plain 4] sample_units)
    as (Hsets & Hf & Hb & Hdis).
  { vm_compute. reflexivity. }
  split_and!; [exact Hsets|exact Hf|exact Hb|].
  apply Hdis. apply (bool_decide_unpack _). vm_compute. reflexivity.
Defined.

Lemma split_total_on_matching_lists_witness :
  (∃ units, split_into_self_contained
              [Plain 1; Fused [2; 3]; Plain 4] [Fused [1; 2]; Plain 3; Plain 4]
            = Some (Ok units)) ∧
  split_into_self_contained [Plain 0] [] = Some (Raise IndexError).
Proof.
  apply (split_total_on_matching_lists
           [Plain 1; Fused [2; 3]; Plain 4] [Fused [1; 2]; Plain 3; Plain 4] 0).
  unfold matching_lists. split_and!.
  - apply (bool_decide_unpack _). vm_compute. reflexivity.
  - apply (bool_decide_unpack _). vm_compute. reflexivity.
  - apply (bool_decide_unpack _). vm_compute. reflexivity.
  - apply (bool_decide_unpack _). vm_compute. reflexivity.
Defined.

End PartitionProofs.

(** ** Names and contexts of a self-contained unit *)

Module UnitProofs.
Import Partition Pipeline Unit.

(** *** Strings *)

Lemma app_nil_string (s : string) : "" +:+ s = s.
Proof. reflexivity. Qed.

Lemma app_cons_string (c : Ascii.ascii) (s1 s2 : string) :
  String c s1 +:+ s2 = String c (s1 +:+ s2).
Proof. reflexivity. Qed.

Lemma app_assoc_string (s1 s2 s3 : string) : (s1 +:+ s2) +:+ s3 = s1 +:+ (s2 +:+ s3).
Proof.
  induction s1 as [|c s1 IH]; [done|].
  rewrite !app_cons_string. by f_equal.
Qed.

Lemma startswith_app (p k : string) : startswith (p +:+ k) p = true.
Proof.
  unfold startswith. induction p as [|c p IH]; [by destruct k|].
  rewrite app_cons_string. simpl. by destruct (Ascii.ascii_dec c c).
Qed.

Lemma slice_from_app (p k : string) : slice_from (String.length p) (p +:+ k) = k.
Proof.
  induction p as [|c p IH]; [by destruct k|].
  rewrite app_cons_string. done.
Qed.

Lemma startswith_split (s p : string) :
  startswith s p = true → s = p +:+ slice_from (String.length p) s.
Proof.
  unfold startswith. revert s. induction p as [|c p IH]; intros s.
  - by destruct s.
  - destruct s as [|d s]; [done|]. simpl.
    destruct (Ascii.ascii_dec c d) as [->|]; [|done].
    intros Hp. rewrite app_cons_string. by rewrite <-(IH s Hp).
Qed.

(** The decimal rendering of an index has only digits. *)
Lemma all_digits_pretty_N_go (x : N) (s : string) :
  all_digits s = true → all_digits (pretty_N_go x s) = true.
Proof.
  revert s. induction (N.lt_wf_0 x) as [x _ IH]; intros s Hs.
  assert (x = 0 ∨ 0 < x)%N as [->|?] by lia.
  - by rewrite pretty_N_go_0.
  - rewrite pretty_N_go_step by done. apply IH.
    { by apply N.div_lt. }
    simpl. rewrite Hs. unfold pretty_N_char. by repeat case_match.
Qed.

Lemma all_digits_pretty (i : nat) : all_digits (pretty i) = true.
Proof.
  unfold pretty, pretty_nat, pretty, pretty_N.
  destruct (decide (N.of_nat i = 0%N)); [done|].
  by apply all_digits_pretty_N_go.
Qed.

(** Two renderings followed by an opening parenthesis agree as soon as
    one string begins with both. *)
Lemma digits_paren_inj (d1 d2 r1 r2 : string) :
  all_digits d1 = true → all_digits d2 = true →
  d1 +:+ "(" +:+ r1 = d2 +:+ "(" +:+ r2 → d1 = d2.
Proof.
  rewrite !(app_cons_string _ ""), !app_nil_string.
  revert d2. induction d1 as [|c d1 IH]; intros [|c' d2];
    rewrite ?app_nil_string, ?app_cons_string; simpl; try done.
  - intros _ [Hc _]%andb_prop [= <- _]. done.
  - intros [Hc _]%andb_prop _ [= -> _]. done.
  - intros [_ H1]%andb_prop [_ H2]%andb_prop [= -> Heq]. f_equal. by eapply IH.
Qed.

Lemma op_name_at_apart (i j : nat) (c1 c2 k1 k2 : string) :
  op_name_at i c1 +:+ k1 = op_name_at j c2 +:+ k2 → i = j.
Proof.
  unfold op_name_at. rewrite !app_assoc_string. intros Heq.
  apply digits_paren_inj in Heq; auto using all_digits_pretty.
  by apply (inj pretty).
Qed.

Lemma name_ops_lookup (ops0 : list Op) (i : nat) (o : Op) :
  name_ops ops0 !! i = Some o → name o = op_name_at i (class_name o).
Proof.
  unfold name_ops. rewrite list_lookup_imap.
  destruct (ops0 !! i); simpl; [|done]. by intros [= <-].
Qed.

(** Two different named operations never share a key once prefixed. *)
Lemma named_keys_apart (ops0 : list Op) (o1 o2 : Op) (k1 k2 : string) :
  o1 ∈ name_ops ops0 → o2 ∈ name_ops ops0 →
  name o1 +:+ k1 = name o2 +:+ k2 → o1 = o2.
Proof.
  intros [i Hi]%list_elem_of_lookup_1 [j Hj]%list_elem_of_lookup_1 Heq.
  rewrite (name_ops_lookup _ _ _ Hi), (name_ops_lookup _ _ _ Hj) in Heq.
  apply op_name_at_apart in Heq as ->. congruence.
Qed.

(** *** Contexts *)

Section contexts.
Context {T : Type}.
Variable op_forward : Item Op → T → T * gmap string T.
Implicit Types (ctx acc : gmap string T) (ops : list (Item Op)) (u : SelfContainedOp Op).

Lemma prefix_ctx_lookup (op_name key : string) ctx :
  prefix_ctx op_name ctx !! (op_name +:+ key) = ctx !! key.
Proof. unfold prefix_ctx. apply (lookup_kmap (String.app op_name)). Qed.

(** Stripping reads the entries stored under the prefixed keys. *)
Lemma strip_ctx_lookup (op_name key : string) ctx :
  strip_ctx op_name ctx !! key = ctx !! (op_name +:+ key).
Proof.
  unfold strip_ctx.
  set (g := λ kv : string * T,
              if startswith kv.1 op_name
              then Some (slice_from (String.length op_name) kv.1, kv.2) else None).
  assert (∀ v, (key, v) ∈ omap g (map_to_list ctx) ↔ ctx !! (op_name +:+ key) = Some v)
    as Hmem.
  { intros v. rewrite list_elem_of_omap. split.
    - intros ([k w] & Hin & Hg). apply elem_of_map_to_list in Hin.
      unfold g in Hg. simpl in Hg.
      destruct (startswith k op_name) eqn:Hp; [|done].
      apply startswith_split in Hp. simplify_eq. by rewrite <-Hp.
    - intros Hl. exists (op_name +:+ key, v). split; [by apply elem_of_map_to_list|].
      unfold g. simpl. by rewrite startswith_app, slice_from_app. }
  destruct (list_to_map (omap g (map_to_list ctx)) !! key) as [v|] eqn:E.
  - apply elem_of_list_to_map_2, Hmem in E. by rewrite E.
  - apply not_elem_of_list_to_map in E.
    destruct (ctx !! (op_name +:+ key)) as [v|] eqn:E'; [|done].
    exfalso. apply E. apply list_elem_of_fmap. exists (key, v). split; [done|].
    by apply Hmem.
Qed.

Lemma forward_nil (x : T) acc : foldl (forward_step op_forward) (x, acc) [] = (x, acc).
Proof. done. Qed.

(** A key that no member exports keeps the value it had. *)
Lemma forward_key_absent ops (x : T) acc (key : string) :
  (∀ j op ctx, ops !! j = Some op → saved_ctxs op_forward ops x !! j = Some ctx →
               exported_ctx op ctx !! key = None) →
  (foldl (forward_step op_forward) (x, acc) ops).2 !! key = acc !! key.
Proof.
  revert x acc. induction ops as [|op ops IH]; intros x acc Hno; [done|].
  simpl. unfold forward_step at 2. simpl. rewrite IH.
  - apply lookup_union_r. by apply (Hno 0 op).
  - intros j op' ctx Hj Hs. by apply (Hno (S j) op').
Qed.

(** A key that a single member exports has the value of that member. *)
Lemma forward_key_single ops (x : T) acc (key : string) i op ctx :
  ops !! i = Some op → saved_ctxs op_forward ops x !! i = Some ctx →
  (∀ j op' ctx', j ≠ i → ops !! j = Some op' →
                 saved_ctxs op_forward ops x !! j = Some ctx' →
                 exported_ctx op' ctx' !! key = None) →
  (foldl (forward_step op_forward) (x, acc) ops).2 !! key
  = (exported_ctx op ctx ∪ acc) !! key.
Proof.
  revert x acc i. induction ops as [|op0 ops IH]; intros x acc i Hi Hs Hno; [done|].
  simpl. unfold forward_step at 2. simpl. destruct i as [|i]; simplify_eq/=.
  - rewrite forward_key_absent; [done|].
    intros j op' ctx' Hj Hs'. by apply (Hno (S j) op').
  - rewrite (IH _ _ i); [|done|done|].
    + rewrite !lookup_union. rewrite (Hno 0 op0 _ ltac:(done) eq_refl eq_refl).
      by rewrite (left_id_L None _).
    + intros j op' ctx' Hne Hj Hs'. apply (Hno (S j) op'); [lia|done|done].
Qed.

(** In a unit whose non-fused forward members carry the distinct
    index-prefixed names written by [name_ops], the unit context holds
    the pairs that a non-fused member saved under keys prefixed with its
    name, and the first loop of [backward] builds for it the context it
    saved. *)
Lemma context_keys_and_ctxs u (x : T) (i j : nat) (o : Op) ctx :
  named_members (fwds u) →
  fused_keys_apart op_forward (fwds u) x (name o) →
  fwds u !! i = Some (Plain o) →
  saved_ctxs op_forward (fwds u) x !! i = Some ctx →
  bwds u !! j = Some (Plain o) →
  (∀ key, (forward op_forward u x).2 !! (name o +:+ key) = ctx !! key) ∧
  backward_ctxs u (forward op_forward u x).2 !! j = Some ctx.
Proof.
  intros [Hnd [ops0 Hnamed]] Hfused Hi Hs Hj.
  assert (∀ key, (forward op_forward u x).2 !! (name o +:+ key) = ctx !! key) as Hkeys.
  { intros key. unfold forward.
    rewrite (forward_key_single _ _ _ _ i (Plain o) ctx Hi Hs).
    - rewrite lookup_union_l by done. apply prefix_ctx_lookup.
    - intros j' [o'|fused] ctx' Hne Hj' Hs'; simpl.
      + apply lookup_kmap_None; [apply _|]. intros key' Heq.
        exfalso. apply Hne.
        assert (o = o') as <-.
        { eapply named_keys_apart; [| |exact Heq];
            apply Hnamed; by eapply list_elem_of_lookup_2. }
        by eapply NoDup_lookup.
      + destruct (ctx' !! (name o +:+ key)) as [v|] eqn:E; [|done].
        specialize (Hfused j' fused ctx' (name o +:+ key) Hj' Hs' ltac:(by eexists)).
        by rewrite startswith_app in Hfused. }
  split; [done|].
  unfold backward_ctxs. rewrite list_lookup_fmap, Hj. simpl. f_equal.
  apply map_eq. intros key. by rewrite strip_ctx_lookup.
Qed.

End contexts.

(** *** Order of the backward calls *)

Section order.
Context {T : Type}.
Variable op_backward : Item Op → gmap string T → T → T * list T.
Implicit Types (ctx : gmap string T).

Lemma backward_step_acc (l : list (Item Op * gmap string T)) (dy : T) (grads : list T) :
  foldl (backward_step op_backward) (dy, grads) l
  = ((foldl (backward_step op_backward) (dy, []) l).1,
     grads ++ (foldl (backward_step op_backward) (dy, []) l).2).
Proof.
  revert dy grads. induction l as [|p l IH]; intros dy grads; simpl.
  - by rewrite app_nil_r.
  - unfold backward_step at 2 4 6. simpl.
    rewrite (IH _ (grads ++ _)), (IH _ (op_backward _ _ _).2).
    simpl. by rewrite app_assoc.
Qed.

Lemma backward_snoc (fs bs : list (Item Op)) (b : Item Op) ctx (dy : T) :
  backward op_backward {| fwds := fs; bwds := bs ++ [b] |} ctx dy
  = let r := op_backward b (backward_ctx ctx b) dy in
    let rest := backward op_backward {| fwds := fs; bwds := bs |} ctx r.1 in
    (rest.1, r.2 ++ rest.2).
Proof.
  unfold backward, backward_ctxs. simpl.
  rewrite fmap_app. simpl.
  rewrite zip_with_app by (by rewrite length_fmap).
  simpl. rewrite reverse_snoc. simpl.
  unfold backward_step at 2. simpl. apply backward_step_acc.
Qed.

(** The call of one member within [backward]: the members collected
    after it are called first, then the member itself, on its own
    context and on the gradient they returned, then the members
    collected before it. *)
Lemma backward_split (fs bs1 bs2 : list (Item Op)) (b : Item Op) ctx (dy : T) :
  backward op_backward {| fwds := fs; bwds := bs1 ++ b :: bs2 |} ctx dy
  = let after := backward op_backward {| fwds := fs; bwds := bs2 |} ctx dy in
    let r := op_backward b (backward_ctx ctx b) after.1 in
    let rest := backward op_backward {| fwds := fs; bwds := bs1 |} ctx r.1 in
    (rest.1, after.2 ++ r.2 ++ rest.2).
Proof.
  revert dy. induction bs2 as [|c bs2 IH] using rev_ind; intros dy.
  - by rewrite backward_snoc.
  - assert (bs1 ++ b :: bs2 ++ [c] = (bs1 ++ b :: bs2) ++ [c]) as ->
      by (by rewrite <-app_assoc).
    rewrite backward_snoc, (backward_snoc fs bs2 c). cbv zeta. rewrite IH.
    cbv zeta. cbn [fst snd]. by rewrite !app_assoc.
Qed.

(** C8. The units returned by the partitioner follow the forward list:
    their forward groups, concatenated in output order, are the input
    forward list. [SelfContainedOp.backward] consumes the backward items
    of a unit from the last collected one to the first: the item
    collected last receives the incoming gradient, its output gradient is
    handed to the items collected before it, and the parameter gradients
    accumulate in that order of calls. *)
Theorem units_forward_order_backward_reversed
    (fwds0 bwds0 : list (Item Op)) (units : list (SelfContainedOp Op))
    (fs bs : list (Item Op)) (b : Item Op) ctx (dy : T) :
  split_into_self_contained fwds0 bwds0 = Some (Ok units) →
  concat (fwds <$> units) = fwds0 ∧
  backward op_backward {| fwds := fs; bwds := [] |} ctx dy = (dy, []) ∧
  backward op_backward {| fwds := fs; bwds := bs ++ [b] |} ctx dy
  = (let r := op_backward b (backward_ctx ctx b) dy in
     let rest := backward op_backward {| fwds := fs; bwds := bs |} ctx r.1 in
     (rest.1, r.2 ++ rest.2)).
Proof.
  intros Hs. split_and!.
  - by apply PartitionProofs.split_loop_ok in Hs as (new & -> & Hf & _).
  - done.
  - apply backward_snoc.
Qed.

End order.

(** *** The context a member receives in backward *)

Section round_trip.
Context {T : Type}.
Variable op_forward : Item Op → T → T * gmap string T.
Variable op_backward : Item Op → gmap string T → T → T * list T.

(** C7. In a unit whose non-fused forward members carry the distinct
    index-prefixed names written by [name_ops], take a non-fused member
    [o] whose own forward call saved the context [ctx]. The unit context
    holds the pairs of [ctx] under keys prefixed with the name of [o], and
    [backward] hands to [o] exactly [ctx] again: once the members
    collected after [o] have been called, [backward] calls [o] on [ctx]
    and on the gradient they returned, and passes its result on to the
    members collected before it; nothing saved by another member reaches
    [o] and nothing it saved is lost. Fused members, which are not part
    of the sources, are taken not to save keys that begin with that
    name. *)
Theorem context_round_trip u (x dy : T) (i j : nat) (o : Op) ctx :
  named_members (fwds u) →
  fused_keys_apart op_forward (fwds u) x (name o) →
  fwds u !! i = Some (Plain o) →
  saved_ctxs op_forward (fwds u) x !! i = Some ctx →
  bwds u !! j = Some (Plain o) →
  (∀ key, (forward op_forward u x).2 !! (name o +:+ key) = ctx !! key) ∧
  backward_ctxs u (forward op_forward u x).2 !! j = Some ctx ∧
  backward op_backward u (forward op_forward u x).2 dy
  = (let full := (forward op_forward u x).2 in
     let after := backward op_backward
                    {| fwds := fwds u; bwds := drop (S j) (bwds u) |} full dy in
     let r := op_backward (Plain o) ctx after.1 in
     let rest := backward op_backward
                   {| fwds := fwds u; bwds := take j (bwds u) |} full r.1 in
     (rest.1, after.2 ++ r.2 ++ rest.2)).
Proof.
  intros Hnamed Hfused Hi Hs Hj.
  destruct (context_keys_and_ctxs op_forward u x i j o ctx Hnamed Hfused Hi Hs Hj)
    as [Hkeys Hctx].
  split_and!; [done|done|].
  assert (backward_ctx (forward op_forward u x).2 (Plain o) = ctx) as Hctx'.
  { unfold backward_ctxs in Hctx. rewrite list_lookup_fmap, Hj in Hctx.
    simpl in Hctx. by injection Hctx. }
  destruct u as [fs bs]. cbn [fwds bwds] in *.
  rewrite <-(take_drop_middle bs j (Plain o) Hj) at 1.
  rewrite backward_split. by rewrite Hctx'.
Qed.

End round_trip.
End UnitProofs.

(** ** Inference against the forward of training *)

Module RunsProofs.
Import Partition Pipeline Unit Runs PartitionProofs.

Section runs.
Context {T : Type}.
Variable op_inference : Item Op → T → T.
Variable op_forward : Item Op → T → T * gmap string T.
Variable get_fused_op_list : list Op → Mode → list (Item Op).

Lemma forward_value (l : list (Item Op)) (x : T) (acc : gmap string T) :
  (foldl (forward_step op_forward) (x, acc) l).1
  = foldl (λ x it, (op_forward it x).1) x l.
Proof. revert x acc. induction l as [|it l IH]; intros x acc; simpl; [done|]. apply IH. Qed.

Lemma units_forward_concat (units : list (SelfContainedOp Op)) (x : T) :
  foldl (λ x u, (Unit.forward op_forward u x).1) x units
  = foldl (λ x it, (op_forward it x).1) x (concat (fwds <$> units)).
Proof.
  revert x. induction units as [|u units IH]; intros x; [done|].
  rewrite fmap_cons. simpl. rewrite foldl_app, IH. unfold Unit.forward.
  by rewrite forward_value.
Qed.

(** A list of items whose fused members behave as their members computes
    what its elementary operations compute one after the other. *)
Lemma items_as_members (run : Item Op → T → T) (l : list (Item Op)) (x : T) :
  fused_as_members run →
  foldl (λ x it, run it x) x l = foldl (λ x o, run (Plain o) x) x (flat l).
Proof.
  intros Hfused. revert x. induction l as [|it l IH]; intros x; [done|].
  rewrite flat_cons, foldl_app. simpl. rewrite IH. f_equal.
  destruct it as [o|ms]; [done|]. apply Hfused.
Qed.

End runs.

Section gemm.
Context {V DT : Type} `{EqDecision DT}.
Variable matmul : V → V → V.
Variable transposed : V → V.

(** The two paths of a [Gemm] issue the same product: what training
    yields and what inference returns are buffers holding the product of
    the input and the weight. *)
Lemma gemm_same_product (g : GemmRun.Gemm DT) (x : nat) (σ : nat → V) :
  GemmRun.weight_t g ≠ GemmRun.weight g → GemmRun.weight_t g ≠ x →
  (GemmRun.training matmul transposed g x σ).1.2
    (GemmRun.training matmul transposed g x σ).1.1
  = matmul (σ x) (σ (GemmRun.weight g)) ∧
  (GemmRun.inference matmul g x σ).2 (GemmRun.inference matmul g x σ).1
  = matmul (σ x) (σ (GemmRun.weight g)).
Proof.
  intros Hw Hx. split.
  - unfold GemmRun.training, GemmRun.gemm, GemmRun.transpose. simpl.
    rewrite fn_lookup_insert. by rewrite !fn_lookup_insert_ne by done.
  - unfold GemmRun.inference, GemmRun.gemm.
    destruct (decide _); simpl; by rewrite fn_lookup_insert.
Qed.

End gemm.

Section equivalence.
Context {T V DT : Type} `{EqDecision DT}.
Variable op_inference : Item Op → T → T.
Variable op_forward : Item Op → T → T * gmap string T.
Variable get_fused_op_list : list Op → Mode → list (Item Op).
Variable matmul : V → V → V.
Variable transposed : V → V.

(** C9. For a pipeline built with low precision disabled,
    [run_inference] and the forward of the training path (the units run
    in order, each on the output of the one before) return the same
    primary output on the same input: both pass the input through the
    prepared elementary operations in their order. The parts that are
    not among the sources enter as the spec describes them: fusion keeps
    the operations and their order, a fused operation computes what its
    members compute one after the other, and an elementary operation
    computes in forward the output that it computes in inference. For
    [Gemm], whose body is in the sources, this last point is shown: what
    its training protocol yields and what its inference returns hold the
    same product of the input and the weight. *)
Theorem inference_matches_training_forward
    (ops : list Op) (env : Environment) (p : ComputePipeline) (x : T)
    (g : GemmRun.Gemm DT) (xb : nat) (σ : nat → V) :
  fusion_keeps_members get_fused_op_list →
  fused_as_members op_inference →
  fused_as_members (λ it x, (op_forward it x).1) →
  same_numerics op_inference op_forward →
  fp8_enabled env = false →
  init get_fused_op_list ops env = Some (Ok p) →
  GemmRun.weight_t g ≠ GemmRun.weight g → GemmRun.weight_t g ≠ xb →
  run_inference op_inference p x = run_forward op_forward p x ∧
  (∃ ops', prepare_ops ops env = Ok ops' ∧
           run_inference op_inference p x
           = foldl (λ x o, op_inference (Plain o) x) x ops') ∧
  (GemmRun.training matmul transposed g xb σ).1.2
    (GemmRun.training matmul transposed g xb σ).1.1
  = (GemmRun.inference matmul g xb σ).2 (GemmRun.inference matmul g xb σ).1.
Proof.
  intros Hkeeps Hinf Hfwd Hsame Hfp8 Hinit Hw Hx.
  unfold init in Hinit.
  destruct (prepare_ops ops env) as [ops'|e] eqn:Hprep; [|done].
  destruct (split_into_self_contained _ _) as [[fs|e]|] eqn:Hsplit; [|done..].
  injection Hinit as <-.
  apply split_loop_ok in Hsplit as (new & Hnew & Hf & _). simpl in Hnew. subst new.
  assert (run_inference op_inference
            {| Pipeline._inf := get_fused_op_list ops' Inference;
               Pipeline.functions := fs;
               Pipeline.forward := concat (fwds <$> fs);
               Pipeline.backward := concat (bwds <$> fs) |} x
          = foldl (λ x o, op_inference (Plain o) x) x ops') as Hrun.
  { unfold run_inference. simpl. by rewrite (items_as_members _ _ _ Hinf), Hkeeps. }
  split_and!.
  - rewrite Hrun. unfold run_forward. simpl.
    rewrite units_forward_concat, Hf.
    rewrite (items_as_members (λ it x, (op_forward it x).1) _ _ Hfwd), Hkeeps.
    clear -Hsame. revert x. induction ops' as [|o ops' IH]; intros x; [done|].
    simpl. by rewrite Hsame, IH.
  - by exists ops'.
  - destruct (gemm_same_product matmul transposed g xb σ Hw Hx) as [-> ->]. done.
Qed.

End equivalence.
End RunsProofs.

(** ** The precision downgrade *)

Module PipelineProofs.
Import Partition Pipeline.

Lemma downgraded_idemp (v : AttrVal) : downgraded (downgraded v) = downgraded v.
Proof. destruct v as [d|r]; [|done]. simpl. by destruct (is_fp8 d) eqn:E; simpl; rewrite ?E. Qed.

Lemma downgraded_not_fp8 (v : AttrVal) (d : DType) :
  downgraded v = DTypeVal d → is_fp8 d = false.
Proof.
  destruct v as [d'|r]; simpl; [|done].
  destruct (is_fp8 d') eqn:E; intros [= <-]; done.
Qed.

Lemma downgrade_attr_lookup (op : Op) (attr key : string) :
  attrs (downgrade_attr op attr) !! key
  = if decide (key = attr) then downgraded <$> attrs op !! key else attrs op !! key.
Proof.
  unfold downgrade_attr. destruct (decide (key = attr)) as [->|Hne].
  - destruct (attrs op !! attr) as [[d|r]|] eqn:E; simpl; rewrite ?E; try done.
    destruct (is_fp8 d); simpl; [by rewrite lookup_insert_eq|by rewrite E].
  - destruct (attrs op !! attr) as [[d|r]|] eqn:E; try done.
    destruct (is_fp8 d); simpl; [by rewrite lookup_insert_ne|done].
Qed.

Lemma downgrade_attr_fixed (op : Op) (attr : string) :
  class_name (downgrade_attr op attr) = class_name op ∧
  name (downgrade_attr op attr) = name op.
Proof.
  unfold downgrade_attr. destruct (attrs op !! attr) as [[d|r]|]; try done.
  by destruct (is_fp8 d).
Qed.

Lemma foldl_downgrade_lookup (l : list string) (op : Op) (key : string) :
  attrs (foldl downgrade_attr op l) !! key
  = if decide (key ∈ l) then downgraded <$> attrs op !! key else attrs op !! key.
Proof.
  revert op. induction l as [|attr l IH]; intros op; simpl.
  - destruct (decide (key ∈ [])) as [Hin|]; [by apply elem_of_nil in Hin|done].
  - rewrite IH, downgrade_attr_lookup.
    destruct (decide (key = attr)) as [->|Hne].
    + destruct (decide (attr ∈ attr :: l)) as [_|Hn]; [|set_solver].
      destruct (decide (attr ∈ l)); [|done].
      destruct (attrs op !! attr) as [v|]; simpl; [|done]. by rewrite downgraded_idemp.
    + destruct (decide (key ∈ l)), (decide (key ∈ attr :: l)); set_solver.
Qed.

Lemma foldl_downgrade_fixed (l : list string) (op : Op) :
  class_name (foldl downgrade_attr op l) = class_name op ∧
  name (foldl downgrade_attr op l) = name op.
Proof.
  revert op. induction l as [|attr l IH]; intros op; simpl; [done|].
  destruct (IH (downgrade_attr op attr)) as [-> ->]. apply downgrade_attr_fixed.
Qed.

(** What [force_use_bf16] does to one operation: the attributes whose
    name ends in [_dtype] are downgraded, the others are kept. *)
Lemma force_use_bf16_op_lookup (op : Op) (key : string) :
  attrs (force_use_bf16_op op) !! key
  = if endswith key "_dtype" then downgraded <$> attrs op !! key else attrs op !! key.
Proof.
  unfold force_use_bf16_op. rewrite foldl_downgrade_lookup.
  unfold dtype_attributes, dir.
  destruct (decide (key ∈ _)) as [Hin|Hout].
  - apply list_elem_of_filter in Hin as [-> _]. done.
  - destruct (endswith key "_dtype") eqn:E; [|done].
    destruct (attrs op !! key) as [v|] eqn:El; [|done].
    exfalso. apply Hout. apply list_elem_of_filter. split; [done|].
    apply list_elem_of_fmap. exists (key, v). split; [done|].
    by apply elem_of_map_to_list.
Qed.

Lemma name_ops_attrs (ops : list Op) (i : nat) (op : Op) :
  name_ops ops !! i = Some op →
  ∃ op0, ops !! i = Some op0 ∧ attrs op = attrs op0 ∧ class_name op = class_name op0.
Proof.
  unfold name_ops. rewrite list_lookup_imap.
  destruct (ops !! i) as [op0|]; simpl; [|done].
  intros [= <-]. by exists op0.
Qed.

(** C3, as the code has it. With [fp8_enabled] false, construction hands
    to the fusion engine (for each of the three modes) a list in which
    every attribute whose name ends in [_dtype] and that holds a [DType]
    holds no 8-bit floating type, the low-precision ones having become
    [BFloat16]; attributes with any other name are as the caller gave
    them. *)
Theorem force_use_bf16_before_fusion
    (get_fused_op_list : list Op → Mode → list (Item Op))
    (ops ops' : list Op) (env : Environment) :
  fp8_enabled env = false →
  prepare_ops ops env = Ok ops' →
  (∀ op attr d, op ∈ ops' → endswith attr "_dtype" = true →
                attrs op !! attr = Some (DTypeVal d) → is_fp8 d = false) ∧
  (∀ i op, ops' !! i = Some op →
           ∃ op0, ops !! i = Some op0 ∧
                  ∀ attr, attrs op !! attr
                          = if endswith attr "_dtype" then downgraded <$> attrs op0 !! attr
                            else attrs op0 !! attr) ∧
  (∀ p, init get_fused_op_list ops env = Some (Ok p) →
        _inf p = get_fused_op_list ops' Inference ∧
        split_into_self_contained (get_fused_op_list ops' Forward)
                                  (get_fused_op_list ops' Backward)
        = Some (Ok (functions p))).
Proof.
  intros Hfp8 Hprep.
  assert (ops' = force_use_bf16 (name_ops ops)) as Hops'.
  { unfold prepare_ops in Hprep. rewrite Hfp8 in Hprep.
    destruct (bool_decide _); by simplify_eq. }
  assert (∀ i op, ops' !! i = Some op →
           ∃ op0, ops !! i = Some op0 ∧
                  ∀ attr, attrs op !! attr
                          = if endswith attr "_dtype" then downgraded <$> attrs op0 !! attr
                            else attrs op0 !! attr) as Hattrs.
  { intros i op. rewrite Hops'. unfold force_use_bf16. rewrite list_lookup_fmap.
    destruct (name_ops ops !! i) as [op1|] eqn:E; simpl; [|done].
    intros [= <-]. apply name_ops_attrs in E as (op0 & Hi & Ha & _).
    exists op0. split; [done|]. intros attr.
    by rewrite force_use_bf16_op_lookup, Ha. }
  split_and!; [|done|].
  - intros op attr d [i Hi]%list_elem_of_lookup_1 Hend Hl.
    apply Hattrs in Hi as (op0 & _ & Ha). rewrite Ha, Hend in Hl.
    destruct (attrs op0 !! attr) as [v|]; simplify_eq/=.
    by eapply downgraded_not_fp8.
  - intros p. unfold init. rewrite Hprep.
    destruct (split_into_self_contained _ _) as [[fs|e]|]; [|done..].
    by intros [= <-].
Qed.

End PipelineProofs.

(** ** Squish and unsquish *)

Module SquishProofs.
Import Squish.

Lemma unsnoc_snoc (outer : list nat) (n : nat) : unsnoc (outer ++ [n]) = Some (outer, n).
Proof. induction outer as [|m outer IH]; simpl; [done|]. by rewrite IH. Qed.

Lemma foldr_mul_snoc (outer : list nat) (n : nat) :
  foldr Nat.mul 1 (outer ++ [n]) = foldr Nat.mul 1 outer * n.
Proof. induction outer as [|m outer IH]; simpl; [lia|]. rewrite IH. lia. Qed.

Lemma element_size_pos (d : TorchDType) : 0 < element_size d.
Proof. destruct d; simpl; lia. Qed.

(** Viewing with an element type twice as large halves an even last
    dimension and the even strides before it; viewing with one half as
    large doubles them. *)
Lemma view_double (dt d : TorchDType) (outer os : list nat) (n : nat) (st : list Byte.byte) :
  element_size d = 2 * element_size dt → n `mod` 2 = 0 →
  Forall (λ s, s `mod` 2 = 0) os →
  view {| dtype := dt; shape := outer ++ [n]; outer_stride := os; storage := st |} d
  = Ok {| dtype := d; shape := outer ++ [n `div` 2];
          outer_stride := (λ s, s `div` 2) <$> os; storage := st |}.
Proof.
  intros Hsz Heven Hos. pose proof (element_size_pos dt) as Hpos.
  unfold view. cbn [dtype shape outer_stride storage]. rewrite unsnoc_snoc, Hsz.
  assert ((2 * element_size dt) `div` element_size dt = 2) as ->.
  { apply Nat.div_mul. lia. }
  destruct (decide (element_size dt = 2 * element_size dt)) as [?|_]; [lia|].
  destruct (decide (element_size dt < 2 * element_size dt)) as [_|?]; [|lia].
  destruct (decide (n `mod` 2 = 0)) as [_|?]; [|done].
  by destruct (decide (Forall (λ s, s `mod` 2 = 0) os)).
Qed.

Lemma view_half (dt d : TorchDType) (outer os : list nat) (n : nat) (st : list Byte.byte) :
  element_size dt = 2 * element_size d →
  view {| dtype := dt; shape := outer ++ [n]; outer_stride := os; storage := st |} d
  = Ok {| dtype := d; shape := outer ++ [n * 2];
          outer_stride := (λ s, s * 2) <$> os; storage := st |}.
Proof.
  intros Hsz. pose proof (element_size_pos d) as Hpos.
  unfold view. cbn [dtype shape outer_stride storage]. rewrite unsnoc_snoc, Hsz.
  assert ((2 * element_size d) `div` element_size d = 2) as ->.
  { apply Nat.div_mul. lia. }
  destruct (decide (2 * element_size d = element_size d)) as [?|_]; [lia|].
  by destruct (decide (2 * element_size d < element_size d)) as [?|_]; [lia|].
Qed.


Lemma half_double (os : list nat) : (λ s, s `div` 2) <$> ((λ s, s * 2) <$> os) = os.
Proof.
  induction os as [|s os IH]; [done|]. rewrite !fmap_cons, IH. f_equal.
  by apply Nat.div_mul.
Qed.

Lemma double_even (os : list nat) : Forall (λ s, s `mod` 2 = 0) ((λ s, s * 2) <$> os).
Proof.
  induction os as [|s os IH]; [constructor|]. rewrite fmap_cons.
  constructor; [apply Nat.Div0.mod_mul|exact IH].
Qed.


(** Every entry of the table doubles the element size. *)
Lemma squish_table_sizes (d d' : TorchDType) :
  dict_get SQUISH_TABLE d = Some d' →
  element_size d' = 2 * element_size d ∧ dict_get UNSQUISH_TABLE d' = Some d.
Proof. destruct d; simpl; intros [= <-]; done. Qed.


End SquishProofs.

(** ** The backward of the autograd boundary *)

Module BoundaryProofs.
Import Partition Pipeline Squish Boundary.

Section backward.
Variable torch_to_te_dtype : TorchDType → DType.
Variable op_backward :
  Item Op → gmap string NvteTensor → NvteTensor → NvteTensor * list NvteTensor.

Lemma forallb_not_fp8_false (grads : list NvteTensor) (g : NvteTensor) :
  g ∈ grads → is_fp8_tensor g = true →
  forallb (λ g, negb (is_fp8_tensor g)) grads = false.
Proof.
  intros Hin Hg. induction grads as [|g' grads IH]; [by apply elem_of_nil in Hin|].
  simpl. apply elem_of_cons in Hin as [<-|Hin].
  - by rewrite Hg.
  - rewrite (IH Hin). by destruct (negb _).
Qed.

(** C6. Let the backward of a unit obtain its incoming gradient and let
    the unit produce a data gradient and parameter gradients. If the unit
    has no upcoming backward (it is the one whose backward runs last) and
    the data gradient is low-precision, or if, for any unit, one of the
    parameter gradients is low-precision, the call ends in a failed
    assertion and returns nothing. *)
Theorem backward_asserts_no_fp8
    (comms : gmap nat NvteTensor) (ctx : FunctionCtx) (grad_output : TorchTensor)
    (nvte_grad data_grad : NvteTensor) (param_grads : list NvteTensor) :
  incoming_grad torch_to_te_dtype comms ctx grad_output = Ok nvte_grad →
  Unit.backward op_backward (nvte_op ctx) (nvte_ctx ctx) nvte_grad
    = (data_grad, param_grads) →
  (nvte_upcoming_backward_comm ctx = None ∧ is_fp8_tensor data_grad = true) ∨
  (∃ g, g ∈ param_grads ∧ is_fp8_tensor g = true) →
  backward torch_to_te_dtype op_backward comms ctx grad_output = Raise AssertionError.
Proof.
  intros Hin Hop Hviol. unfold backward. rewrite Hin. simpl. rewrite Hop. simpl.
  destruct Hviol as [[-> ->]|(g & Hg & Hfp8)]; [done|].
  rewrite (forallb_not_fp8_false _ _ Hg Hfp8).
  destruct (nvte_upcoming_backward_comm ctx); simpl; [done|].
  by destruct (is_fp8_tensor data_grad).
Qed.

(** In [apply] the unit without upcoming backward is the first of the
    pipeline. *)
Lemma upcoming_backward_at_None (i : nat) : upcoming_backward_at i = None ↔ i = 0.
Proof. by destruct i. Qed.

End backward.
End BoundaryProofs.

(** ** Shape binding of sharded operations *)

Module OpsProofs.
Import Ops.

(** C5. For a distributed group of [w] workers, [w] not being zero:
    [set_input_shape] on a row-parallel [Gemm] whose input feature count,
    on a column-parallel [Gemm] whose output feature count, or on a
    column-parallel [Bias] whose feature count is not a multiple of [w]
    raises [ValueError] and returns no operation, hence before any tensor
    is described; when it is a multiple, the call returns the operation
    with that count divided by [w]. *)
Theorem set_input_shape_divisibility
    (f : OpFields) (w n m : Z) (input_shape : list Z) :
  w ≠ 0%Z →
  __dist_group_size f = Value (Some w) →
  (__parallellism f = Value ParallelismClass.RGEMM →
   Gemm.set_input_shape
     {| Gemm.fields := f; Gemm.in_features := n; Gemm.out_features := m |} input_shape
   = if decide (n `mod` w = 0)%Z
     then Ok {| Gemm.fields := with_input_shape f input_shape;
                Gemm.in_features := (n `div` w)%Z; Gemm.out_features := m |}
     else Raise (ValueError
            "Number of input features must be divisible by the distributed group size")) ∧
  (__parallellism f = Value ParallelismClass.CGEMM →
   Gemm.set_input_shape
     {| Gemm.fields := f; Gemm.in_features := n; Gemm.out_features := m |} input_shape
   = if decide (m `mod` w = 0)%Z
     then Ok {| Gemm.fields := with_input_shape f input_shape;
                Gemm.in_features := n; Gemm.out_features := (m `div` w)%Z |}
     else Raise (ValueError
            "Number of output features must be divisible by the distributed group size")) ∧
  (__parallellism f = Value ParallelismClass.COLP →
   Bias.set_input_shape {| Bias.fields := f; Bias.features := n |} input_shape
   = if decide (n `mod` w = 0)%Z
     then Ok {| Bias.fields := with_input_shape f input_shape;
                Bias.features := (n `div` w)%Z |}
     else Raise (ValueError
            "Number of features must be divisible by the distributed group size")).
Proof.
  intros Hw Hsize.
  split_and!; intros Hpar.
  - unfold Gemm.set_input_shape, Gemm._pre_describe_tensors, parallellism,
      dist_group_size, py_mod, py_floordiv; simpl.
    rewrite Hpar, Hsize; simpl.
    destruct (decide (w = 0)%Z); [done|]. simpl.
    destruct (decide (n `mod` w = 0)%Z), (decide (n `mod` w ≠ 0)%Z); done.
  - unfold Gemm.set_input_shape, Gemm._pre_describe_tensors, parallellism,
      dist_group_size, py_mod, py_floordiv; simpl.
    rewrite Hpar, Hsize; simpl.
    destruct (decide (w = 0)%Z); [done|]. simpl.
    destruct (decide (m `mod` w = 0)%Z), (decide (m `mod` w ≠ 0)%Z); done.
  - unfold Bias.set_input_shape, Bias._pre_describe_tensors, parallellism,
      dist_group_size, py_mod, py_floordiv; simpl.
    rewrite Hpar, Hsize; simpl.
    destruct (decide (w = 0)%Z); [done|]. simpl.
    destruct (decide (n `mod` w = 0)%Z), (decide (n `mod` w ≠ 0)%Z); done.
Qed.

End OpsProofs.

(** ** The residual markers *)

Module ResidualProofs.
Import Residual.

Section buffers.
Context {V : Type}.
Variable plus : V → V → V.

Lemma copy_out (x out : nat) (σ : nat → V) : copy x out σ out = σ x.
Proof. unfold copy. apply fn_lookup_insert. Qed.

Lemma copy_other (x out l : nat) (σ : nat → V) : l ≠ out → copy x out σ l = σ l.
Proof. unfold copy. intros. by apply fn_lookup_insert_ne. Qed.

Lemma add_out (x y out : nat) (σ : nat → V) : add plus x y out σ out = plus (σ x) (σ y).
Proof. unfold add. apply fn_lookup_insert. Qed.

Lemma add_other (x y out l : nat) (σ : nat → V) : l ≠ out → add plus x y out σ l = σ l.
Proof. unfold add. intros. by apply fn_lookup_insert_ne. Qed.

(** C4, as the code has it. The training protocol of [ResidualBegin]
    (with its [end] set) copies its input into [fwd_residue] and yields
    the input; resumed with a gradient it adds that gradient into the
    [bwd_residue] of the end marker and yields that accumulated buffer.
    [ResidualEnd]'s inference writes [begin.fwd_residue + x] into
    [begin.fwd_residue] and returns it; its training protocol, resumed
    with a gradient, copies the gradient into [bwd_residue] and yields
    the gradient unchanged. *)
Theorem residual_protocol
    (b : ResidualBegin) (e : ResidualEnd) (residue x grad : nat) (σ σ' : nat → V) :
  end_bwd_residue b = Some residue →
  (∃ σ1 resume,
      ResidualBegin_training plus b x σ = Ok (x, σ1, resume) ∧
      σ1 (fwd_residue b) = σ x ∧
      (∀ l, l ≠ fwd_residue b → σ1 l = σ l) ∧
      (resume grad σ').1 = residue ∧
      (resume grad σ').2 residue = plus (σ' residue) (σ' grad) ∧
      (∀ l, l ≠ residue → (resume grad σ').2 l = σ' l)) ∧
  ((ResidualEnd_inference plus e x σ).1 = fwd_residue (begin e) ∧
   (ResidualEnd_inference plus e x σ).2 (fwd_residue (begin e))
   = plus (σ (fwd_residue (begin e))) (σ x)) ∧
  (((ResidualEnd_training plus e x σ).2 grad σ').1 = grad ∧
   ((ResidualEnd_training plus e x σ).2 grad σ').2 grad = σ' grad ∧
   ((ResidualEnd_training plus e x σ).2 grad σ').2 (bwd_residue e) = σ' grad).
Proof.
  intros Hend. split_and!.
  - unfold ResidualBegin_training. rewrite Hend. eexists _, _. split; [done|].
    simpl. split_and!; auto using copy_out, copy_other, add_out, add_other.
  - done.
  - simpl. apply add_out.
  - done.
  - simpl. destruct (decide (grad = bwd_residue e)) as [->|Hne].
    + apply copy_out.
    + by apply copy_other.
  - simpl. apply copy_out.
Qed.

End buffers.

Import Samples.

(** The gradient with which [ResidualBegin] is resumed is not what it
    yields: it yields the buffer [bwd_residue], holding the sum. *)
Lemma residual_begin_yields_sum :
  ∃ σ1 resume,
    ResidualBegin_training Z.add residual_begin 2 residual_store = Ok (2, σ1, resume) ∧
    (resume 3 σ1).1 ≠ 3 ∧
    σ1 3 = 7%Z ∧
    (resume 3 σ1).2 (resume 3 σ1).1 = 12%Z.
Proof. eexists _, _. split; [reflexivity|]. split_and!; [|reflexivity..]. by intros [=]. Qed.

Lemma residual_protocol_witness :
  (∃ σ1 resume,
      ResidualBegin_training Z.add residual_begin 2 residual_store = Ok (2, σ1, resume) ∧
      σ1 0 = 2%Z ∧
      (∀ l, l ≠ 0 → σ1 l = residual_store l) ∧
      (resume 3 residual_store).1 = 1 ∧
      (resume 3 residual_store).2 1 = 12%Z ∧
      (∀ l, l ≠ 1 → (resume 3 residual_store).2 l = residual_store l)) ∧
  ((ResidualEnd_inference Z.add residual_end 2 residual_store).1 = 0 ∧
   (ResidualEnd_inference Z.add residual_end 2 residual_store).2 0 = 2%Z) ∧
  (((ResidualEnd_training Z.add residual_end 2 residual_store).2 3 residual_store).1 = 3 ∧
   ((ResidualEnd_training Z.add residual_end 2 residual_store).2 3 residual_store).2 3 = 7%Z ∧
   ((ResidualEnd_training Z.add residual_end 2 residual_store).2 3 residual_store).2 1 = 7%Z).
Proof.
  apply (residual_protocol Z.add residual_begin residual_end 1 2 3
           residual_store residual_store).
  reflexivity.
Defined.

End ResidualProofs.

(** ** The properties on the sample inputs *)

Module OnSamples.
Import Partition Pipeline Unit Squish Boundary Ops Samples.


Example name_ops_sample : name_ops [layer_norm; gemm] = [layer_norm0; gemm1].
Proof. vm_compute. reflexivity. Qed.

(** *** Precision downgrade *)

Example force_use_bf16_sample :
  attrs (force_use_bf16_op gemm)
  = {[ "input_type" := DTypeVal Float8E4M3;
       "param_dtype" := DTypeVal BFloat16;
       "out_features" := OtherVal "4" ]}.
Proof. vm_compute. reflexivity. Qed.

(** With low precision disabled, an operation that keeps its input type
    in an attribute named [input_type] still has an 8-bit floating input
    type after construction. *)
Lemma input_type_stays_fp8 :
  ∃ op, prepare_ops [gemm] bf16_env = Ok [op] ∧
        attrs op !! "input_type" = Some (DTypeVal Float8E4M3) ∧
        is_fp8 Float8E4M3 = true.
Proof. eexists. split; [vm_compute; reflexivity|]. split; vm_compute; reflexivity. Qed.

Lemma force_use_bf16_before_fusion_witness :
  Forall (λ op, attrs op !! "x_dtype" ≠ Some (DTypeVal Float8E4M3) ∧
                attrs op !! "param_dtype" ≠ Some (DTypeVal Float8E5M2))
         (force_use_bf16 (name_ops [layer_norm; gemm])).
Proof.
  destruct (PipelineProofs.force_use_bf16_before_fusion no_fusion
              [layer_norm; gemm] (force_use_bf16 (name_ops [layer_norm; gemm])) bf16_env)
    as (Hdtype & _ & _).
  { reflexivity. }
  { vm_compute. reflexivity. }
  apply Forall_forall. intros op Hop. split; intros Hl.
  - by pose proof (Hdtype op "x_dtype" Float8E4M3 Hop eq_refl Hl).
  - by pose proof (Hdtype op "param_dtype" Float8E5M2 Hop eq_refl Hl).
Defined.

(** *** Squish *)


(** Two rows of no [int8] element, as the host library allocates them,
    have an even last dimension and are refused all the same: the stride
    of the rows is 1. *)
Lemma squish_empty_rows_fails :
  dict_get SQUISH_TABLE (dtype empty_rows_int8) = Some float16 ∧
  shape empty_rows_int8 = [2] ++ [0] ∧ 0 `mod` 2 = 0 ∧
  outer_stride empty_rows_int8 = [1] ∧
  _squish empty_rows_int8
  = Raise (RuntimeError "self.stride(i) must be divisible by the element size ratio").
Proof. split_and!; reflexivity. Qed.


(** *** Shape binding *)

Example gemm_indivisible :
  Gemm.set_input_shape
    {| Gemm.fields := row_parallel_fields; Gemm.in_features := 10; Gemm.out_features := 8 |}
    [2; 10]%Z
  = Raise (ValueError
      "Number of input features must be divisible by the distributed group size").
Proof. reflexivity. Qed.

Lemma set_input_shape_divisibility_witness :
  Gemm.set_input_shape
    {| Gemm.fields := row_parallel_fields; Gemm.in_features := 12; Gemm.out_features := 8 |}
    [2; 12]%Z
  = Ok {| Gemm.fields := with_input_shape row_parallel_fields [2; 12]%Z;
          Gemm.in_features := 3; Gemm.out_features := 8 |}.
Proof.
  apply (proj1 (OpsProofs.set_input_shape_divisibility
                  row_parallel_fields 4 12 8 [2; 12]%Z ltac:(lia) eq_refl)).
  reflexivity.
Defined.

(** *** The boundary *)

Lemma backward_asserts_no_fp8_witness :
  Boundary.backward te_dtype_of fp8_param_grad ∅ last_backward_ctx grad32 = Raise AssertionError.
Proof.
  apply (BoundaryProofs.backward_asserts_no_fp8 te_dtype_of fp8_param_grad
           ∅ last_backward_ctx grad32
           (make_nvte_tensor te_dtype_of grad32)
           (make_nvte_tensor te_dtype_of grad32)
           [as_fp8 (make_nvte_tensor te_dtype_of grad32)]).
  - reflexivity.
  - reflexivity.
  - right. exists (as_fp8 (make_nvte_tensor te_dtype_of grad32)).
    split; [apply list_elem_of_here|reflexivity].
Defined.

(** *** Contexts and order *)

Example forward_sample :
  Unit.forward save_input sample_unit 5
  = (7, {[ "0(LayerNorm)x" := 5; "1(Gemm)x" := 6 ]}).
Proof. vm_compute. reflexivity. Qed.

Lemma context_round_trip_witness :
  (Unit.forward save_input sample_unit 5).2 !! "0(LayerNorm)x" = Some 5 ∧
  backward_ctxs sample_unit (Unit.forward save_input sample_unit 5).2 !! 0
  = Some {[ "x" := 5 ]} ∧
  Unit.backward replay_input sample_unit (Unit.forward save_input sample_unit 5).2 1
  = (4, [6; 5]).
Proof.
  destruct (UnitProofs.context_round_trip save_input replay_input sample_unit 5 1 0 0
              layer_norm0 {[ "x" := 5 ]}) as (Hkeys & Hctx & Hback).
  - split.
    + apply (bool_decide_unpack _). vm_compute. reflexivity.
    + exists [layer_norm; gemm]. rewrite name_ops_sample. intros o Ho.
      apply elem_of_cons in Ho as [[= ->]|Ho]; [apply list_elem_of_here|].
      apply elem_of_cons in Ho as [[= ->]|Ho]; [apply list_elem_of_further, list_elem_of_here|].
      by apply elem_of_nil in Ho.
  - intros [|[|j]] fused ctx key Hj; simpl in Hj; discriminate.
  - reflexivity.
  - reflexivity.
  - reflexivity.
  - split_and!; [exact (Hkeys "x")|exact Hctx|]. rewrite Hback. reflexivity.
Defined.

Lemma units_forward_order_backward_reversed_witness :
  concat (fwds <$> [ {| fwds := [Fused [layer_norm0; gemm1]];
                        bwds := [Plain layer_norm0; Plain gemm1] |} ])
  = [Fused [layer_norm0; gemm1]] ∧
  Unit.backward double_grad {| fwds := [Fused [layer_norm0; gemm1]]; bwds := [] |} ∅ 1 = (1, []) ∧
  Unit.backward double_grad
    {| fwds := [Fused [layer_norm0; gemm1]]; bwds := [Plain layer_norm0] ++ [Plain gemm1] |} ∅ 1
  = (let r := double_grad (Plain gemm1) (backward_ctx ∅ (Plain gemm1)) 1 in
     let rest := Unit.backward double_grad
                   {| fwds := [Fused [layer_norm0; gemm1]]; bwds := [Plain layer_norm0] |}
                   ∅ r.1 in
     (rest.1, r.2 ++ rest.2)).
Proof.
  apply (UnitProofs.units_forward_order_backward_reversed double_grad
           [Fused [layer_norm0; gemm1]] [Plain layer_norm0; Plain gemm1]).
  vm_compute. reflexivity.
Defined.

Example backward_sample :
  Unit.backward double_grad sample_unit ∅ 1 = (4, [1; 2]).
Proof. vm_compute. reflexivity. Qed.

(** *** Inference against the forward of training *)

Lemma no_fusion_keeps_members : Runs.fusion_keeps_members no_fusion.
Proof.
  intros ops mode. unfold no_fusion. induction ops as [|o ops IH]; [done|].
  rewrite fmap_cons, PartitionProofs.flat_cons, IH. done.
Qed.

Lemma count_fused (ms : list Op) (x : nat) :
  x + length ms = foldl (λ x o, x + length (members (Plain o))) x ms.
Proof.
  revert x. induction ms as [|o ms IH]; intros x; simpl; [lia|].
  rewrite <-IH. lia.
Qed.

Example init_sample : init no_fusion [layer_norm; gemm] bf16_env = Some (Ok sample_pipeline).
Proof. vm_compute. reflexivity. Qed.

Lemma inference_matches_training_forward_witness :
  Runs.run_inference count_inference sample_pipeline 5 = 7 ∧
  Runs.run_forward count_forward sample_pipeline 5 = 7 ∧
  (GemmRun.training Z.mul Z.opp square_gemm 2 residual_store).1.2 7 = 10%Z ∧
  (GemmRun.inference Z.mul square_gemm 2 residual_store).2 2 = 10%Z.
Proof.
  destruct (RunsProofs.inference_matches_training_forward count_inference count_forward
              no_fusion Z.mul Z.opp [layer_norm; gemm] bf16_env sample_pipeline 5
              square_gemm 2 residual_store) as (Hsame & _ & Hgemm).
  - exact no_fusion_keeps_members.
  - intros ms x. apply count_fused.
  - intros ms x. apply count_fused.
  - intros o x. reflexivity.
  - reflexivity.
  - exact init_sample.
  - discriminate.
  - discriminate.
  - split_and!; [reflexivity|rewrite <-Hsame; reflexivity|reflexivity|].
    change ((GemmRun.inference Z.mul square_gemm 2 residual_store).2
              (GemmRun.inference Z.mul square_gemm 2 residual_store).1 = 10%Z).
    rewrite <-Hgemm. reflexivity.
Defined.

End OnSamples.

(** ** More on the partitioner *)

Module PartitionRunsProofs.
Import Partition PartitionRuns PartitionProofs.
Section proofs.
Context {O : Type} `{HO : Countable O}.
Implicit Types (it fwd : Item O) (q qf qb used usedf usedb popped pf pb : list (Item O)).
Implicit Types (A F B uf ub pending other : gset O).
Implicit Types (u : SelfContainedOp O) (acc units : list (SelfContainedOp O)).

Lemma split_loop_step fuel fwd qf qb acc :
  split_loop (S fuel) (fwd :: qf) qb acc =
  match close_unit (S (length qf + length qb)) qf qb
          (list_to_set (members fwd)) ∅ [fwd] [] with
  | None => None
  | Some (Raise e) => Some (Raise e)
  | Some (Ok (fwds'', bwds'', used_f, used_b)) =>
      split_loop fuel fwds'' bwds'' (acc ++ [{| fwds := used_f; bwds := used_b |}])
  end.
Proof. by destruct qb. Qed.

(** A successful run is a sequence of passes. *)
Lemma split_loop_passes fuel qf qb acc units :
  split_loop fuel qf qb acc = Some (Ok units) →
  ∃ new, units = acc ++ new ∧ passes qf qb new.
Proof.
  revert qf qb acc. induction fuel as [|fuel IH]; intros qf qb acc.
  - destruct qf, qb; simpl; try done.
    intros ?; simplify_eq. exists []. rewrite app_nil_r. split; [done|constructor].
  - destruct qf as [|fwd qf].
    { destruct qb; simpl; [|done].
      intros ?; simplify_eq. exists []. rewrite app_nil_r. split; [done|constructor]. }
    rewrite split_loop_step.
    destruct (close_unit _ _ _ _ _ _ _) as [[[[[qf' qb'] usedf] usedb]|]|] eqn:E; [|done..].
    intros Hrec. apply IH in Hrec as (new & -> & Hp).
    exists ({| fwds := usedf; bwds := usedb |} :: new). split.
    + by rewrite <-app_assoc.
    + by econstructor.
Qed.

Lemma split_passes (fwds0 bwds0 : list (Item O)) units :
  split_into_self_contained fwds0 bwds0 = Some (Ok units) → passes fwds0 bwds0 units.
Proof. intros (new & -> & Hp)%split_loop_passes. done. Qed.

(** *** Items grouped alike on both sides *)

Lemma match_members_subset (ops : list O) pending other :
  NoDup ops → list_to_set ops ⊆ pending →
  match_members ops pending other = (pending ∖ list_to_set ops, other).
Proof.
  revert pending. induction ops as [|op ops IH]; intros pending Hnd Hsub.
  - simpl. f_equal. set_solver.
  - rewrite match_members_cons. apply NoDup_cons in Hnd as [Hop Hnd].
    unfold match_step. simpl.
    destruct (decide (op ∈ pending)) as [_|Hout]; [|set_solver]. simpl.
    rewrite IH; [|done|set_solver]. f_equal. set_solver.
Qed.

Lemma drain_nothing_pending q other used :
  drain q ∅ other used = Ok (q, ∅, other, used).
Proof. destruct q; simpl; by destruct (decide ((∅ : gset O) = ∅)). Qed.

Lemma close_unit_done fuel qf qb usedf usedb :
  close_unit fuel qf qb ∅ ∅ usedf usedb = Some (Ok (qf, qb, usedf, usedb)).
Proof.
  destruct fuel; simpl;
    by destruct (decide ((∅ : gset O) = ∅ ∧ (∅ : gset O) = ∅)) as [|[]].
Qed.

Lemma close_unit_same_item fuel it qf qb :
  NoDup (members it) → members it ≠ [] →
  close_unit (S fuel) qf (it :: qb) (list_to_set (members it)) ∅ [it] []
  = Some (Ok (qf, qb, [it], [it])).
Proof.
  intros Hnd Hne. simpl.
  assert ((list_to_set (members it) : gset O) ≠ ∅) as Hset.
  { destruct (members it) as [|op ops]; [done|]. set_solver. }
  destruct (decide (_ ∧ _)) as [[? _]|_]; [done|].
  unfold match_backwards, match_forwards. simpl.
  destruct (decide (list_to_set (members it) = ∅)) as [?|_]; [done|].
  rewrite match_members_subset by done. simpl.
  assert (list_to_set (members it) ∖ list_to_set (members it) = (∅ : gset O)) as ->
    by set_solver.
  rewrite !drain_nothing_pending. apply close_unit_done.
Qed.

Lemma split_loop_same_grouping fuel q acc :
  Forall (λ it, NoDup (members it) ∧ members it ≠ []) q →
  length q < fuel →
  split_loop fuel q q acc = Some (Ok (acc ++ (singleton_unit <$> q))).
Proof.
  revert fuel acc. induction q as [|it q IH]; intros fuel acc Hall Hfuel.
  - destruct fuel; [simpl in Hfuel; lia|]. simpl. by rewrite app_nil_r.
  - destruct fuel as [|fuel]; [simpl in Hfuel; lia|].
    apply Forall_cons in Hall as [[Hnd Hne] Hall].
    rewrite split_loop_step, close_unit_same_item by done.
    rewrite IH; [|done|simpl in Hfuel; lia].
    by rewrite <-app_assoc.
Qed.

(** X1. When the forward and the backward list are the same list of
    items, each item holding at least one operation and none twice, every
    item becomes a unit of its own, in order; in particular a list on
    which nothing was fused is cut into one unit per operation. *)
Theorem split_same_grouping (q : list (Item O)) :
  Forall (λ it, NoDup (members it) ∧ members it ≠ []) q →
  split_into_self_contained q q = Some (Ok (singleton_unit <$> q)).
Proof.
  intros Hall. unfold split_into_self_contained.
  rewrite split_loop_same_grouping; [done|done|lia].
Qed.

(** *** The groups of a unit are not empty *)

Lemma close_unit_first_backward fuel qf qb uf ub usedf usedb qf' qb' usedf' usedb' :
  close_unit fuel qf qb uf ub usedf usedb = Some (Ok (qf', qb', usedf', usedb')) →
  uf ≠ ∅ → ∃ pb, pb ≠ [] ∧ usedb' = usedb ++ pb.
Proof.
  intros Hc Huf. destruct fuel as [|fuel]; simpl in Hc;
    (destruct (decide (uf = ∅ ∧ ub = ∅)) as [[? _]|_]; [done|]); [done|].
  unfold match_backwards, match_forwards in Hc.
  destruct (drain qb uf ub usedb) as [[[[qb1 uf1] ub1] usedb1]|] eqn:E1; [|done].
  destruct (drain qf ub1 uf1 usedf) as [[[[qf1 ub2] uf2] usedf1]|] eqn:E2; [|done].
  apply drain_ok in E1 as (-> & pb1 & -> & -> & Hne & _).
  apply close_unit_ok in Hc as (pf & pb & _ & _ & _ & -> & _).
  exists (pb1 ++ pb). rewrite <-app_assoc. split; [|done].
  specialize (Hne Huf). by destruct pb1.
Qed.

Lemma passes_groups (qf qb : list (Item O)) units :
  passes qf qb units →
  Forall (λ u, fwds u ≠ []) units ∧ length units ≤ length qf ∧
  (Forall (λ it, members it ≠ []) qf →
   Forall (λ u, bwds u ≠ []) units ∧ length units ≤ length qb).
Proof.
  induction 1 as [|fuel fwd qf qb qf' qb' usedf usedb units Hc Hp (IH1 & IH2 & IH3)].
  - split_and!; [constructor|done|]. intros _. split; [constructor|done].
  - pose proof Hc as (pf & pb & -> & -> & -> & Hb & _)%close_unit_ok.
    split_and!.
    + constructor; [done|done].
    + simpl. rewrite length_app. lia.
    + intros Hall. apply Forall_cons in Hall as [Hfwd Hall].
      apply Forall_app in Hall as [_ Hall]. destruct (IH3 Hall) as [IH4 IH5].
      apply close_unit_first_backward in Hc as (pb' & Hne & Hb').
      2:{ destruct (members fwd) as [|op ops]; [done|]. set_solver. }
      simpl in Hb, Hb'. assert (pb ≠ []) as Hpb by congruence. split.
      * constructor; [by rewrite Hb'|done].
      * simpl. rewrite length_app. destruct pb; [done|]. simpl. lia.
Qed.

(** X2. No returned unit has an empty forward group, and there are at
    most as many units as forward items. When every forward item holds an
    operation, no unit has an empty backward group either, and there are
    at most as many units as backward items. *)
Theorem split_groups_not_empty (fwds0 bwds0 : list (Item O)) units :
  split_into_self_contained fwds0 bwds0 = Some (Ok units) →
  Forall (λ u, fwds u ≠ []) units ∧ length units ≤ length fwds0 ∧
  (Forall (λ it, members it ≠ []) fwds0 →
   Forall (λ u, bwds u ≠ []) units ∧ length units ≤ length bwds0).
Proof. intros Hs%split_passes. by apply passes_groups. Qed.

(** *** The only failure is a pop from an exhausted queue *)

Lemma drain_raises q pending other used e :
  drain q pending other used = Raise e → e = IndexError.
Proof.
  revert pending other used. induction q as [|it q IH]; intros pending other used; simpl;
    destruct (decide (pending = ∅)); try done.
  - congruence.
  - apply IH.
Qed.

Lemma close_unit_raises fuel qf qb uf ub usedf usedb e :
  close_unit fuel qf qb uf ub usedf usedb = Some (Raise e) → e = IndexError.
Proof.
  revert qf qb uf ub usedf usedb.
  induction fuel as [|fuel IH]; intros qf qb uf ub usedf usedb; simpl;
    (destruct (decide (uf = ∅ ∧ ub = ∅)); [done|]); [done|].
  unfold match_backwards, match_forwards.
  destruct (drain qb uf ub usedb) as [[[[qb1 uf1] ub1] usedb1]|e1] eqn:E1.
  - destruct (drain qf ub1 uf1 usedf) as [[[[qf1 ub2] uf2] usedf1]|e2] eqn:E2.
    + apply IH.
    + intros ?; simplify_eq. by apply drain_raises in E2.
  - intros ?; simplify_eq. by apply drain_raises in E1.
Qed.

Lemma split_loop_raises fuel qf qb acc e :
  split_loop fuel qf qb acc = Some (Raise e) → e = IndexError.
Proof.
  revert qf qb acc. induction fuel as [|fuel IH]; intros qf qb acc.
  - by destruct qf, qb.
  - destruct qf as [|fwd qf].
    + destruct qb; simpl; congruence.
    + rewrite split_loop_step.
      destruct (close_unit _ _ _ _ _ _ _) as [[[[[qf' qb'] usedf] usedb]|e']|] eqn:Hc;
        [apply IH| |done].
      intros ?; simplify_eq. by apply close_unit_raises in Hc.
Qed.

Lemma ops_of_units (units : list (SelfContainedOp O)) :
  Forall (λ u, unit_fwd_ops u = unit_bwd_ops u) units →
  ops_of (concat (fwds <$> units)) = ops_of (concat (bwds <$> units)).
Proof.
  induction 1 as [|u units Hu _ IH]; [done|].
  rewrite !fmap_cons. simpl. rewrite !ops_of_app. unfold unit_fwd_ops, unit_bwd_ops in Hu.
  by rewrite Hu, IH.
Qed.

(** X3. When the forward and the backward list do not span the same set
    of elementary operations, the partitioner does not return: it ends
    with the IndexError of a pop from an emptied list. *)
Theorem split_mismatch_raises (fwds0 bwds0 : list (Item O)) :
  ops_of fwds0 ≠ ops_of bwds0 →
  split_into_self_contained fwds0 bwds0 = Some (Raise IndexError).
Proof.
  intros Hne. destruct (split_terminates fwds0 bwds0) as [[units|e] Hr].
  - exfalso. apply Hne. apply split_loop_ok in Hr as (new & _ & <- & <- & Hall).
    by apply ops_of_units.
  - rewrite Hr. apply split_loop_raises in Hr. by subst.
Qed.

(** *** Units are the shortest self-contained cuts *)

Lemma match_members_exact (ops : list O) (T B : gset O) :
  NoDup ops → list_to_set ops ## B →
  match_members ops (T ∖ B) (B ∖ T)
  = (T ∖ (B ∪ list_to_set ops), (B ∪ list_to_set ops) ∖ T).
Proof.
  revert B. induction ops as [|op ops IH]; intros B Hnd Hdis.
  - simpl. f_equal; set_solver.
  - rewrite match_members_cons. apply NoDup_cons in Hnd as [Hop Hnd].
    assert (op ∉ B) as HopB by set_solver.
    assert (list_to_set ops ## B ∪ {[op]}) as Hdis' by set_solver.
    unfold match_step. simpl. destruct (decide (op ∈ T ∖ B)) as [Hin|Hout]; simpl.
    + assert (T ∖ B ∖ {[op]} = T ∖ (B ∪ {[op]})) as -> by set_solver.
      assert (B ∖ T = (B ∪ {[op]}) ∖ T) as -> by set_solver.
      rewrite IH by done. f_equal; set_solver.
    + assert (T ∖ B = T ∖ (B ∪ {[op]})) as -> by set_solver.
      assert (B ∖ T ∪ {[op]} = (B ∪ {[op]}) ∖ T) as -> by set_solver.
      rewrite IH by done. f_equal; set_solver.
Qed.

Lemma drain_least q pending other used q' pending' other' used' (T : gset O) target :
  drain q pending other used = Ok (q', pending', other', used') →
  NoDup (flat (used ++ q)) →
  pending = T ∖ ops_of used → other = ops_of used ∖ T →
  used `prefix_of` target → target `prefix_of` used ++ q →
  T ⊆ ops_of target →
  used' `prefix_of` target ∧ pending' = T ∖ ops_of used' ∧ other' = ops_of used' ∖ T.
Proof.
  revert pending other used.
  induction q as [|it q IH]; intros pending other used Hd Hnd Hp Ho Hlow Hup HT;
    simpl in Hd; destruct (decide (pending = ∅)) as [Hdone|Hmore];
    try done; try (by simplify_eq).
  destruct Hlow as [k ->]. apply prefix_app_inv in Hup.
  destruct k as [|it' k].
  { rewrite app_nil_r in HT. exfalso. apply Hmore. set_solver. }
  apply prefix_cons_inv_1 in Hup as Hit; subst it'.
  apply prefix_cons_inv_2 in Hup.
  rewrite flat_app, flat_cons in Hnd.
  apply NoDup_app in Hnd as (Hnd1 & Hdis & Hnd2).
  apply NoDup_app in Hnd2 as (Hndit & Hdis2 & Hndq).
  assert (list_to_set (members it) ## ops_of used) as Hfresh.
  { unfold ops_of. intros x Hx1 Hx2. apply elem_of_list_to_set in Hx1, Hx2.
    apply (Hdis x Hx2). apply elem_of_app. by left. }
  subst pending other. rewrite match_members_exact in Hd by done. simpl in Hd.
  apply IH in Hd; first last.
  - done.
  - rewrite <-app_assoc. by apply prefix_app, prefix_cons.
  - by apply prefix_app, prefix_cons, prefix_nil.
  - by rewrite ops_of_app, ops_of_singleton.
  - by rewrite ops_of_app, ops_of_singleton.
  - rewrite <-app_assoc. simpl. rewrite flat_app, flat_cons.
    apply NoDup_app. split_and!; [done|done|]. by apply NoDup_app.
  - done.
Qed.

Lemma ops_of_prefix (l k : list (Item O)) : l `prefix_of` k → ops_of l ⊆ ops_of k.
Proof. intros [r ->]. rewrite ops_of_app. set_solver. Qed.

Lemma close_unit_least fuel qf qb uf ub usedf usedb qf' qb' usedf' usedb' pf pb :
  close_unit fuel qf qb uf ub usedf usedb = Some (Ok (qf', qb', usedf', usedb')) →
  NoDup (flat (usedf ++ qf)) → NoDup (flat (usedb ++ qb)) →
  uf = ops_of usedf ∖ ops_of usedb → ub = ops_of usedb ∖ ops_of usedf →
  usedf `prefix_of` pf → pf `prefix_of` usedf ++ qf →
  usedb `prefix_of` pb → pb `prefix_of` usedb ++ qb →
  ops_of pf = ops_of pb →
  usedf' `prefix_of` pf ∧ usedb' `prefix_of` pb.
Proof.
  revert qf qb uf ub usedf usedb.
  induction fuel as [|fuel IH];
    intros qf qb uf ub usedf usedb Hc Hndf Hndb Huf Hub Hf1 Hf2 Hb1 Hb2 Heq;
    simpl in Hc; (destruct (decide (uf = ∅ ∧ ub = ∅)); [by simplify_eq|]); [done|].
  unfold match_backwards, match_forwards in Hc.
  destruct (drain qb uf ub usedb) as [[[[qb1 uf1] ub1] usedb1]|] eqn:E1; [|done].
  destruct (drain qf ub1 uf1 usedf) as [[[[qf1 ub2] uf2] usedf1]|] eqn:E2; [|done].
  pose proof E1 as (_ & popb & Hqb & Husedb & _)%drain_ok.
  pose proof E2 as (_ & popf & Hqf & Husedf & _)%drain_ok.
  eapply (drain_least _ _ _ _ _ _ _ _ (ops_of usedf) pb) in E1
    as (Hb1' & Huf1 & Hub1); [|done..|].
  2:{ rewrite <-Heq. by apply ops_of_prefix. }
  eapply (drain_least _ _ _ _ _ _ _ _ (ops_of usedb1) pf) in E2
    as (Hf1' & Hub2 & Huf2); [|done..|].
  2:{ rewrite Heq. by apply ops_of_prefix. }
  eapply IH; [exact Hc|..]; try done.
  - subst usedf1 qf. by rewrite <-app_assoc.
  - subst usedb1 qb. by rewrite <-app_assoc.
  - subst usedf1 qf. by rewrite <-app_assoc.
  - subst usedb1 qb. by rewrite <-app_assoc.
Qed.

Lemma prefix_antisym (l k : list (Item O)) : l `prefix_of` k → k `prefix_of` l → l = k.
Proof.
  intros H1 H2. apply prefix_length_eq; [done|]. by apply prefix_length.
Qed.

Lemma passes_minimal (qf qb : list (Item O)) units :
  passes qf qb units → NoDup (flat qf) → NoDup (flat qb) →
  Forall minimal_unit units.
Proof.
  induction 1 as [|fuel fwd qf qb qf' qb' usedf usedb units Hc Hp IH]; intros Hndf Hndb.
  { constructor. }
  pose proof Hc as (popf & popb & -> & -> & -> & Hb & _)%close_unit_ok.
  simpl in Hb. subst usedb. constructor.
  - intros pf pb Hpf Hpb Hne Heq. simpl in Hpf, Hpb.
    eapply (close_unit_least _ _ _ _ _ _ _ _ _ _ _ pf pb) in Hc as [Hf Hb]; try done.
    + split; apply prefix_antisym; done.
    + rewrite ops_of_singleton, ops_of_nil. set_solver.
    + rewrite ops_of_singleton, ops_of_nil. set_solver.
    + destruct pf as [|it pf]; [done|]. simpl in Hpf.
      apply prefix_cons_inv_1 in Hpf as ->. apply prefix_cons, prefix_nil.
    + simpl. etrans; [exact Hpf|]. apply prefix_cons, prefix_app_r. done.
    + apply prefix_nil.
    + simpl. etrans; [exact Hpb|]. by apply prefix_app_r.
  - apply IH.
    + rewrite flat_cons, flat_app in Hndf.
      apply NoDup_app in Hndf as (_ & _ & Hndf). by apply NoDup_app in Hndf as (_ & _ & ?).
    + rewrite flat_app in Hndb. by apply NoDup_app in Hndb as (_ & _ & ?).
Qed.

(** X4. When no elementary operation occurs twice in the forward list
    nor in the backward list, every returned unit is a shortest cut: no
    shorter beginning of its forward group (holding at least its first
    item) spans the same operations as a beginning of its backward
    group. *)
Theorem split_units_minimal (fwds0 bwds0 : list (Item O)) units :
  NoDup (flat fwds0) → NoDup (flat bwds0) →
  split_into_self_contained fwds0 bwds0 = Some (Ok units) →
  Forall minimal_unit units.
Proof. intros Hf Hb Hs%split_passes. by eapply passes_minimal. Qed.

End proofs.
End PartitionRunsProofs.

Module NamingProofs.
Import Pipeline Naming UnitProofs PipelineProofs.

Implicit Types (h : gmap nat Op) (ids : list nat) (op : Op).

Lemma name_ops_in_place_snoc ids a h :
  name_ops_in_place (ids ++ [a]) h
  = name_op_at (name_ops_in_place ids h) (length ids, a).
Proof.
  unfold name_ops_in_place, enumerate. rewrite imap_app, foldl_app. simpl.
  by rewrite Nat.add_0_r.
Qed.

Lemma name_ops_in_place_keeps ids h a op :
  h !! a = Some op → ∃ nm, name_ops_in_place ids h !! a = Some (set_name nm op).
Proof.
  intros Hop. induction ids as [|b ids IH] using rev_ind.
  - exists (name op). by destruct op.
  - destruct IH as [nm IH]. rewrite name_ops_in_place_snoc. unfold name_op_at. simpl.
    destruct (decide (a = b)) as [<-|Hne].
    + rewrite lookup_alter_eq, IH. simpl. by eexists.
    + rewrite lookup_alter_ne by done. by eexists.
Qed.

Lemma name_ops_in_place_frame ids h a :
  a ∉ ids → name_ops_in_place ids h !! a = h !! a.
Proof.
  induction ids as [|b ids IH] using rev_ind; [done|].
  intros Hnot. rewrite name_ops_in_place_snoc. unfold name_op_at. simpl.
  rewrite lookup_alter_ne by set_solver. apply IH. set_solver.
Qed.

Lemma name_ops_in_place_last ids h (j a : nat) op :
  ids !! j = Some a → (∀ k, j < k → ids !! k ≠ Some a) → h !! a = Some op →
  name_ops_in_place ids h !! a = Some (set_name (op_name_at j (class_name op)) op).
Proof.
  revert j. induction ids as [|b ids IH] using rev_ind; intros j Hj Hlast Hop; [done|].
  rewrite name_ops_in_place_snoc. unfold name_op_at. simpl.
  destruct (decide (j = length ids)) as [->|Hne].
  - rewrite lookup_app_r, Nat.sub_diag in Hj by done. simpl in Hj. simplify_eq.
    destruct (name_ops_in_place_keeps ids h a op Hop) as [nm Hk].
    by rewrite lookup_alter_eq, Hk.
  - assert (j < length ids) as Hlt.
    { apply lookup_lt_Some in Hj. rewrite length_app in Hj. simpl in Hj. lia. }
    assert (b ≠ a) as Hba.
    { intros ->. apply (Hlast (length ids) Hlt).
      by rewrite lookup_app_r, Nat.sub_diag by done. }
    rewrite lookup_alter_ne by done. apply IH; [|  |done].
    + by rewrite lookup_app_l in Hj.
    + intros k Hk Hka. apply (Hlast k Hk). apply lookup_app_l_Some. done.
Qed.

(** X5. [name_ops] writes into the objects themselves: afterwards an
    object of the list carries the name built from the last position at
    which the list holds it, with its class and other attributes as
    before, and an object that the list does not hold is untouched; so
    an object held twice is left with one name, that of its later
    position. *)
Theorem name_ops_last_position ids h (j a : nat) op :
  ids !! j = Some a → (∀ k, j < k → ids !! k ≠ Some a) → h !! a = Some op →
  name_ops_in_place ids h !! a = Some (set_name (op_name_at j (class_name op)) op) ∧
  ∀ b, b ∉ ids → name_ops_in_place ids h !! b = h !! b.
Proof.
  intros Hj Hlast Hop. split.
  - by apply name_ops_in_place_last.
  - intros b. apply name_ops_in_place_frame.
Qed.

Lemma name_ops_in_place_distinct ids h (ops : list Op) :
  NoDup ids → Forall2 (λ a op, h !! a = Some op) ids ops →
  Forall2 (λ a op, name_ops_in_place ids h !! a = Some op) ids (name_ops ops).
Proof.
  intros Hnd Hall. apply Forall2_same_length_lookup. split.
  { unfold name_ops. rewrite length_imap. by eapply Forall2_length. }
  intros i a op' Ha Hop'.
  destruct (Forall2_lookup_l _ _ _ _ _ Hall Ha) as (op & Hop & Hh).
  unfold name_ops in Hop'. rewrite list_lookup_imap, Hop in Hop'. simpl in Hop'.
  simplify_eq. apply (name_ops_in_place_last ids h i a op); [done| |done].
  intros k Hk Hka. pose proof (NoDup_lookup _ _ _ _ Hnd Ha Hka). lia.
Qed.

(** X6. On a list that holds no object twice, the in-place naming leaves
    the objects in the states that [name_ops] lists, and the names are
    apart: no name, followed by whatever key, is another name followed
    by a key; in particular no two names are equal and none begins with
    another. *)
Theorem name_ops_distinct_objects ids h (ops : list Op) :
  NoDup ids → Forall2 (λ a op, h !! a = Some op) ids ops →
  Forall2 (λ a op, name_ops_in_place ids h !! a = Some op) ids (name_ops ops) ∧
  ∀ i j oi oj k1 k2,
    name_ops ops !! i = Some oi → name_ops ops !! j = Some oj → i ≠ j →
    name oi +:+ k1 ≠ name oj +:+ k2.
Proof.
  intros Hnd Hall. split.
  - by apply name_ops_in_place_distinct.
  - intros i j oi oj k1 k2 Hi Hj Hne Heq.
    apply name_ops_lookup in Hi, Hj. rewrite Hi, Hj in Heq.
    apply Hne. by eapply op_name_at_apart.
Qed.

(** X7. Downgrading twice is downgrading once: a second pass of
    [force_use_bf16] changes nothing, so an operation that the list
    holds twice is left as one visit leaves it; names and classes are
    never changed. *)
Theorem force_use_bf16_idempotent (ops : list Op) :
  force_use_bf16 (force_use_bf16 ops) = force_use_bf16 ops ∧
  name <$> force_use_bf16 ops = name <$> ops ∧
  class_name <$> force_use_bf16 ops = class_name <$> ops.
Proof.
  assert (∀ op, class_name (force_use_bf16_op op) = class_name op ∧
                name (force_use_bf16_op op) = name op) as Hfixed.
  { intros op. apply foldl_downgrade_fixed. }
  unfold force_use_bf16. split_and!.
  - rewrite <-list_fmap_compose. apply list_fmap_ext. intros _ op _. simpl.
    destruct (Hfixed (force_use_bf16_op op)) as [Hc Hn].
    destruct (force_use_bf16_op (force_use_bf16_op op)) as [c n a] eqn:E2.
    destruct (force_use_bf16_op op) as [c1 n1 a1] eqn:E1. simpl in *. subst.
    f_equal. apply map_eq. intros key.
    pose proof (force_use_bf16_op_lookup {| class_name := c1; name := n1; attrs := a1 |} key)
      as H2.
    rewrite E2 in H2. simpl in H2. rewrite H2.
    pose proof (force_use_bf16_op_lookup op key) as H1. rewrite E1 in H1. simpl in H1.
    destruct (endswith key "_dtype"); [|done].
    rewrite H1. destruct (attrs op !! key) as [v|]; simpl; [|done].
    by rewrite downgraded_idemp.
  - rewrite <-list_fmap_compose. apply list_fmap_ext. intros _ op _. simpl.
    apply Hfixed.
  - rewrite <-list_fmap_compose. apply list_fmap_ext. intros _ op _. simpl.
    apply Hfixed.
Qed.

Lemma prepare_ops_value_names (ops ops' : list Op) (env : Environment) :
  prepare_ops ops env = Ok ops' →
  length ops' = length ops ∧
  ∀ i op, ops' !! i = Some op →
    ∃ op0, ops !! i = Some op0 ∧
           class_name op = class_name op0 ∧
           name op = op_name_at i (class_name op0) ∧
           (fp8_enabled env = true → attrs op = attrs op0).
Proof.
  unfold prepare_ops. destruct (bool_decide (1 < world_size env)%Z); [done|].
  intros ?; simplify_eq. split.
  - unfold force_use_bf16, name_ops.
    destruct (fp8_enabled env); by rewrite ?length_fmap, length_imap.
  - intros i op Hop. destruct (fp8_enabled env).
    + pose proof (name_ops_lookup _ _ _ Hop) as Hname.
      apply name_ops_attrs in Hop as (op0 & H0 & Ha & Hc).
      exists op0. rewrite Hname, Hc. done.
    + unfold force_use_bf16 in Hop. rewrite list_lookup_fmap in Hop.
      destruct (name_ops ops !! i) as [op1|] eqn:E; [|done]. simpl in Hop. simplify_eq.
      pose proof (name_ops_lookup _ _ _ E) as Hname.
      apply name_ops_attrs in E as (op0 & H0 & Ha & Hc).
      destruct (foldl_downgrade_fixed (dtype_attributes op1) op1) as [Hc' Hn'].
      exists op0. unfold force_use_bf16_op. rewrite Hc', Hn', Hname, Hc. done.
Qed.

Lemma foldl_alter_lookup (f : Op → Op) ids h (a : nat) :
  NoDup ids →
  foldl (λ h a, alter f a h) h ids !! a
  = if decide (a ∈ ids) then f <$> h !! a else h !! a.
Proof.
  revert h. induction ids as [|b ids IH]; intros h Hnd; simpl.
  { destruct (decide (a ∈ [])) as [Hin|_]; [by apply elem_of_nil in Hin|done]. }
  apply NoDup_cons in Hnd as [Hb Hnd]. rewrite IH by done.
  destruct (decide (a = b)) as [->|Hne].
  - destruct (decide (b ∈ ids)) as [?|_]; [done|].
    destruct (decide (b ∈ b :: ids)) as [_|Hn]; [|set_solver].
    by rewrite lookup_alter_eq.
  - rewrite lookup_alter_ne by done.
    destruct (decide (a ∈ ids)), (decide (a ∈ b :: ids)); set_solver.
Qed.

Lemma force_use_bf16_in_place_distinct ids h (ops : list Op) :
  NoDup ids → Forall2 (λ a op, h !! a = Some op) ids ops →
  Forall2 (λ a op, force_use_bf16_in_place ids h !! a = Some op) ids (force_use_bf16 ops).
Proof.
  intros Hnd Hall. unfold force_use_bf16. apply Forall2_fmap_r.
  apply Forall2_same_length_lookup. split; [by eapply Forall2_length|].
  intros i a op Ha Hop.
  destruct (Forall2_lookup_l _ _ _ _ _ Hall Ha) as (op' & Hop' & Hh). simplify_eq.
  unfold force_use_bf16_in_place. rewrite foldl_alter_lookup by done.
  destruct (decide (a ∈ ids)) as [_|Hn]; [by rewrite Hh|].
  exfalso. apply Hn. by eapply list_elem_of_lookup_2.
Qed.

(** X27. On a list that holds no object twice, the objects that
    construction hands to the fusion engine are, when its first steps
    return, in the states that [prepare_ops] lists: one operation per
    given operation, in order, each with its class and with the name
    built from its position, whether or not the downgrade ran; and when
    low precision is enabled no attribute is changed at all. *)
Theorem prepare_ops_names ids h h' (ops : list Op) (env : Environment) :
  NoDup ids → Forall2 (λ a op, h !! a = Some op) ids ops →
  prepare_in_place ids env h = Ok h' →
  ∃ ops', prepare_ops ops env = Ok ops' ∧
          Forall2 (λ a op, h' !! a = Some op) ids ops' ∧
          length ops' = length ops ∧
          ∀ i op, ops' !! i = Some op →
            ∃ op0, ops !! i = Some op0 ∧
                   class_name op = class_name op0 ∧
                   name op = op_name_at i (class_name op0) ∧
                   (fp8_enabled env = true → attrs op = attrs op0).
Proof.
  intros Hnd Hall Hprep.
  assert (∃ ops', prepare_ops ops env = Ok ops' ∧
                  Forall2 (λ a op, h' !! a = Some op) ids ops') as (ops' & Hops' & Hstate).
  { unfold prepare_in_place in Hprep. unfold prepare_ops.
    destruct (bool_decide (1 < world_size env)%Z); [done|]. simplify_eq.
    eexists. split; [done|].
    pose proof (name_ops_in_place_distinct ids h ops Hnd Hall) as Hnamed.
    destruct (fp8_enabled env); [done|].
    by apply force_use_bf16_in_place_distinct. }
  exists ops'. split; [done|]. split; [done|].
  by apply prepare_ops_value_names.
Qed.

End NamingProofs.

Module ConstructionProofs.
Import Partition Pipeline PartitionRuns PartitionProofs PartitionRunsProofs.

Section construction.
Variable get_fused_op_list : list Op → Mode → list (Item Op).

(** X8. When construction returns a pipeline, the world size is at most
    one (above one nothing is returned), [_inf], [forward] and
    [backward] are the fused inference, forward and backward lists of
    the prepared operations, [functions] is what the partitioner
    returned for the two latter, which therefore span the same
    elementary operations, and there are at most as many units as
    forward items. *)
Theorem init_returns (ops : list Op) (env : Environment) (p : ComputePipeline) :
  init get_fused_op_list ops env = Some (Ok p) →
  (world_size env ≤ 1)%Z ∧
  ∃ ops', prepare_ops ops env = Ok ops' ∧
          _inf p = get_fused_op_list ops' Inference ∧
          forward p = get_fused_op_list ops' Forward ∧
          backward p = get_fused_op_list ops' Backward ∧
          split_into_self_contained (forward p) (backward p) = Some (Ok (functions p)) ∧
          ops_of (forward p) = ops_of (backward p) ∧
          length (functions p) ≤ length (forward p).
Proof.
  unfold init, prepare_ops.
  destruct (bool_decide (1 < world_size env)%Z) eqn:Hw; [done|].
  apply bool_decide_eq_false in Hw.
  set (ops' := if fp8_enabled env then name_ops ops else force_use_bf16 (name_ops ops)).
  destruct (split_into_self_contained (get_fused_op_list ops' Forward)
                                      (get_fused_op_list ops' Backward))
    as [[units|e]|] eqn:Hr; [|done..].
  intros ?; simplify_eq. split; [lia|]. exists ops'. simpl.
  pose proof Hr as (new & Hnew & Hf & Hb & Hall)%split_loop_ok. simpl in Hnew. subst new.
  pose proof Hr as (_ & Hlen & _)%split_passes%passes_groups.
  rewrite Hf, Hb. split_and!; try done.
  rewrite <-Hf, <-Hb. by apply ops_of_units.
Qed.

End construction.
End ConstructionProofs.

Module UnitRunsProofs.
Import Partition Pipeline Unit PartitionProofs UnitProofs RunsProofs.

Section runs.
Context {T : Type}.
Variable op_forward : Item Op → T → T * gmap string T.

(** X9. Running the returned units one after the other, each on the
    output of the one before, passes the tensor through the items of the
    forward list in their original order: the final output is that of
    calling the forward items one by one. *)
Theorem units_forward_chain (fwds0 bwds0 : list (Item Op)) units (x : T) :
  split_into_self_contained fwds0 bwds0 = Some (Ok units) →
  foldl (λ x u, (Unit.forward op_forward u x).1) x units
  = foldl (λ x it, (op_forward it x).1) x fwds0.
Proof.
  intros (new & Hnew & Hf & _)%split_loop_ok. simpl in Hnew. subst new.
  rewrite <-Hf. apply units_forward_concat.
Qed.

(** X10. Stripping a name from a context that was saved under a longer
    name leaves the entries under the rest of that name; stripping the
    very name under which a context was saved gives the context back;
    and the stripped union of two contexts is the union of the stripped
    contexts. So in backward a member also receives what was saved
    under any name that begins with its own. *)
Theorem strip_prefix_ctx (n m : string) (c c' : gmap string T) :
  strip_ctx n (prefix_ctx (n +:+ m) c) = prefix_ctx m c ∧
  strip_ctx n (prefix_ctx n c) = c ∧
  strip_ctx n (c ∪ c') = strip_ctx n c ∪ strip_ctx n c'.
Proof.
  assert (∀ m, strip_ctx n (prefix_ctx (n +:+ m) c) = prefix_ctx m c) as Hlaw.
  { intros m'. apply map_eq. intros key. rewrite strip_ctx_lookup. unfold prefix_ctx.
    destruct (kmap (String.app m') c !! key) as [v|] eqn:E.
    - apply (lookup_kmap_Some (String.app m')) in E as (k & -> & Hk).
      rewrite <-app_assoc_string. by rewrite (lookup_kmap (String.app (n +:+ m'))).
    - apply (lookup_kmap_None (String.app (n +:+ m'))). intros k Hk.
      rewrite app_assoc_string in Hk. apply (inj (String.app n)) in Hk. subst key.
      by rewrite (lookup_kmap (String.app m')) in E. }
  split_and!.
  - apply Hlaw.
  - specialize (Hlaw ""). unfold prefix_ctx in Hlaw.
    assert (n +:+ "" = n) as Hn.
    { clear. induction n as [|ch n IH]; [done|]. by rewrite app_cons_string, IH. }
    rewrite Hn in Hlaw. unfold prefix_ctx. rewrite Hlaw.
    apply map_eq. intros key. by rewrite <-(lookup_kmap (String.app "") c key).
  - apply map_eq. intros key. rewrite lookup_union, !strip_ctx_lookup.
    by rewrite lookup_union.
Qed.

End runs.
End UnitRunsProofs.

Module SquishOutcomes.
Import Squish SquishProofs.

Lemma unsnoc_None (l : list nat) : unsnoc l = None → l = [].
Proof. destruct l as [|n l]; [done|]. simpl. by destruct (unsnoc l) as [[??]|]. Qed.

Lemma unsnoc_Some (l outer : list nat) (n : nat) :
  unsnoc l = Some (outer, n) → l = outer ++ [n].
Proof.
  revert outer. induction l as [|m l IH]; intros outer; simpl; [done|].
  destruct (unsnoc l) as [[outer' n']|] eqn:E.
  - intros [= <- <-]. simpl. f_equal. by apply IH.
  - intros [= <- <-]. apply unsnoc_None in E. by subst.
Qed.

Lemma view_double_outcomes (t : TorchTensor) (d : TorchDType) :
  element_size d = 2 * element_size (dtype t) →
  match view t d with
  | Ok t' => ∃ outer n, shape t = outer ++ [2 * n] ∧
                        Forall (λ s, s `mod` 2 = 0) (outer_stride t) ∧
                        t' = {| dtype := d; shape := outer ++ [n];
                                outer_stride := (λ s, s `div` 2) <$> outer_stride t;
                                storage := storage t |}
  | Raise e => (∃ msg, e = RuntimeError msg) ∧
               (shape t = [] ∨ (∃ outer n, shape t = outer ++ [2 * n + 1]) ∨
                Exists (λ s, s `mod` 2 ≠ 0) (outer_stride t))
  end.
Proof.
  intros Hsz. pose proof (element_size_pos (dtype t)) as Hpos.
  unfold view. rewrite Hsz.
  assert ((2 * element_size (dtype t)) `div` element_size (dtype t) = 2) as ->.
  { apply Nat.div_mul. lia. }
  destruct (decide (element_size (dtype t) = 2 * element_size (dtype t))) as [?|_]; [lia|].
  destruct (unsnoc (shape t)) as [[outer n]|] eqn:E.
  - apply unsnoc_Some in E.
    destruct (decide (element_size (dtype t) < 2 * element_size (dtype t))) as [_|?]; [|lia].
    pose proof (Nat.div_mod_eq n 2) as Hn.
    pose proof (Nat.mod_upper_bound n 2) as Hlt.
    destruct (decide (n `mod` 2 = 0)) as [Heven|Hodd].
    + destruct (decide (Forall (λ s, s `mod` 2 = 0) (outer_stride t))) as [Hos|Hos].
      * exists outer, (n `div` 2). split_and!; [|done..]. rewrite E. do 2 f_equal. lia.
      * split; [by eexists|]. right. right.
        by apply (not_Forall_Exists _) in Hos.
    + split; [by eexists|]. right. left.
      exists outer, (n `div` 2). rewrite E. do 2 f_equal. lia.
  - apply unsnoc_None in E. split; [by eexists|]. by left.
Qed.

Lemma squish_cases (t : TorchTensor) :
  match _squish t with
  | Ok t' =>
      ∃ d outer n, dict_get SQUISH_TABLE (dtype t) = Some d ∧
                   shape t = outer ++ [2 * n] ∧
                   Forall (λ s, s `mod` 2 = 0) (outer_stride t) ∧
                   t' = {| dtype := d; shape := outer ++ [n];
                           outer_stride := (λ s, s `div` 2) <$> outer_stride t;
                           storage := storage t |}
  | Raise e =>
      (∃ msg, e = RuntimeError msg) ∧
      (dict_get SQUISH_TABLE (dtype t) = None ∨ shape t = [] ∨
       (∃ outer n, shape t = outer ++ [2 * n + 1]) ∨
       Exists (λ s, s `mod` 2 ≠ 0) (outer_stride t))
  end.
Proof.
  unfold _squish. destruct (dict_get SQUISH_TABLE (dtype t)) as [d|] eqn:Hd.
  - destruct (squish_table_sizes _ _ Hd) as [Hsz _].
    pose proof (view_double_outcomes t d Hsz) as Hv.
    destruct (view t d) as [t'|e].
    + destruct Hv as (outer & n & Hs & Hos & Ht). by exists d, outer, n.
    + destruct Hv as [Hmsg Hwhy]. split; [done|]. by right.
  - split; [by eexists|]. by left.
Qed.


Lemma unsquish_table_sizes (d d' : TorchDType) :
  dict_get UNSQUISH_TABLE d = Some d' →
  element_size d = 2 * element_size d' ∧ dict_get SQUISH_TABLE d' = Some d.
Proof. destruct d; simpl; intros [= <-]; done. Qed.

(** X12. [_unsquish] fails its assertion exactly for a dtype that is not
    a value of the squish table, and otherwise fails only on a tensor
    without dimension (the RuntimeError of the view). When it returns,
    the result has the dtype that the table squishes to the given one,
    the last dimension and the strides before it doubled and the same
    bytes, and squishing it gives the tensor back. *)
Theorem unsquish_outcomes (t : TorchTensor) :
  match _unsquish t with
  | Ok t' =>
      ∃ d outer n, dict_get UNSQUISH_TABLE (dtype t) = Some d ∧
                   shape t = outer ++ [n] ∧
                   t' = {| dtype := d; shape := outer ++ [n * 2];
                           outer_stride := (λ s, s * 2) <$> outer_stride t;
                           storage := storage t |} ∧
                   _squish t' = Ok t
  | Raise e =>
      (e = AssertionError ∧ dict_get UNSQUISH_TABLE (dtype t) = None) ∨
      ((∃ msg, e = RuntimeError msg) ∧
       is_Some (dict_get UNSQUISH_TABLE (dtype t)) ∧ shape t = [])
  end.
Proof.
  unfold _unsquish. destruct (dict_get UNSQUISH_TABLE (dtype t)) as [d|] eqn:Hd.
  - destruct (unsquish_table_sizes _ _ Hd) as [Hsz Hsq].
    destruct t as [dt sh os st]. cbn [dtype shape outer_stride storage] in *.
    destruct (unsnoc sh) as [[outer n]|] eqn:E.
    + apply unsnoc_Some in E. subst sh. rewrite view_half by done.
      exists d, outer, n. split_and!; try done.
      unfold _squish. cbn [dtype]. rewrite Hsq.
      rewrite view_double; [|done|by rewrite Nat.Div0.mod_mul|apply double_even].
      by rewrite Nat.div_mul, half_double.
    + apply unsnoc_None in E. subst sh. unfold view. cbn [dtype shape].
      pose proof (element_size_pos d).
      destruct (decide (element_size dt = element_size d)) as [?|_]; [lia|].
      right. split; [by eexists|]. split; [by eexists|done].
  - by left.
Qed.

End SquishOutcomes.

Module ExposureProofs.
Import Partition Pipeline Squish Boundary Exposure SquishProofs SquishOutcomes.

Section boundary.
Variable nvte_Tensor : list TorchTensor → Outcome NvteTensor.
Variable op_forward : Item Op → NvteTensor → NvteTensor * gmap string NvteTensor.
Variable torch_to_te_dtype : TorchDType → DType.
Variable op_backward :
  Item Op → gmap string NvteTensor → NvteTensor → NvteTensor * list NvteTensor.

(** X13. What [forward] exposes fits what [backward] expects. The
    exposed output shares the bytes of the raw output and has its size
    in bytes; it differs from it in dtype exactly when forward recorded
    that the incoming gradient is to be unsquished, which is the flag
    that [apply] computes for the next unit; and in the backward that
    runs first, a host gradient with the dtype and shape of the exposed
    output reaches the unit with the dtype and shape of the raw output
    and its own bytes. *)
Theorem forward_gradient_shape (_args : ForwardArgs) (exposed_x : TorchTensor)
    (tensor_mess : list TorchTensor) (ctx : FunctionCtx) (y d a s si : TorchTensor) :
  forward nvte_Tensor op_forward _args exposed_x tensor_mess = Ok (ctx, (y, d, a, s, si)) →
  squished_now y d = nvte_unsquish_incoming_dgrad ctx ∧
  nvte_squish_outgoing_dgrad ctx = is_exposed_x_squished_now _args ∧
  storage y = storage d ∧
  numel y * element_size (dtype y) = numel d * element_size (dtype d) ∧
  ∀ comms grad,
    comms !! nvte_preceding_backward_comm ctx = None →
    dtype grad = dtype y → shape grad = shape y →
    ∃ g, incoming_grad torch_to_te_dtype comms ctx grad = Ok g ∧
         dtype (data g) = dtype d ∧ shape (data g) = shape d ∧
         storage (data g) = storage grad.
Proof.
  unfold forward. destruct (nvte_Tensor (last_four tensor_mess)) as [nvte_x|e]; [|done].
  simpl. set (nvte_y := (Unit.forward op_forward (op _args) nvte_x).1).
  unfold get_exposed_y. destruct (decide (dtype (data nvte_y) = int8)) as [Hint|Hint].
  - pose proof (squish_cases (data nvte_y)) as Hsq.
    destruct (_squish (data nvte_y)) as [y'|e]; [|done]. simpl.
    destruct Hsq as (d' & outer & n & Hd' & Hshape & _ & ->).
    rewrite Hint in Hd'. simpl in Hd'. simplify_eq.
    intros ?; simplify_eq. unfold squished_now. cbn [dtype shape storage].
    fold nvte_y. rewrite Hint.
    split_and!; [done|done|done| |].
    + unfold numel. cbn [shape]. rewrite Hshape, !foldr_mul_snoc. simpl. lia.
    + intros comms grad Hrelay Hdt Hsh. unfold incoming_grad. rewrite Hrelay.
      cbn [nvte_unsquish_incoming_dgrad]. destruct grad as [gd gs gos gst].
      cbn [dtype shape] in Hdt, Hsh. subst gd gs.
      unfold _unsquish. cbn [dtype]. simpl dict_get. cbv iota.
      rewrite view_half by done. simpl. eexists. split; [done|].
      cbn [data dtype shape storage]. split_and!; [done| |done].
      rewrite Hshape. unfold make_nvte_tensor. cbn [data shape].
      f_equal. f_equal. lia.
  - simpl. intros ?; simplify_eq. fold nvte_y. unfold squished_now.
    split_and!; [|done|done|done|].
    + simpl. by rewrite bool_decide_eq_false_2 by (by intros ?).
    + intros comms grad Hrelay Hdt Hsh. unfold incoming_grad. rewrite Hrelay.
      simpl. eexists. split; [done|]. by simpl.
Qed.


Lemma forallb_not_fp8_true (grads : list NvteTensor) :
  forallb (λ g, negb (is_fp8_tensor g)) grads = true →
  Forall (λ g, is_fp8_tensor g = false) grads.
Proof.
  induction grads as [|g grads IH]; simpl; [constructor|].
  intros [Hg Hrest]%andb_prop. constructor; [by destruct (is_fp8_tensor g)|by apply IH].
Qed.

(** X15. [backward] returns only when no parameter gradient is
    low-precision and, for the unit without upcoming backward, the data
    gradient is not low-precision either. It then leaves every relay
    but its upcoming one as it was, and returns the data gradient
    (squished when forward asked for it), the data of each parameter
    gradient in order, and three times None. *)
Theorem backward_returns (comms comms' : gmap nat NvteTensor) (ctx : FunctionCtx)
    (grad_output : TorchTensor) (outs : list (option TorchTensor)) :
  Boundary.backward torch_to_te_dtype op_backward comms ctx grad_output = Ok (comms', outs) →
  ∃ nvte_grad d,
    incoming_grad torch_to_te_dtype comms ctx grad_output = Ok nvte_grad ∧
    Forall (λ g, is_fp8_tensor g = false)
      (Unit.backward op_backward (nvte_op ctx) (nvte_ctx ctx) nvte_grad).2 ∧
    (nvte_upcoming_backward_comm ctx = None →
     is_fp8_tensor (Unit.backward op_backward (nvte_op ctx) (nvte_ctx ctx) nvte_grad).1
       = false ∧ comms' = comms) ∧
    (∀ k, nvte_upcoming_backward_comm ctx ≠ Some k → comms' !! k = comms !! k) ∧
    (if nvte_squish_outgoing_dgrad ctx
     then _squish (data (Unit.backward op_backward (nvte_op ctx) (nvte_ctx ctx) nvte_grad).1)
          = Ok d
     else d = data (Unit.backward op_backward (nvte_op ctx) (nvte_ctx ctx) nvte_grad).1) ∧
    outs = Some d ::
           ((λ g, Some (data g)) <$>
              (Unit.backward op_backward (nvte_op ctx) (nvte_ctx ctx) nvte_grad).2)
           ++ [None; None; None].
Proof.
  unfold Boundary.backward.
  destruct (incoming_grad torch_to_te_dtype comms ctx grad_output) as [nvte_grad|e];
    [|done]. simpl.
  set (r := Unit.backward op_backward (nvte_op ctx) (nvte_ctx ctx) nvte_grad).
  intros Hb.
  assert (∃ c, match nvte_upcoming_backward_comm ctx with
               | None => if is_fp8_tensor r.1 then Raise AssertionError else Ok comms
               | Some slot => Ok (<[slot := r.1]> comms)
               end = Ok c) as [c Hc].
  { destruct (nvte_upcoming_backward_comm ctx); [by eexists|].
    destruct (is_fp8_tensor r.1); [done|by eexists]. }
  rewrite Hc in Hb. simpl in Hb.
  destruct (forallb (λ g, negb (is_fp8_tensor g)) r.2) eqn:Hall; [|done].
  apply forallb_not_fp8_true in Hall.
  assert (∃ d, (if nvte_squish_outgoing_dgrad ctx then _squish (data r.1)
                else Ok (data r.1)) = Ok d) as [d Hd].
  { destruct (nvte_squish_outgoing_dgrad ctx); [|by eexists].
    destruct (_squish (data r.1)); [by eexists|done]. }
  rewrite Hd in Hb. simpl in Hb. simplify_eq.
  exists nvte_grad, d. fold r. split_and!; try done.
  - intros Hup. rewrite Hup in Hc. destruct (is_fp8_tensor r.1); by simplify_eq.
  - intros k Hk. destruct (nvte_upcoming_backward_comm ctx) as [slot|].
    + simplify_eq. apply lookup_insert_ne. congruence.
    + destruct (is_fp8_tensor r.1); by simplify_eq.
  - destruct (nvte_squish_outgoing_dgrad ctx); [done|by simplify_eq].
Qed.

(** X16. The hand-over between two neighbouring units whose boundary is
    not squished: when the backward of the later unit returns, the
    backward of the earlier one, whose preceding relay is the later
    one's upcoming relay, consumes exactly the data gradient the later
    unit produced, whatever gradient the host passes to it. *)
Theorem relay_hand_over (comms comms' : gmap nat NvteTensor) (later earlier : FunctionCtx)
    (k : nat) (grad_output : TorchTensor) (outs : list (option TorchTensor)) :
  nvte_upcoming_backward_comm later = Some k →
  nvte_preceding_backward_comm earlier = k →
  nvte_squish_outgoing_dgrad later = false →
  Boundary.backward torch_to_te_dtype op_backward comms later grad_output
    = Ok (comms', outs) →
  ∃ nvte_grad,
    incoming_grad torch_to_te_dtype comms later grad_output = Ok nvte_grad ∧
    ∀ host_grad,
      incoming_grad torch_to_te_dtype comms' earlier host_grad
      = Ok (Unit.backward op_backward (nvte_op later) (nvte_ctx later) nvte_grad).1.
Proof.
  intros Hup Hpre Hsq. unfold Boundary.backward.
  destruct (incoming_grad torch_to_te_dtype comms later grad_output) as [nvte_grad|e];
    [|done]. simpl. rewrite Hup, Hsq. simpl.
  destruct (forallb _ _); [|done]. simpl. intros ?; simplify_eq.
  exists nvte_grad. split; [done|]. intros host_grad.
  unfold incoming_grad. by rewrite lookup_insert_eq.
Qed.

Lemma forward_ctx (_args : ForwardArgs) (exposed_x : TorchTensor)
    (tensor_mess : list TorchTensor) (ctx : FunctionCtx) (y d a s si : TorchTensor) :
  forward nvte_Tensor op_forward _args exposed_x tensor_mess = Ok (ctx, (y, d, a, s, si)) →
  nvte_op ctx = op _args ∧
  nvte_preceding_backward_comm ctx = next_upcoming_backward _args ∧
  nvte_upcoming_backward_comm ctx = upcoming_backward _args ∧
  nvte_squish_outgoing_dgrad ctx = is_exposed_x_squished_now _args ∧
  nvte_unsquish_incoming_dgrad ctx = squished_now y d ∧
  (if nvte_unsquish_incoming_dgrad ctx
   then dtype d = int8 ∧ _squish d = Ok y
   else y = d).
Proof.
  unfold forward. destruct (nvte_Tensor (last_four tensor_mess)) as [nvte_x|e]; [|done].
  simpl. set (nvte_y := (Unit.forward op_forward (op _args) nvte_x).1).
  unfold get_exposed_y. destruct (decide (dtype (data nvte_y) = int8)) as [Hint|Hint].
  - pose proof (squish_cases (data nvte_y)) as Hsq.
    destruct (_squish (data nvte_y)) as [y'|e] eqn:E; [|done]. simpl.
    destruct Hsq as (d' & outer & n & Hd' & Hshape & _ & ->).
    rewrite Hint in Hd'. simpl in Hd'. simplify_eq.
    intros ?; simplify_eq. simpl. fold nvte_y. unfold squished_now. simpl.
    rewrite Hint. done.
  - simpl. intros ?; simplify_eq. simpl. fold nvte_y. unfold squished_now.
    by rewrite bool_decide_eq_false_2 by (by intros ?).
Qed.

(** X28. How [apply] wires two neighbouring units: the later unit is
    told to squish its outgoing gradient exactly when the earlier one
    recorded that its incoming gradient is to be unsquished, and the
    relay into which the later backward writes is the one from which the
    earlier backward reads; the first unit of a pipeline squishes
    nothing and writes into no relay. *)
Theorem apply_wires_neighbours (_args : ForwardArgs) (exposed_x : TorchTensor)
    (tensor_mess rest : list TorchTensor) (ctx ctx' : FunctionCtx)
    (y d a s si : TorchTensor) (contained_op : SelfContainedOp Op) (fresh : nat)
    (out' : TorchTensor * TorchTensor * TorchTensor * TorchTensor * TorchTensor) :
  forward nvte_Tensor op_forward _args exposed_x tensor_mess = Ok (ctx, (y, d, a, s, si)) →
  forward nvte_Tensor op_forward (next_unit_args _args y d contained_op fresh) y
    (rest ++ [d; a; s; si]) = Ok (ctx', out') →
  nvte_squish_outgoing_dgrad ctx' = nvte_unsquish_incoming_dgrad ctx ∧
  nvte_upcoming_backward_comm ctx' = Some (nvte_preceding_backward_comm ctx) ∧
  nvte_op ctx' = contained_op ∧
  ∀ x0 mess0 ctx0 out0,
    forward nvte_Tensor op_forward (first_unit_args contained_op fresh) x0 mess0
      = Ok (ctx0, out0) →
    nvte_squish_outgoing_dgrad ctx0 = false ∧ nvte_upcoming_backward_comm ctx0 = None.
Proof.
  intros (_ & Hpre & _ & _ & Hun & _)%forward_ctx Hnext.
  destruct out' as [[[[y' d'] a'] s'] si'].
  apply forward_ctx in Hnext as (Hop & _ & Hup & Hsq & _).
  split_and!.
  - by rewrite Hsq, Hun.
  - by rewrite Hup, Hpre.
  - done.
  - intros x0 mess0 ctx0 [[[[y0 d0] a0] s0] si0] H0.
    by apply forward_ctx in H0 as (_ & _ & Hup0 & Hsq0 & _).
Qed.

(** X29. The gradient that the later of two neighbouring units returns
    to the host fits the tensor that the earlier one exposed: if the
    later unit squishes its outgoing gradient exactly when the earlier
    one unsquishes its incoming one, and the data gradient it computes
    has the dtype and shape of the earlier unit's raw output, then its
    backward, when it returns, returns first a gradient with the dtype
    and shape of the exposed output. *)
Theorem outgoing_gradient_shape (_args : ForwardArgs) (exposed_x : TorchTensor)
    (tensor_mess : list TorchTensor) (ctx later : FunctionCtx) (y d a s si : TorchTensor)
    (comms comms' : gmap nat NvteTensor) (grad_output : TorchTensor)
    (nvte_grad : NvteTensor) (outs : list (option TorchTensor)) :
  forward nvte_Tensor op_forward _args exposed_x tensor_mess = Ok (ctx, (y, d, a, s, si)) →
  nvte_squish_outgoing_dgrad later = nvte_unsquish_incoming_dgrad ctx →
  incoming_grad torch_to_te_dtype comms later grad_output = Ok nvte_grad →
  dtype (data (Unit.backward op_backward (nvte_op later) (nvte_ctx later) nvte_grad).1)
    = dtype d →
  shape (data (Unit.backward op_backward (nvte_op later) (nvte_ctx later) nvte_grad).1)
    = shape d →
  Boundary.backward torch_to_te_dtype op_backward comms later grad_output
    = Ok (comms', outs) →
  ∃ e, head outs = Some (Some e) ∧ dtype e = dtype y ∧ shape e = shape y.
Proof.
  intros (_ & _ & _ & _ & _ & Hy)%forward_ctx Hflag Hin Hdt Hsh.
  unfold Boundary.backward. rewrite Hin. simpl.
  set (r := Unit.backward op_backward (nvte_op later) (nvte_ctx later) nvte_grad) in *.
  destruct (match nvte_upcoming_backward_comm later with
            | Some slot => _ | None => _ end) as [c|]; [|done]. simpl.
  destruct (forallb _ _); [|done]. rewrite Hflag.
  destruct (nvte_unsquish_incoming_dgrad ctx).
  - destruct Hy as [Hint Hsq].
    pose proof (squish_cases d) as Hd. rewrite Hsq in Hd.
    destruct Hd as (d' & outer & n & Hd' & Hshape & _ & ->).
    pose proof (squish_cases (data r.1)) as Hg.
    destruct (_squish (data r.1)) as [e|]; [|done]. simpl. intros ?; simplify_eq.
    destruct Hg as (d'' & outer' & n' & Hd'' & Hshape' & _ & ->).
    rewrite Hdt in Hd''. rewrite Hd' in Hd''. simplify_eq.
    rewrite Hsh, Hshape in Hshape'. apply app_inj_tail in Hshape' as [-> Hn].
    eexists. split; [done|]. simpl. split; [done|]. f_equal. f_equal. lia.
  - subst y. simpl. intros ?; simplify_eq. eexists. split; [done|]. done.
Qed.

End boundary.
End ExposureProofs.

Module ShapesProofs.
Import Ops Shapes.

Implicit Types (s outer : list Z) (w rows cols : Z).

Lemma shape_two_last s :
  2 ≤ length s → ∃ outer rows cols, s = outer ++ [rows; cols].
Proof.
  intros Hlen. destruct s as [|cols s] using rev_ind; [simpl in Hlen; lia|].
  clear IHs. destruct s as [|rows s] using rev_ind.
  { simpl in Hlen. lia. }
  exists s, rows, cols. by rewrite <-app_assoc.
Qed.

Lemma but_last_two_app outer rows cols : but_last_two (outer ++ [rows; cols]) = outer.
Proof.
  unfold but_last_two. rewrite length_app. simpl.
  replace (length outer + 2 - 2) with (length outer) by lia.
  by rewrite take_app_length.
Qed.

Lemma item_from_end_1 outer rows cols : item_from_end (outer ++ [rows; cols]) 1 = Ok cols.
Proof.
  unfold item_from_end. rewrite length_app. simpl.
  destruct (decide (1 ≤ length outer + 2)) as [_|?]; [|lia].
  rewrite lookup_app_r by lia.
  by replace (length outer + 2 - 1 - length outer) with 1 by lia.
Qed.

Lemma item_from_end_2 outer rows cols : item_from_end (outer ++ [rows; cols]) 2 = Ok rows.
Proof.
  unfold item_from_end. rewrite length_app. simpl.
  destruct (decide (2 ≤ length outer + 2)) as [_|?]; [|lia].
  rewrite lookup_app_r by lia.
  by replace (length outer + 2 - 2 - length outer) with 0 by lia.
Qed.

Lemma item_from_end_short s (k : nat) : length s < k → item_from_end s k = Raise IndexError.
Proof. intros Hlt. unfold item_from_end. destruct (decide (k ≤ length s)); [lia|done]. Qed.

Lemma row_split_shape_app outer rows cols w :
  row_split_shape (outer ++ [rows; cols]) w
  = if decide (w = 0)%Z then Raise ZeroDivisionError
    else if decide (rows `mod` w = 0)%Z then Ok (outer ++ [(rows `div` w)%Z; cols])
         else Raise AssertionError.
Proof.
  unfold row_split_shape. rewrite length_app. simpl.
  destruct (decide (2 ≤ length outer + 2)) as [_|?]; [|lia].
  rewrite item_from_end_1, item_from_end_2, but_last_two_app. simpl.
  unfold py_mod, py_floordiv. destruct (decide (w = 0)%Z); [done|]. simpl.
  by destruct (decide (rows `mod` w = 0)%Z).
Qed.

Lemma row_merge_shape_app outer rows cols w :
  row_merge_shape (outer ++ [rows; cols]) w = Ok (outer ++ [(rows * w)%Z; cols]).
Proof.
  unfold row_merge_shape. rewrite length_app. simpl.
  destruct (decide (2 ≤ length outer + 2)) as [_|?]; [|lia].
  by rewrite item_from_end_1, item_from_end_2, but_last_two_app.
Qed.

Lemma row_split_shape_short s w : length s < 2 → row_split_shape s w = Raise AssertionError.
Proof. intros. unfold row_split_shape. destruct (decide (2 ≤ length s)); [lia|done]. Qed.

Lemma row_merge_shape_short s w : length s < 2 → row_merge_shape s w = Raise AssertionError.
Proof. intros. unfold row_merge_shape. destruct (decide (2 ≤ length s)); [lia|done]. Qed.

Lemma row_split_merge s s' w :
  row_split_shape s w = Ok s' → row_merge_shape s' w = Ok s ∧ length s' = length s.
Proof.
  intros Hs. destruct (decide (2 ≤ length s)) as [Hlen|Hlen].
  - destruct (shape_two_last s Hlen) as (outer & rows & cols & ->).
    rewrite row_split_shape_app in Hs.
    destruct (decide (w = 0)%Z) as [|Hw]; [done|].
    destruct (decide (rows `mod` w = 0)%Z) as [Hdiv|]; [|done]. simplify_eq.
    rewrite row_merge_shape_app, !length_app. split; [|done]. do 3 f_equal.
    apply Z.div_exact in Hdiv; [|done]. lia.
  - rewrite row_split_shape_short in Hs by lia. done.
Qed.

(** X17. Splitting the rows of a shape and merging them again gives the
    shape back: whenever [row_split_shape] returns, [row_merge_shape] of
    its result for the same number of workers is the original shape,
    and the number of dimensions is unchanged. *)
Theorem row_split_then_merge s s' w :
  row_split_shape s w = Ok s' → row_merge_shape s' w = Ok s ∧ length s' = length s.
Proof. apply row_split_merge. Qed.

Lemma row_merge_split s w :
  w ≠ 0%Z → 2 ≤ length s →
  ∃ s', row_merge_shape s w = Ok s' ∧ row_split_shape s' w = Ok s.
Proof.
  intros Hw Hlen. destruct (shape_two_last s Hlen) as (outer & rows & cols & ->).
  rewrite row_merge_shape_app. eexists. split; [done|].
  rewrite row_split_shape_app. destruct (decide (w = 0)%Z); [done|].
  rewrite Z.mod_mul by done. destruct (decide (0 = 0)%Z); [|done].
  by rewrite Z.div_mul.
Qed.

(** X18. Merging the rows of a shape of at least two dimensions for a
    number of workers that is not zero, and splitting the result again,
    gives the shape back: the merged row count is always a multiple of
    the number of workers. *)
Theorem row_merge_then_split s w :
  w ≠ 0%Z → 2 ≤ length s →
  ∃ s', row_merge_shape s w = Ok s' ∧ row_split_shape s' w = Ok s.
Proof. apply row_merge_split. Qed.

(** X19. How [row_split_shape] fails: with a failed assertion for a
    shape of fewer than two dimensions, whatever the number of workers,
    and for a row count that is not a multiple of a non-zero number of
    workers; with ZeroDivisionError for zero workers and at least two
    dimensions. [row_merge_shape] fails only for fewer than two
    dimensions. *)
Theorem row_shape_failures s w :
  match row_split_shape s w with
  | Ok s' => 2 ≤ length s ∧ w ≠ 0%Z
  | Raise e =>
      (e = AssertionError ∧
       (length s < 2 ∨
        ∃ outer rows cols, s = outer ++ [rows; cols] ∧ w ≠ 0%Z ∧ (rows `mod` w ≠ 0)%Z)) ∨
      (e = ZeroDivisionError ∧ 2 ≤ length s ∧ w = 0%Z)
  end ∧
  match row_merge_shape s w with
  | Ok s' => 2 ≤ length s
  | Raise e => e = AssertionError ∧ length s < 2
  end.
Proof.
  destruct (decide (2 ≤ length s)) as [Hlen|Hlen].
  - destruct (shape_two_last s Hlen) as (outer & rows & cols & ->).
    rewrite row_split_shape_app, row_merge_shape_app. split; [|done].
    destruct (decide (w = 0)%Z) as [->|Hw]; [by right|].
    destruct (decide (rows `mod` w = 0)%Z) as [Hdiv|Hdiv]; [done|].
    left. split; [done|]. right. by exists outer, rows, cols.
  - rewrite row_split_shape_short, row_merge_shape_short by lia.
    split; [left|]; (split; [done|]); [left|]; lia.
Qed.

(** X20. The shape that [AllGather] describes undoes the one that
    [ReduceScatter] (or [Scatter]) describes: when the scattering
    operation describes an activation shape, a gathering operation of
    the same group bound to that shape describes the input shape of the
    scattering one. *)
Theorem gather_undoes_scatter (scatter gather : OpFields) s' :
  __dist_group_size gather = __dist_group_size scatter →
  scatter_activation_shape scatter = Ok s' →
  ∃ s, input_shape scatter = Ok s ∧
       gather_activation_shape (with_input_shape gather s') = Ok s.
Proof.
  intros Hgroup. unfold scatter_activation_shape, gather_activation_shape.
  destruct (input_shape scatter) as [s|e]; [|done]. simpl.
  unfold dist_group_size. simpl. rewrite Hgroup.
  destruct (__dist_group_size scatter) as [|[w|]]; [done| |done]. simpl.
  intros [Hm _]%row_split_merge. by exists s.
Qed.

Section transpose.
Context {DT : Type}.
Implicit Types (self : Transpose.t DT).

Lemma transpose_act_shape_app self outer rows cols :
  input_shape (Transpose.fields self) = Ok (outer ++ [rows; cols]) →
  Transpose._act_shape self = Ok (outer ++ [cols; rows]).
Proof.
  intros Hs. unfold Transpose._act_shape. rewrite Hs. simpl.
  by rewrite item_from_end_1, item_from_end_2, but_last_two_app.
Qed.

(** X21. The activation shape of [Transpose] is the input shape with its
    last two dimensions exchanged: it has as many dimensions and as many
    elements, and a [Transpose] bound to it describes the input shape
    again. *)
Theorem transpose_act_shape_involution self a :
  Transpose._act_shape self = Ok a →
  ∃ s, input_shape (Transpose.fields self) = Ok s ∧
       length a = length s ∧
       foldr Z.mul 1%Z a = foldr Z.mul 1%Z s ∧
       Transpose._act_shape (Transpose.set_input_shape self a) = Ok s.
Proof.
  intros Ha. destruct (input_shape (Transpose.fields self)) as [s|e] eqn:Hs.
  2:{ unfold Transpose._act_shape in Ha. by rewrite Hs in Ha. }
  exists s. split; [done|].
  destruct (decide (2 ≤ length s)) as [Hlen|Hlen].
  - destruct (shape_two_last s Hlen) as (outer & rows & cols & ->).
    rewrite (transpose_act_shape_app _ _ _ _ Hs) in Ha. simplify_eq.
    split_and!.
    + by rewrite !length_app.
    + rewrite !foldr_app. simpl. f_equal. lia.
    + by apply transpose_act_shape_app.
  - unfold Transpose._act_shape in Ha. rewrite Hs in Ha.
    destruct s as [|x [|y s]]; [done|done|simpl in Hlen; lia].
Qed.

(** X22. On an input shape of at least two dimensions, [Transpose]
    declares its buffer [act], of the exchanged shape, exactly when the
    last two dimensions differ, and only then reads its output type;
    when they are equal it declares nothing, even while the output type
    is still to be inferred. On a shape of fewer than two dimensions
    both the activation shape and the declaration end in IndexError. *)
Theorem transpose_act_buffer self s :
  input_shape (Transpose.fields self) = Ok s →
  (length s < 2 →
   Transpose._act_shape self = Raise IndexError ∧
   Transpose.describe_supplementary_tensors_training self = Raise IndexError) ∧
  (∀ outer rows cols, s = outer ++ [rows; cols] →
   Transpose.describe_supplementary_tensors_training self
   = if decide (rows = cols) then Ok []
     else match Transpose.__output_type self with
          | Some d => Ok [("act", (outer ++ [cols; rows], d))]
          | None => Raise AssertionError
          end).
Proof.
  intros Hs. split.
  - intros Hlen.
    assert (Transpose._act_shape self = Raise IndexError) as Hact.
    { unfold Transpose._act_shape. rewrite Hs.
      destruct s as [|x [|y s]]; [done|done|simpl in Hlen; lia]. }
    split; [done|]. unfold Transpose.describe_supplementary_tensors_training.
    by rewrite Hs, Hact.
  - intros outer rows cols ->.
    unfold Transpose.describe_supplementary_tensors_training.
    rewrite Hs, (transpose_act_shape_app _ _ _ _ Hs). simpl.
    destruct (decide (rows = cols)) as [->|Hne].
    + by destruct (decide (outer ++ [cols; cols] ≠ outer ++ [cols; cols])).
    + destruct (decide (outer ++ [rows; cols] ≠ outer ++ [cols; rows])) as [_|Heq].
      * unfold Transpose.output_type. by destruct (Transpose.__output_type self).
      * exfalso. apply Heq. intros Heq'. apply app_inv_head in Heq'. congruence.
Qed.

End transpose.

Import ParallelismClass.

Lemma gemm_rgemm_set (f : OpFields) (w n m : Z) s :
  w ≠ 0%Z → __dist_group_size f = Value (Some w) → __parallellism f = Value RGEMM →
  Gemm.set_input_shape
    {| Gemm.fields := f; Gemm.in_features := n; Gemm.out_features := m |} s
  = if decide (n `mod` w = 0)%Z
    then Ok {| Gemm.fields := with_input_shape f s;
               Gemm.in_features := (n `div` w)%Z; Gemm.out_features := m |}
    else Raise (ValueError
           "Number of input features must be divisible by the distributed group size").
Proof.
  intros Hw Hsize Hpar.
  unfold Gemm.set_input_shape, Gemm._pre_describe_tensors, parallellism,
    dist_group_size, py_mod, py_floordiv; simpl.
  rewrite Hpar, Hsize; simpl.
  destruct (decide (w = 0)%Z); [done|]. simpl.
  destruct (decide (n `mod` w = 0)%Z), (decide (n `mod` w ≠ 0)%Z); done.
Qed.

(** X23. Binding the input shape is not a plain assignment for a sharded
    operation: each call divides the feature count again. After a first
    successful [set_input_shape] on a row-parallel [Gemm], a second call
    divides the already divided input feature count by the group size
    once more, and raises ValueError when the divided count is no longer
    a multiple of the group size. *)
Theorem set_input_shape_again (self self' : Gemm.t) (w : Z) s s' :
  w ≠ 0%Z →
  __dist_group_size (Gemm.fields self) = Value (Some w) →
  __parallellism (Gemm.fields self) = Value RGEMM →
  Gemm.set_input_shape self s = Ok self' →
  Gemm.in_features self' = (Gemm.in_features self `div` w)%Z ∧
  Gemm.set_input_shape self' s'
  = if decide ((Gemm.in_features self `div` w) `mod` w = 0)%Z
    then Ok {| Gemm.fields := with_input_shape (Gemm.fields self) s';
               Gemm.in_features := ((Gemm.in_features self `div` w) `div` w)%Z;
               Gemm.out_features := Gemm.out_features self |}
    else Raise (ValueError
           "Number of input features must be divisible by the distributed group size").
Proof.
  intros Hw Hsize Hpar. destruct self as [f n m]. simpl in *.
  rewrite (gemm_rgemm_set f w) by done.
  destruct (decide (n `mod` w = 0)%Z); [|done]. intros ?; simplify_eq. simpl.
  split; [done|]. by rewrite (gemm_rgemm_set _ w).
Qed.

(** X24. Without sharding nothing is divided and no distributed group is
    needed: under NORMAL a [Gemm], and under NORMAL or ROWP a [Bias],
    come out of [set_input_shape] with their feature counts as they
    were, whether or not an environment has been set. A parallelism
    outside the three that the operation accepts, or none at all, ends
    in a failed assertion. *)
Theorem set_input_shape_unsharded (f : OpFields) (n m : Z) s :
  (__parallellism f = Value NORMAL →
   Gemm.set_input_shape
     {| Gemm.fields := f; Gemm.in_features := n; Gemm.out_features := m |} s
   = Ok {| Gemm.fields := with_input_shape f s;
           Gemm.in_features := n; Gemm.out_features := m |}) ∧
  (__parallellism f = Value NORMAL ∨ __parallellism f = Value ROWP →
   Bias.set_input_shape {| Bias.fields := f; Bias.features := n |} s
   = Ok {| Bias.fields := with_input_shape f s; Bias.features := n |}) ∧
  ((∀ p, __parallellism f = Value p → p ∉ [NORMAL; RGEMM; CGEMM]) →
   Gemm.set_input_shape
     {| Gemm.fields := f; Gemm.in_features := n; Gemm.out_features := m |} s
   = Raise AssertionError) ∧
  ((∀ p, __parallellism f = Value p → p ∉ [NORMAL; ROWP; COLP]) →
   Bias.set_input_shape {| Bias.fields := f; Bias.features := n |} s
   = Raise AssertionError).
Proof.
  split_and!.
  - intros Hpar.
    unfold Gemm.set_input_shape, Gemm._pre_describe_tensors, parallellism; simpl.
    by rewrite Hpar.
  - intros Hpar.
    unfold Bias.set_input_shape, Bias._pre_describe_tensors, parallellism,
      py_mod, py_floordiv; simpl.
    destruct Hpar as [-> | ->]; simpl; by rewrite Z.mod_1_r, Z.div_1_r.
  - intros Hpar.
    unfold Gemm.set_input_shape, Gemm._pre_describe_tensors, parallellism; simpl.
    destruct (__parallellism f) as [|p]; [done|]. simpl.
    specialize (Hpar p eq_refl). by rewrite bool_decide_eq_false_2.
  - intros Hpar.
    unfold Bias.set_input_shape, Bias._pre_describe_tensors, parallellism; simpl.
    destruct (__parallellism f) as [|p]; [done|]. simpl.
    specialize (Hpar p eq_refl). by rewrite bool_decide_eq_false_2.
Qed.

End ShapesProofs.

Module ResidualBlockProofs.
Import Residual ResidualBlock ResidualProofs.

Section block.
Context {V : Type}.
Variable plus : V → V → V.
Variable inner_inference : nat → (nat → V) → nat * (nat → V).
Variable inner_training : nat → (nat → V) → Suspended (V := V).

(** X25. A residual block adds its input to the output of the wrapped
    operations, also when those work in place on the input: if the
    wrapped operations leave the buffer [fwd_residue] as they find it,
    inference through [[begin, *inner, end]] returns that buffer,
    holding the sum of the content the input had on entry and of the
    inner output. *)
Theorem residual_block_inference (fwd bwd x : nat) (σ : nat → V) :
  (inner_inference x (copy x fwd σ)).2 fwd = copy x fwd σ fwd →
  (block_inference plus inner_inference (expand_markers fwd bwd) x σ).1 = fwd ∧
  (block_inference plus inner_inference (expand_markers fwd bwd) x σ).2 fwd
  = plus (σ x) ((inner_inference x (copy x fwd σ)).2 (inner_inference x (copy x fwd σ)).1).
Proof.
  intros Hframe. split; [done|].
  unfold block_inference, ResidualEnd_inference, ResidualBegin_inference. simpl.
  rewrite (add_out plus), Hframe. by rewrite copy_out.
Qed.

(** X26. In training the block yields the same sum, and its backward
    returns the sum of the gradient it received and of the gradient that
    came back through the wrapped operations, also when those overwrite
    the received gradient in place: provided they leave [fwd_residue] as
    they find it on the way forward and [bwd_residue] on the way back,
    the resumed block yields the buffer [bwd_residue] holding that sum. *)
Theorem residual_block_training (fwd bwd x grad : nat) (σ τ : nat → V) :
  (inner_training x (copy x fwd σ)).1.2 fwd = copy x fwd σ fwd →
  ((inner_training x (copy x fwd σ)).2 grad (copy grad bwd τ)).2 bwd
    = copy grad bwd τ bwd →
  ∃ σ' resume,
    block_training plus inner_training (expand_markers fwd bwd) x σ
      = Ok (fwd, σ', resume) ∧
    σ' fwd = plus (σ x) ((inner_training x (copy x fwd σ)).1.2
                           (inner_training x (copy x fwd σ)).1.1) ∧
    (resume grad τ).1 = bwd ∧
    (resume grad τ).2 bwd
    = plus (τ grad)
        (((inner_training x (copy x fwd σ)).2 grad (copy grad bwd τ)).2
           ((inner_training x (copy x fwd σ)).2 grad (copy grad bwd τ)).1).
Proof.
  intros Hfwd Hbwd. unfold block_training, ResidualBegin_training. simpl.
  eexists _, _. split; [done|]. simpl. split_and!.
  - rewrite (add_out plus), Hfwd. by rewrite copy_out.
  - done.
  - rewrite (add_out plus), Hbwd. by rewrite copy_out.
Qed.

End block.
End ResidualBlockProofs.

Module OnMoreSamples.
Import Partition PartitionRuns Pipeline Naming Squish Boundary Exposure Ops Shapes.
Import Residual ResidualBlock Samples MoreSamples.

Lemma split_same_grouping_witness :
  split_into_self_contained same_grouping same_grouping
  = Some (Ok [singleton_unit (Plain 1); singleton_unit (Fused [2; 3])]).
Proof.
  apply (PartitionRunsProofs.split_same_grouping same_grouping).
  repeat constructor; try discriminate.
  all: intros Hin; repeat (apply elem_of_cons in Hin as [Hin|Hin]; [discriminate|]);
    by apply elem_of_nil in Hin.
Defined.

Lemma split_groups_not_empty_witness :
  Forall (λ u, fwds u ≠ []) sample_units ∧ length sample_units ≤ 3 ∧
  Forall (λ u, bwds u ≠ []) sample_units.
Proof.
  destruct (PartitionRunsProofs.split_groups_not_empty
              [Plain 1; Fused [2; 3]; Plain 4] [Fused [1; 2]; Plain 3; Plain 4] sample_units)
    as (Hf & Hlen & Hb).
  { vm_compute. reflexivity. }
  split_and!; [exact Hf|exact Hlen|].
  apply Hb. repeat constructor; discriminate.
Defined.

Lemma split_mismatch_raises_witness :
  split_into_self_contained [Plain 1] [Plain 2] = Some (Raise IndexError).
Proof.
  apply (PartitionRunsProofs.split_mismatch_raises [Plain 1] [Plain 2]).
  apply (bool_decide_unpack _). vm_compute. reflexivity.
Defined.

Lemma split_units_minimal_witness : Forall minimal_unit sample_units.
Proof.
  apply (PartitionRunsProofs.split_units_minimal
           [Plain 1; Fused [2; 3]; Plain 4] [Fused [1; 2]; Plain 3; Plain 4]).
  - apply (bool_decide_unpack _). vm_compute. reflexivity.
  - apply (bool_decide_unpack _). vm_compute. reflexivity.
  - vm_compute. reflexivity.
Defined.

Lemma name_ops_last_position_witness :
  name_ops_in_place [7; 7] one_object !! 7
  = Some (set_name "1(LayerNorm)" layer_norm) ∧
  name_ops_in_place [7; 7] one_object !! 8 = None.
Proof.
  destruct (NamingProofs.name_ops_last_position [7; 7] one_object 1 7 layer_norm)
    as [Hname Hframe].
  - reflexivity.
  - intros [|[|k]] Hk; [lia|lia|discriminate].
  - reflexivity.
  - split; [exact Hname|]. rewrite (Hframe 8); [reflexivity|].
    intros Hin; repeat (apply elem_of_cons in Hin as [Hin|Hin]; [discriminate|]);
      by apply elem_of_nil in Hin.
Defined.

Lemma name_ops_distinct_objects_witness :
  Forall2 (λ a op, name_ops_in_place [3; 5] two_objects !! a = Some op)
    [3; 5] (name_ops [layer_norm; gemm]) ∧
  "0(LayerNorm)" +:+ ")x" ≠ "1(Gemm)" +:+ "x".
Proof.
  destruct (NamingProofs.name_ops_distinct_objects [3; 5] two_objects [layer_norm; gemm])
    as [Hstate Hapart].
  - apply (bool_decide_unpack _). vm_compute. reflexivity.
  - repeat constructor.
  - split; [exact Hstate|].
    apply (Hapart 0 1 layer_norm0 gemm1 ")x" "x"); [reflexivity|reflexivity|lia].
Defined.

Lemma units_forward_chain_witness :
  foldl (λ x u, (Unit.forward save_input u x).1) 5
    [ {| fwds := [Plain layer_norm0; Plain gemm1];
         bwds := [Plain gemm1; Plain layer_norm0] |} ]
  = 7.
Proof.
  rewrite (UnitRunsProofs.units_forward_chain save_input
             [Plain layer_norm0; Plain gemm1] [Plain gemm1; Plain layer_norm0]
             [ {| fwds := [Plain layer_norm0; Plain gemm1];
                  bwds := [Plain gemm1; Plain layer_norm0] |} ] 5).
  - reflexivity.
  - vm_compute. reflexivity.
Defined.

Lemma prepare_ops_names_witness :
  ∃ ops', prepare_ops [layer_norm; gemm] fp8_env = Ok ops' ∧
          Forall2 (λ a op, name_ops_in_place [3; 5] two_objects !! a = Some op)
            [3; 5] ops' ∧
          length ops' = 2 ∧
          ∃ op0, [layer_norm; gemm] !! 1 = Some op0 ∧
                 class_name gemm1 = class_name op0 ∧
                 name gemm1 = op_name_at 1 (class_name op0) ∧
                 attrs gemm1 = attrs op0.
Proof.
  destruct (NamingProofs.prepare_ops_names [3; 5] two_objects
              (name_ops_in_place [3; 5] two_objects) [layer_norm; gemm] fp8_env)
    as (ops' & Hprep & Hstate & Hlen & Hops).
  - apply (bool_decide_unpack _). vm_compute. reflexivity.
  - repeat constructor.
  - reflexivity.
  - exists ops'. split_and!; [exact Hprep|exact Hstate|exact Hlen|].
    destruct (Hops 1 gemm1) as (op0 & H0 & Hc & Hn & Ha).
    { injection Hprep as <-. reflexivity. }
    exists op0. split_and!; [exact H0|exact Hc|exact Hn|]. apply Ha. reflexivity.
Defined.

Lemma init_returns_witness :
  (world_size bf16_env ≤ 1)%Z ∧
  ∃ ops', prepare_ops [layer_norm; gemm] bf16_env = Ok ops' ∧
          _inf sample_pipeline = no_fusion ops' Inference ∧
          Pipeline.forward sample_pipeline = no_fusion ops' Forward ∧
          Pipeline.backward sample_pipeline = no_fusion ops' Backward ∧
          split_into_self_contained (Pipeline.forward sample_pipeline)
            (Pipeline.backward sample_pipeline)
          = Some (Ok (functions sample_pipeline)) ∧
          ops_of (Pipeline.forward sample_pipeline)
          = ops_of (Pipeline.backward sample_pipeline) ∧
          length (functions sample_pipeline) ≤ length (Pipeline.forward sample_pipeline).
Proof.
  apply (ConstructionProofs.init_returns no_fusion [layer_norm; gemm] bf16_env
           sample_pipeline).
  vm_compute. reflexivity.
Defined.

Lemma forward_gradient_shape_witness :
  ∃ g, incoming_grad te_dtype_of ∅ first_ctx half_grad = Ok g ∧
       dtype (data g) = int8 ∧ shape (data g) = [1; 4] ∧
       storage (data g) = storage half_grad.
Proof.
  destruct (ExposureProofs.forward_gradient_shape four_tensors pass_through te_dtype_of
              first_args grad32 [grad32; even_int8; empty_tensor; empty_tensor; empty_tensor]
              first_ctx exposed_half even_int8 empty_tensor empty_tensor empty_tensor)
    as (_ & _ & _ & _ & Hgrad).
  - reflexivity.
  - apply (Hgrad ∅ half_grad); reflexivity.
Defined.

Lemma apply_wires_neighbours_witness :
  nvte_squish_outgoing_dgrad second_ctx = nvte_unsquish_incoming_dgrad first_ctx ∧
  nvte_upcoming_backward_comm second_ctx = Some (nvte_preceding_backward_comm first_ctx).
Proof.
  destruct (ExposureProofs.apply_wires_neighbours four_tensors pass_through
              first_args grad32 [even_int8; empty_tensor; empty_tensor; empty_tensor]
              [grad32] first_ctx second_ctx
              exposed_half even_int8 empty_tensor empty_tensor empty_tensor
              (op first_args) 1
              (exposed_half, even_int8, empty_tensor, empty_tensor, empty_tensor))
    as (Hflag & Hrelay & _); [reflexivity|reflexivity|].
  split; [exact Hflag|exact Hrelay].
Defined.

Lemma outgoing_gradient_shape_witness :
  ∃ e, head [Some half_grad; None; None; None] = Some (Some e) ∧
       dtype e = dtype exposed_half ∧ shape e = shape exposed_half.
Proof.
  apply (ExposureProofs.outgoing_gradient_shape four_tensors pass_through te_dtype_of
           no_param_grads first_args grad32
           [even_int8; empty_tensor; empty_tensor; empty_tensor]
           first_ctx second_ctx
           exposed_half even_int8 empty_tensor empty_tensor empty_tensor
           ∅ {[ 0 := make_nvte_tensor te_dtype_of raw_grad ]} half_grad
           (make_nvte_tensor te_dtype_of raw_grad)
           [Some half_grad; None; None; None]); reflexivity.
Defined.

Example forward_empty_rows :
  Exposure.forward four_tensors pass_through first_args grad32
    [empty_rows_int8; empty_tensor; empty_tensor; empty_tensor]
  = Raise (RuntimeError "self.stride(i) must be divisible by the element size ratio").
Proof. reflexivity. Qed.


Lemma backward_returns_witness :
  ∃ nvte_grad d,
    incoming_grad te_dtype_of ∅ last_backward_ctx grad32 = Ok nvte_grad ∧
    Forall (λ g, is_fp8_tensor g = false)
      (Unit.backward plain_grads (nvte_op last_backward_ctx) (nvte_ctx last_backward_ctx)
         nvte_grad).2 ∧
    d = grad32 ∧
    [Some grad32; Some grad32; None; None; None]
    = Some d :: ((λ g, Some (data g)) <$>
                   (Unit.backward plain_grads (nvte_op last_backward_ctx)
                      (nvte_ctx last_backward_ctx) nvte_grad).2)
      ++ [None; None; None].
Proof.
  destruct (ExposureProofs.backward_returns te_dtype_of plain_grads ∅ ∅ last_backward_ctx
              grad32 [Some grad32; Some grad32; None; None; None])
    as (nvte_grad & d & Hin & Hall & _ & _ & Hd & Houts).
  - reflexivity.
  - exists nvte_grad, d. split_and!; [exact Hin|exact Hall| |exact Houts].
    simpl in Hd. rewrite Hd. unfold incoming_grad in Hin. simpl in Hin.
    injection Hin as <-. reflexivity.
Defined.

Lemma relay_hand_over_witness :
  incoming_grad te_dtype_of {[ 0 := make_nvte_tensor te_dtype_of grad32 ]}
    last_backward_ctx half_grad
  = Ok (make_nvte_tensor te_dtype_of grad32).
Proof.
  destruct (ExposureProofs.relay_hand_over te_dtype_of plain_grads ∅
              {[ 0 := make_nvte_tensor te_dtype_of grad32 ]} later_ctx last_backward_ctx 0
              grad32 [Some grad32; Some grad32; None; None; None])
    as (nvte_grad & Hin & Hnext); [reflexivity..|].
  unfold incoming_grad in Hin. simpl in Hin. injection Hin as <-.
  exact (Hnext half_grad).
Defined.

Lemma row_split_then_merge_witness :
  row_merge_shape [2; 2; 3]%Z 4 = Ok [2; 8; 3]%Z ∧ length [2; 2; 3]%Z = length [2; 8; 3]%Z.
Proof. apply (ShapesProofs.row_split_then_merge [2; 8; 3]%Z [2; 2; 3]%Z 4). reflexivity. Defined.

Lemma row_merge_then_split_witness :
  ∃ s', row_merge_shape [2; 2; 3]%Z 4 = Ok s' ∧ row_split_shape s' 4 = Ok [2; 2; 3]%Z.
Proof.
  apply (ShapesProofs.row_merge_then_split [2; 2; 3]%Z 4); [discriminate|simpl; lia].
Defined.

Lemma gather_undoes_scatter_witness :
  ∃ s, input_shape scatter_fields = Ok s ∧
       gather_activation_shape (with_input_shape gather_fields [2; 2; 3]%Z) = Ok s.
Proof.
  apply (ShapesProofs.gather_undoes_scatter scatter_fields gather_fields [2; 2; 3]%Z);
    reflexivity.
Defined.

Lemma transpose_act_shape_involution_witness :
  ∃ s, input_shape (Transpose.fields transpose_op) = Ok s ∧
       length [5; 3; 2]%Z = length s ∧
       foldr Z.mul 1%Z [5; 3; 2]%Z = foldr Z.mul 1%Z s ∧
       Transpose._act_shape (Transpose.set_input_shape transpose_op [5; 3; 2]%Z) = Ok s.
Proof.
  apply (ShapesProofs.transpose_act_shape_involution transpose_op [5; 3; 2]%Z). reflexivity.
Defined.

Lemma transpose_act_buffer_witness :
  Transpose.describe_supplementary_tensors_training transpose_op
  = Ok [("act", ([5; 3; 2]%Z, "FP32"))].
Proof.
  destruct (ShapesProofs.transpose_act_buffer transpose_op [5; 2; 3]%Z) as [_ Hact];
    [reflexivity|].
  rewrite (Hact [5%Z] 2%Z 3%Z); reflexivity.
Defined.

Lemma set_input_shape_again_witness :
  Gemm.in_features
    {| Gemm.fields := with_input_shape row_parallel_fields [2; 16]%Z;
       Gemm.in_features := 4; Gemm.out_features := 8 |} = (16 `div` 4)%Z ∧
  Gemm.set_input_shape
    {| Gemm.fields := with_input_shape row_parallel_fields [2; 16]%Z;
       Gemm.in_features := 4; Gemm.out_features := 8 |} [2; 4]%Z
  = Ok {| Gemm.fields := with_input_shape row_parallel_fields [2; 4]%Z;
          Gemm.in_features := 1; Gemm.out_features := 8 |}.
Proof.
  apply (ShapesProofs.set_input_shape_again gemm16
           {| Gemm.fields := with_input_shape row_parallel_fields [2; 16]%Z;
              Gemm.in_features := 4; Gemm.out_features := 8 |} 4 [2; 16]%Z [2; 4]%Z);
    [discriminate|reflexivity..].
Defined.

Lemma set_input_shape_unsharded_witness :
  Gemm.set_input_shape
    {| Gemm.fields := normal_fields; Gemm.in_features := 10; Gemm.out_features := 8 |}
    [2; 10]%Z
  = Ok {| Gemm.fields := with_input_shape normal_fields [2; 10]%Z;
          Gemm.in_features := 10; Gemm.out_features := 8 |} ∧
  Bias.set_input_shape {| Bias.fields := normal_fields; Bias.features := 10 |} [2; 10]%Z
  = Ok {| Bias.fields := with_input_shape normal_fields [2; 10]%Z; Bias.features := 10 |}.
Proof.
  destruct (ShapesProofs.set_input_shape_unsharded normal_fields 10 8 [2; 10]%Z)
    as (Hgemm & Hbias & _).
  split; [apply Hgemm; reflexivity|apply Hbias; left; reflexivity].
Defined.

Lemma residual_block_inference_witness :
  (block_inference Z.add add_ten (expand_markers 0 1) 2 residual_store).1 = 0 ∧
  (block_inference Z.add add_ten (expand_markers 0 1) 2 residual_store).2 0 = 14%Z.
Proof.
  apply (ResidualBlockProofs.residual_block_inference Z.add add_ten 0 1 2 residual_store).
  reflexivity.
Defined.

Lemma residual_block_training_witness :
  ∃ σ' resume,
    block_training Z.add add_ten_training (expand_markers 0 1) 2 residual_store
      = Ok (0, σ', resume) ∧
    σ' 0 = 14%Z ∧
    (resume 3 residual_store).1 = 1 ∧
    (resume 3 residual_store).2 1 = 21%Z.
Proof.
  apply (ResidualBlockProofs.residual_block_training Z.add add_ten_training 0 1 2 3
           residual_store residual_store); reflexivity.
Defined.

End OnMoreSamples.
